(** * Invoice processor: extraction pipeline

    A shallow embedding of the extraction pipeline of the invoice
    processor: the browser side (type detection, smart resize, the
    size-budget passes, the tolerant JSON extraction and the field
    coercion of [extractInvoice]) and the two versions of the serverless
    proxy [handler] with their provider clients.

    JavaScript strings are sequences of UTF-16 code units; they are
    modelled as lists of [N].  Values that cross the wire are JSON values.
    What the JavaScript engine and the network decide (the bytes a canvas
    encodes to, the answer of a provider, the text of an engine-made error
    message) enters the model as an explicit argument. *)

From Stdlib Require Import Ascii String DecimalString.
From Stdlib Require Import List NArith ZArith QArith Qround Qminmax Bool Lia.
Import ListNotations.
Set Warnings "-register-all".
Close Scope Q_scope.

(* ================================================================== *)
(** ** JavaScript strings *)

Module JS.

Definition char := N.
Definition str := list char.

(** An ASCII literal as a list of code units. *)
Definition lit (s : string) : str := map N_of_ascii (list_ascii_of_string s).

(** The same, with every apostrophe standing for a double quote, so that
    JSON texts can be written down legibly. *)
Definition qlit (s : string) : str :=
  map (fun c => if N.eqb c 39 then 34%N else c) (lit s).

Definition ch_nl : char := 10%N.
Definition ch_quote : char := 34%N.
Definition ch_comma : char := 44%N.
Definition ch_dot : char := 46%N.
Definition ch_colon : char := 58%N.
Definition ch_lbrack : char := 91%N.
Definition ch_bslash : char := 92%N.
Definition ch_rbrack : char := 93%N.
Definition ch_btick : char := 96%N.
Definition ch_lbrace : char := 123%N.
Definition ch_rbrace : char := 125%N.

Fixpoint str_eqb (a b : str) : bool :=
  match a, b with
  | [], [] => true
  | x :: a', y :: b' => N.eqb x y && str_eqb a' b'
  | _, _ => false
  end.

(** [\s] of a regular expression and the characters [trim] removes:
    WhiteSpace and LineTerminator of the language specification. *)
Definition is_space (c : char) : bool :=
  (N.leb 9 c && N.leb c 13) || N.eqb c 32 || N.eqb c 160 || N.eqb c 5760
  || (N.leb 8192 c && N.leb c 8202) || N.eqb c 8232 || N.eqb c 8233
  || N.eqb c 8239 || N.eqb c 8287 || N.eqb c 12288 || N.eqb c 65279.

Fixpoint drop_space (s : str) : str :=
  match s with
  | c :: t => if is_space c then drop_space t else s
  | [] => []
  end.

(** [s.trim()] *)
Definition trim (s : str) : str := rev (drop_space (rev (drop_space s))).

(** [s.slice(a, b)] for [0 <= a <= b]. *)
Definition slice (a b : nat) (s : str) : str := firstn (b - a) (skipn a s).

(** [s.indexOf(c)] for a single character; [None] is [-1]. *)
Fixpoint index_of (c : char) (s : str) : option nat :=
  match s with
  | [] => None
  | x :: t => if N.eqb x c then Some O
              else match index_of c t with Some i => Some (S i) | None => None end
  end.

(** [(s.match(/c/g) || []).length] for a single character. *)
Definition count_char (c : char) (s : str) : Z :=
  Z.of_nat (length (filter (N.eqb c) s)).

(** [s.startsWith(p)] *)
Fixpoint starts_with (p s : str) : bool :=
  match p, s with
  | [], _ => true
  | x :: p', y :: s' => N.eqb x y && starts_with p' s'
  | _ :: _, [] => false
  end.

(** [s.includes(p)] *)
Fixpoint includes (p s : str) : bool :=
  starts_with p s ||
  match s with
  | [] => false
  | _ :: t => includes p t
  end.

(** ASCII letters to lower case.  [toLowerCase] also maps letters outside
    ASCII; of those only U+212A maps to an ASCII letter ([k]), which none
    of the constants compared against below contains, so every comparison
    of a lowered string with one of these constants has the outcome it has
    in the engine. *)
Definition lower_char (c : char) : char :=
  if N.leb 65 c && N.leb c 90 then (c + 32)%N else c.

Definition toLowerCase (s : str) : str := map lower_char s.

(** [s.split(".").pop()]: what follows the last dot, the whole string when
    there is none. *)
Fixpoint after_last (c : char) (s : str) : str :=
  match s with
  | [] => []
  | x :: t => if existsb (N.eqb c) t then after_last c t
              else if N.eqb x c then t else s
  end.

(** [s.split(",")[1]]: the second comma-separated segment, [None] (that is
    [undefined]) when the string has no comma. *)
Fixpoint upto (c : char) (s : str) : str :=
  match s with
  | [] => []
  | x :: t => if N.eqb x c then [] else x :: upto c t
  end.

Fixpoint split_second (c : char) (s : str) : option str :=
  match s with
  | [] => None
  | x :: t => if N.eqb x c then Some (upto c t) else split_second c t
  end.

(* ------------------------------------------------------------------ *)
(** *** Regular expressions

    The three patterns of the program are sequences of single-character
    items, each taken once, optionally or any number of times.  The
    matcher below is the engine's backtracking search for that fragment:
    an optional or starred item first tries to take one more character
    and gives it back when the rest of the pattern then fails. *)

Inductive item :=
| One (p : char -> bool)
| Opt (p : char -> bool)
| Many (p : char -> bool).

Record regex := { items : list item; at_end : bool }.

(** [match_items its anchored s] is the length of the match that starts at
    the head of [s], if there is one. *)
Fixpoint match_items (its : list item) (anchored : bool) : str -> option nat :=
  match its with
  | [] => fun s =>
      if anchored then match s with [] => Some O | _ :: _ => None end
      else Some O
  | One p :: rest => fun s =>
      match s with
      | c :: t => if p c then option_map S (match_items rest anchored t) else None
      | [] => None
      end
  | Opt p :: rest => fun s =>
      match s with
      | c :: t =>
          if p c then
            match match_items rest anchored t with
            | Some n => Some (S n)
            | None => match_items rest anchored s
            end
          else match_items rest anchored s
      | [] => match_items rest anchored s
      end
  | Many p :: rest =>
      fix star (s : str) : option nat :=
        match s with
        | c :: t =>
            if p c then
              match star t with
              | Some n => Some (S n)
              | None => match_items rest anchored s
              end
            else match_items rest anchored s
        | [] => match_items rest anchored s
        end
  end.

(** The characters an item takes. *)
Definition item_pred (it : item) : char -> bool :=
  match it with
  | One p | Opt p | Many p => p
  end.

Definition match_at (re : regex) (s : str) : option nat :=
  match_items (items re) (at_end re) s.

(** [s.replace(re, empty)] without the [g] flag: the leftmost match is
    removed. *)
Fixpoint replace_first (re : regex) (s : str) : str :=
  match match_at re s with
  | Some n => skipn n s
  | None => match s with
            | [] => []
            | c :: t => c :: replace_first re t
            end
  end.

(** [s.replace(re, empty)] with the [g] flag: matches are removed from left
    to right, the search resuming after each match.  [skip] counts the
    characters of the current match still to be dropped. *)
Fixpoint replace_all_from (re : regex) (skip : nat) (s : str) : str :=
  match s with
  | [] => []
  | c :: t =>
      match skip with
      | S k => replace_all_from re k t
      | O => match match_at re s with
             | Some (S n) => replace_all_from re n t
             | _ => c :: replace_all_from re O t
             end
      end
  end.

Definition replace_all (re : regex) (s : str) : str := replace_all_from re O s.

Definition is_c (c : char) : char -> bool := N.eqb c.
(** a letter under the [i] flag *)
Definition is_ci (c : char) : char -> bool := fun x => N.eqb (lower_char x) c.
Definition not_in (cs : list char) : char -> bool :=
  fun x => negb (existsb (N.eqb x) cs).

(** Thrown values.  The message of an error the engine makes itself is not
    modelled. *)
Inductive exn :=
| JsError (message : str)
| JsSyntaxError
| JsTypeError.

Inductive result (A : Type) :=
| Ok (a : A)
| Throw (e : exn).
Arguments Ok {A} a.
Arguments Throw {A} e.

Definition bind {A B} (r : result A) (k : A -> result B) : result B :=
  match r with
  | Ok a => k a
  | Throw e => Throw e
  end.

End JS.

(* ================================================================== *)
(** ** JSON values and [JSON.parse] *)

Module Json.
Import JS.

(** A number as the decimal its literal denotes:
    [(-1)^neg * mant * 10^exp10].  [JSON.parse] rounds it to binary64;
    the only thing the program asks of a number is whether it is zero,
    and [num_is_zero] answers that for the rounded value. *)
Record number := { neg : bool; mant : N; exp10 : Z }.

Inductive json :=
| JNull
| JBool (b : bool)
| JNum (n : number)
| JStr (s : str)
| JArr (l : list json)
| JObj (m : list (str * json)).

(** Members of an object in insertion order; assigning to a key that is
    present keeps its place. *)
Fixpoint obj_set (k : str) (v : json) (m : list (str * json)) : list (str * json) :=
  match m with
  | [] => [(k, v)]
  | (k', v') :: m' => if str_eqb k k' then (k, v) :: m' else (k', v') :: obj_set k v m'
  end.

Fixpoint obj_get (k : str) (m : list (str * json)) : option json :=
  match m with
  | [] => None
  | (k', v') :: m' => if str_eqb k k' then Some v' else obj_get k m'
  end.

(** The decimal rounds to zero: it is zero, or at most half the least
    subnormal, [2^-1075] (the tie goes to the even neighbour, zero). *)
Definition num_is_zero (n : number) : bool :=
  N.eqb (mant n) 0 ||
  (Z.ltb (exp10 n) 0 &&
   Z.leb (Z.of_N (mant n) * 2 ^ 1075) (10 ^ (- exp10 n)))%Z.

(** [ToBoolean] *)
Definition truthy (v : json) : bool :=
  match v with
  | JNull => false
  | JBool b => b
  | JNum n => negb (num_is_zero n)
  | JStr s => match s with [] => false | _ :: _ => true end
  | JArr _ | JObj _ => true
  end.

(** [ToBoolean] of a value that may be [undefined] *)
Definition truthy_opt (v : option json) : bool :=
  match v with
  | Some x => truthy x
  | None => false
  end.

Definition num_of_nat (n : nat) : json :=
  JNum {| neg := false; mant := N.of_nat n; exp10 := 0 |}.

(** [v.k] for a value that is neither [null] nor [undefined] and a name
    [k] that no prototype defines (every name the program reads): the
    member of an object, the [length] of an array or a string,
    [undefined] otherwise. *)
Definition get (k : str) (v : json) : option json :=
  match v with
  | JObj m => obj_get k m
  | JArr l => if str_eqb k (lit "length") then Some (num_of_nat (length l)) else None
  | JStr s => if str_eqb k (lit "length") then Some (num_of_nat (length s)) else None
  | _ => None
  end.

(** [v?.k]: [undefined] when [v] is [null] or [undefined]. *)
Definition get_opt (k : str) (v : option json) : option json :=
  match v with
  | None | Some JNull => None
  | Some x => get k x
  end.

(** [v?.[0]] *)
Definition first_opt (v : option json) : option json :=
  match v with
  | Some (JArr (x :: _)) => Some x
  | Some (JStr (c :: _)) => Some (JStr [c])
  | Some (JObj m) => obj_get (lit "0") m
  | _ => None
  end.

(** A value when it is truthy: the left operand [||] returns. *)
Definition pick (v : option json) : option json :=
  match v with
  | Some x => if truthy x then Some x else None
  | None => None
  end.

(* ------------------------------------------------------------------ *)
(** *** Tokens *)

Inductive token :=
| TLBrace | TRBrace | TLBrack | TRBrack | TComma | TColon
| TString (s : str)
| TNumber (n : number)
| TTrue | TFalse | TNull.

Definition is_json_ws (c : char) : bool :=
  N.eqb c 9 || N.eqb c 10 || N.eqb c 13 || N.eqb c 32.

Definition is_digit (c : char) : bool := N.leb 48 c && N.leb c 57.

Definition hex_val (c : char) : option N :=
  if N.leb 48 c && N.leb c 57 then Some (c - 48)%N
  else if N.leb 65 c && N.leb c 70 then Some (c - 55)%N
  else if N.leb 97 c && N.leb c 102 then Some (c - 87)%N
  else None.

Definition hex4 (a b c d : char) : option char :=
  match hex_val a, hex_val b, hex_val c, hex_val d with
  | Some x, Some y, Some z, Some w => Some (((x * 16 + y) * 16 + z) * 16 + w)%N
  | _, _, _, _ => None
  end.

(** The character a one-letter escape stands for. *)
Definition unescape (c : char) : option char :=
  if N.eqb c 34 then Some 34%N        (* quote *)
  else if N.eqb c 92 then Some 92%N   (* backslash *)
  else if N.eqb c 47 then Some 47%N   (* slash *)
  else if N.eqb c 98 then Some 8%N    (* b *)
  else if N.eqb c 102 then Some 12%N  (* f *)
  else if N.eqb c 110 then Some 10%N  (* n *)
  else if N.eqb c 114 then Some 13%N  (* r *)
  else if N.eqb c 116 then Some 9%N   (* t *)
  else None.

Definition more (c : char) (n : nat) (r : option (str * nat)) : option (str * nat) :=
  match r with
  | Some (s, k) => Some (c :: s, (n + k)%nat)
  | None => None
  end.

(** The body of a string literal, after its opening quote: the characters
    it denotes and the number of code units read, closing quote
    included. *)
Fixpoint lex_string (s : str) : option (str * nat) :=
  match s with
  | [] => None
  | c :: t =>
      if N.eqb c ch_quote then Some ([], 1%nat)
      else if N.eqb c ch_bslash then
        match t with
        | [] => None
        | e :: t1 =>
            if N.eqb e 117 then
              match t1 with
              | a :: b :: c' :: d :: t2 =>
                  match hex4 a b c' d with
                  | Some u => more u 6 (lex_string t2)
                  | None => None
                  end
              | _ => None
              end
            else
              match unescape e with
              | Some x => more x 2 (lex_string t1)
              | None => None
              end
        end
      else if N.ltb c 32 then None
      else more c 1 (lex_string t)
  end.

Fixpoint span_digits (s : str) : str * str :=
  match s with
  | c :: t => if is_digit c then let (ds, r) := span_digits t in (c :: ds, r)
              else ([], s)
  | [] => ([], [])
  end.

Definition digits_value (ds : str) : N :=
  fold_left (fun acc d => (acc * 10 + (d - 48))%N) ds 0%N.

(** A number literal at the head of [s]: optional minus, integer part
    without a leading zero, optional fraction, optional exponent. *)
Definition lex_number (s : str) : option (number * nat) :=
  let '(sign, s1) :=
    match s with
    | c :: t => if N.eqb c 45 then (true, t) else (false, s)
    | [] => (false, s)
    end in
  match s1 with
  | [] => None
  | d :: t =>
      if is_digit d then
        let '(ip, r1) :=
          if N.eqb d 48 then ([d], t)
          else let (ds, r) := span_digits t in (d :: ds, r) in
        let '(fp, r2) :=
          match r1 with
          | c :: r =>
              if N.eqb c 46 then
                match span_digits r with
                | ([], _) => ([], r1)
                | (ds, r') => (ds, r')
                end
              else ([], r1)
          | [] => ([], r1)
          end in
        let '(ex, r3) :=
          match r2 with
          | c :: r =>
              if N.eqb c 101 || N.eqb c 69 then
                let '(minus, r') :=
                  match r with
                  | g :: r0 => if N.eqb g 45 then (true, r0)
                               else if N.eqb g 43 then (false, r0)
                               else (false, r)
                  | [] => (false, r)
                  end in
                match span_digits r' with
                | ([], _) => (0%Z, r2)
                | (ds, r'') =>
                    (if minus then (- Z.of_N (digits_value ds))%Z
                     else Z.of_N (digits_value ds), r'')
                end
              else (0%Z, r2)
          | [] => (0%Z, r2)
          end in
        Some ({| neg := sign;
                 mant := digits_value (ip ++ fp);
                 exp10 := (ex - Z.of_nat (length fp))%Z |},
              (length s - length r3)%nat)
      else None
  end.

(** The token at the head of [s] and its length. *)
Definition token_at (s : str) : option (token * nat) :=
  match s with
  | [] => None
  | c :: t =>
      if N.eqb c ch_lbrace then Some (TLBrace, 1%nat)
      else if N.eqb c ch_rbrace then Some (TRBrace, 1%nat)
      else if N.eqb c ch_lbrack then Some (TLBrack, 1%nat)
      else if N.eqb c ch_rbrack then Some (TRBrack, 1%nat)
      else if N.eqb c ch_comma then Some (TComma, 1%nat)
      else if N.eqb c ch_colon then Some (TColon, 1%nat)
      else if N.eqb c ch_quote then
        match lex_string t with
        | Some (body, n) => Some (TString body, S n)
        | None => None
        end
      else if starts_with (lit "true") s then Some (TTrue, 4%nat)
      else if starts_with (lit "false") s then Some (TFalse, 5%nat)
      else if starts_with (lit "null") s then Some (TNull, 4%nat)
      else
        match lex_number s with
        | Some (n, k) => Some (TNumber n, k)
        | None => None
        end
  end.

(** The tokens of a text; [skip] counts the characters of the current
    token still to be passed over. *)
Fixpoint lex_from (skip : nat) (s : str) : option (list token) :=
  match s with
  | [] => Some []
  | c :: t =>
      match skip with
      | S k => lex_from k t
      | O =>
          if is_json_ws c then lex_from O t
          else
            match token_at s with
            | Some (tok, S n) =>
                match lex_from n t with
                | Some toks => Some (tok :: toks)
                | None => None
                end
            | _ => None
            end
      end
  end.

(* ------------------------------------------------------------------ *)
(** *** The grammar, as a pushdown automaton over the tokens *)

(** A container under construction. *)
Inductive frame :=
| FArr (rev_elems : list json)
| FObj (members : list (str * json)) (key : str).

Inductive mode :=
| MValue        (* a value must follow *)
| MFirstElem    (* after an opening bracket: a value or the close *)
| MFirstKey     (* after an opening brace: a key or the close *)
| MKey          (* after a comma in an object: a key *)
| MColon        (* after a key *)
| MAfter        (* after a value in a container: a comma or the close *)
| MDone (v : json).

(** A value is complete: it goes into the innermost open container, or is
    the result. *)
Definition push_value (v : json) (stk : list frame) : mode * list frame :=
  match stk with
  | [] => (MDone v, [])
  | FArr acc :: stk' => (MAfter, FArr (v :: acc) :: stk')
  | FObj m k :: stk' => (MAfter, FObj (obj_set k v m) k :: stk')
  end.

Definition scalar_of (t : token) : option json :=
  match t with
  | TString s => Some (JStr s)
  | TNumber n => Some (JNum n)
  | TTrue => Some (JBool true)
  | TFalse => Some (JBool false)
  | TNull => Some JNull
  | _ => None
  end.

Definition start_value (t : token) (stk : list frame) : option (mode * list frame) :=
  match t with
  | TLBrack => Some (MFirstElem, FArr [] :: stk)
  | TLBrace => Some (MFirstKey, FObj [] [] :: stk)
  | _ => match scalar_of t with
         | Some v => Some (push_value v stk)
         | None => None
         end
  end.

Definition close_array (stk : list frame) : option (mode * list frame) :=
  match stk with
  | FArr acc :: stk' => Some (push_value (JArr (rev acc)) stk')
  | _ => None
  end.

Definition close_object (stk : list frame) : option (mode * list frame) :=
  match stk with
  | FObj m _ :: stk' => Some (push_value (JObj m) stk')
  | _ => None
  end.

Definition set_key (k : str) (stk : list frame) : option (mode * list frame) :=
  match stk with
  | FObj m _ :: stk' => Some (MColon, FObj m k :: stk')
  | _ => None
  end.

Definition step (md : mode) (stk : list frame) (t : token) : option (mode * list frame) :=
  match md with
  | MValue => start_value t stk
  | MFirstElem =>
      match t with
      | TRBrack => close_array stk
      | _ => start_value t stk
      end
  | MFirstKey =>
      match t with
      | TRBrace => close_object stk
      | TString k => set_key k stk
      | _ => None
      end
  | MKey =>
      match t with
      | TString k => set_key k stk
      | _ => None
      end
  | MColon =>
      match t with
      | TColon => Some (MValue, stk)
      | _ => None
      end
  | MAfter =>
      match t, stk with
      | TComma, FArr _ :: _ => Some (MValue, stk)
      | TComma, FObj _ _ :: _ => Some (MKey, stk)
      | TRBrack, _ => close_array stk
      | TRBrace, _ => close_object stk
      | _, _ => None
      end
  | MDone _ => None
  end.

Fixpoint run (md : mode) (stk : list frame) (toks : list token) : option json :=
  match toks with
  | [] => match md with MDone v => Some v | _ => None end
  | t :: toks' =>
      match step md stk t with
      | Some (md', stk') => run md' stk' toks'
      | None => None
      end
  end.

(** [JSON.parse(s)] without a reviver: the value, or a [SyntaxError]. *)
Definition JSON_parse (s : str) : result json :=
  match lex_from O s with
  | Some toks =>
      match run MValue [] toks with
      | Some v => Ok v
      | None => Throw JsSyntaxError
      end
  | None => Throw JsSyntaxError
  end.

End Json.


(* ================================================================== *)
(** ** Effects: what a run does, in order *)

Module Effects.
Import JS Json.

(** The steps of a run that the outside can observe. *)
Inductive event :=
| Rasterize (pdf : bool)            (* the document is drawn and encoded *)
| Post (url : str)                  (* the browser calls the proxy *)
| ProviderCall (url : str)          (* the proxy calls a provider *)
| Log (parts : list str).           (* console.log / warn / error *)

(** A computation appends to the trace and returns or throws. *)
Definition M (A : Type) : Type := list event -> result A * list event.

Definition ret {A} (a : A) : M A := fun tr => (Ok a, tr).
Definition throw {A} (e : exn) : M A := fun tr => (Throw e, tr).
Definition emit (ev : event) : M unit := fun tr => (Ok tt, tr ++ [ev]).
Definition lift {A} (r : result A) : M A := fun tr => (r, tr).

Definition mbind {A B} (m : M A) (k : A -> M B) : M B :=
  fun tr =>
    match m tr with
    | (Ok a, tr') => k a tr'
    | (Throw e, tr') => (Throw e, tr')
    end.

(** [try { m } catch (e) { h e }] *)
Definition try_catch {A} (m : M A) (h : exn -> M A) : M A :=
  fun tr =>
    match m tr with
    | (Ok a, tr') => (Ok a, tr')
    | (Throw e, tr') => h e tr'
    end.

Definition run_M {A} (m : M A) : result A * list event := m [].

(** What a run returns or throws, and the provider calls it makes. *)
Definition outcome {A} (m : M A) : result A := fst (run_M m).

Definition provider_calls (tr : list event) : list str :=
  flat_map (fun ev => match ev with ProviderCall u => [u] | _ => [] end) tr.

Declare Scope js_scope.
Delimit Scope js_scope with js.
Notation "x <- m ;; k" := (mbind m (fun x => k))
  (at level 61, m at next level, right associativity) : js_scope.
Notation "m ;;; k" := (mbind m (fun _ => k))
  (at level 61, right associativity) : js_scope.

(** What the JavaScript engine decides and the model leaves open. *)
Record engine := {
  JSON_stringify : json -> str;
  ToString : json -> str;        (* of a value that is not a string *)
  engine_message : exn -> str    (* of an error the engine makes itself *)
}.

(** [String(v)], as a template literal or [new Error(v)] applies it *)
Definition to_str (E : engine) (v : json) : str :=
  match v with
  | JStr s => s
  | _ => ToString E v
  end.

(** [e.message] *)
Definition message (E : engine) (e : exn) : str :=
  match e with
  | JsError m => m
  | _ => engine_message E e
  end.

(** A non-negative integer in decimal, as a template literal prints a
    number of that size. *)
Definition decimal (n : N) : str :=
  lit (NilZero.string_of_uint (N.to_uint n)).

(** The body of a request to the proxy.  The browser side sends three
    strings; a member that is absent is [None]. *)
Record req_body := {
  body_imageBase64 : option str;
  body_mediaType : option str;
  body_prompt : option str
}.

(** [!v] for a member of the body *)
Definition missing (v : option str) : bool :=
  match v with
  | Some (_ :: _) => false
  | _ => true
  end.

(** An HTTP response as [fetch] resolves it. *)
Record http_response := { status : N; text : str }.

(** [res.ok] *)
Definition ok (r : http_response) : bool :=
  N.leb 200 (status r) && N.leb (status r) 299.

End Effects.

(* ================================================================== *)
(** ** The browser side (App.jsx) *)

Module App.
Import JS Json Effects.
Local Open Scope js_scope.

Definition FIELDS : list str :=
  map lit
    ["invoiceNo"; "invoiceDate"; "dueDate"; "paymentTerms"; "vendorName";
     "vendorAddress"; "billToName"; "billToAddress"; "amount"; "currency";
     "taxAmount"; "poNumber"; "description"; "bankDetails"]%string.

(* ------------------------------------------------------------------ *)
(** *** Image helpers *)

(** A file as the browser hands it over: its declared type, the empty
    string when the browser knows none, and its name. *)
Record file := { type : str; name : str }.

Definition normalizeMime (f : file) : str :=
  let t := toLowerCase (type f) in
  let ext := toLowerCase (after_last ch_dot (name f)) in
  if str_eqb t (lit "application/pdf") || str_eqb ext (lit "pdf")
  then lit "application/pdf"
  else if str_eqb t (lit "image/jpeg") || str_eqb t (lit "image/jpg")
  then lit "image/jpeg"
  else if str_eqb t (lit "image/png") then lit "image/png"
  else if str_eqb t (lit "image/webp") then lit "image/webp"
  else if str_eqb t (lit "image/gif") then lit "image/gif"
  else lit "image/jpeg".

(** [Math.round] *)
Definition js_round (x : Q) : Z := Qfloor (x + (1 # 2))%Q.

(** The size [smartResize] gives its output canvas: [nw] and [nh] of the
    source, for a canvas of [w] by [h] pixels, both positive.  The
    arithmetic is exact here where the engine rounds to binary64. *)
Definition smartResize_dims (w h maxLong minWidth : Z) : Z * Z :=
  let portrait := (h >? w)%Z in
  let scale :=
    if portrait then
      let scale := Qmin (inject_Z maxLong / inject_Z h) 1%Q in
      if Qlt_le_dec (inject_Z w * scale)%Q (inject_Z minWidth)
      then (inject_Z minWidth / inject_Z w)%Q
      else scale
    else Qmin (inject_Z maxLong / inject_Z w) 1%Q in
  (js_round (inject_Z w * scale)%Q, js_round (inject_Z h * scale)%Q).

(** [b64.length * 0.75 > 700 * 1024] *)
Definition over_budget (b64 : str) : bool :=
  (3 * Z.of_nat (length b64) >? 4 * (700 * 1024))%Z.

Record raster := { base64 : str; mediaType : str }.

Section Browser.

(** What a canvas holds. *)
Variable pixels : Type.

Record canvas := { width : Z; height : Z; image : pixels }.

(** [c2.toDataURL("image/jpeg", quality).split(",")[1]] for the canvas
    [c2] of [nw] by [nh] pixels on which the source was drawn over white:
    the base64 payload of the data URL. *)
Variable toDataURL_jpeg : canvas -> Z -> Z -> Q -> str.

(** Reading and decoding an image file onto a white canvas of its native
    size; it fails when the file cannot be read or decoded. *)
Variable read_image : file -> result canvas.

(** Loading the PDF engine and rendering page 1 at scale 2.0 onto a white
    canvas. *)
Variable render_pdf : file -> result canvas.

Definition smartResize (c : canvas) (maxLong minWidth : Z) (quality : Q) : str :=
  let (nw, nh) := smartResize_dims (width c) (height c) maxLong minWidth in
  toDataURL_jpeg c nw nh quality.

Definition compressImage (f : file) : result raster :=
  bind (read_image f) (fun src =>
    let b64 := smartResize src 2000 900 (82 # 100)%Q in
    let b64 := if over_budget b64 then smartResize src 2000 900 (65 # 100)%Q else b64 in
    let b64 := if over_budget b64 then smartResize src 1600 800 (60 # 100)%Q else b64 in
    Ok {| base64 := b64; mediaType := lit "image/jpeg" |}).

Definition pdfToImageBase64 (f : file) : result raster :=
  bind (render_pdf f) (fun cv =>
    let b64 := smartResize cv 2000 900 (85 # 100)%Q in
    let b64 := if over_budget b64 then smartResize cv 2000 900 (70 # 100)%Q else b64 in
    let b64 := if over_budget b64 then smartResize cv 1600 800 (60 # 100)%Q else b64 in
    Ok {| base64 := b64; mediaType := lit "image/jpeg" |}).

(** The rasterizer of the pipeline, as [extractInvoice] selects it. *)
Definition rasterize (f : file) : result raster :=
  if str_eqb (normalizeMime f) (lit "application/pdf")
  then pdfToImageBase64 f
  else compressImage f.

End Browser.

(* ------------------------------------------------------------------ *)
(** *** JSON extraction *)

(** [/```json\s*/gi] *)
Definition re_fence_json : regex :=
  {| items := [One (is_c ch_btick); One (is_c ch_btick); One (is_c ch_btick);
               One (is_ci 106%N); One (is_ci 115%N); One (is_ci 111%N); One (is_ci 110%N);
               Many is_space];
     at_end := false |}.

(** [/```\s*/g] *)
Definition re_fence : regex :=
  {| items := [One (is_c ch_btick); One (is_c ch_btick); One (is_c ch_btick);
               Many is_space];
     at_end := false |}.

(** One of the two fence patterns. *)
Definition is_fence_pattern (re : regex) : Prop :=
  re = re_fence_json \/ re = re_fence.

(** [/,\s*Q[^Q]*Q?\s*:?\s*[^,}\]]*$/], where [Q] is the double quote *)
Definition re_tail : regex :=
  {| items := [One (is_c ch_comma); Many is_space; One (is_c ch_quote);
               Many (not_in [ch_quote]); Opt (is_c ch_quote); Many is_space;
               Opt (is_c ch_colon); Many is_space;
               Many (not_in [ch_comma; ch_rbrace; ch_rbrack])];
     at_end := true |}.

(** The loop that looks for the brace closing the first one: [s] is the
    text from index [i] on, the result the index of the closing brace. *)
Fixpoint find_close (depth : Z) (i : nat) (s : str) : option nat :=
  match s with
  | [] => None
  | c :: t =>
      if N.eqb c ch_lbrace then find_close (depth + 1) (S i) t
      else if N.eqb c ch_rbrace then
        if (depth - 1 =? 0)%Z then Some i
        else find_close (depth - 1) (S i) t
      else find_close depth (S i) t
  end.

(** The repair of a text whose first brace is never closed: the body of
    [if (end === -1)]. *)
Definition repair (s : str) : str :=
  let opens := (count_char ch_lbrack s - count_char ch_rbrack s)%Z in
  let objs := (count_char ch_lbrace s - count_char ch_rbrace s)%Z in
  let s := replace_first re_tail s in
  s ++ repeat ch_rbrack (Z.to_nat (Z.max 0 opens))
    ++ repeat ch_rbrace (Z.to_nat (Z.max 0 objs)).

Definition extractJSON (raw : str) : result json :=
  let text := trim (replace_all re_fence (replace_all re_fence_json raw)) in
  match index_of ch_lbrace text with
  | None =>
      Throw (JsError (lit "No JSON object in response:" ++ [ch_nl] ++ slice 0 300 text))
  | Some start =>
      match find_close 0 start (skipn start text) with
      | Some end_ => JSON_parse (slice start (end_ + 1) text)
      | None => JSON_parse (repair (skipn start text))
      end
  end.

(* ------------------------------------------------------------------ *)
(** *** Field coercion and the call through the proxy *)

Record invoice := { form : list (str * json); lineItems : list json }.

(** [Object.fromEntries] *)
Definition fromEntries (es : list (str * json)) : list (str * json) :=
  fold_left (fun m kv => obj_set (fst kv) (snd kv) m) es [].

(** [v || empty] for a value that may be [undefined]: the value when it
    is truthy, the empty string otherwise *)
Definition or_empty (v : option json) : json :=
  match v with
  | Some x => if truthy x then x else JStr []
  | None => JStr []
  end.

(** [v.k] where [v] may be [null], on which reading a member throws *)
Definition member (k : str) (v : json) : result (option json) :=
  match v with
  | JNull => Throw JsTypeError
  | _ => Ok (get k v)
  end.

Fixpoint map_result {A B} (f : A -> result B) (l : list A) : result (list B) :=
  match l with
  | [] => Ok []
  | a :: l' => bind (f a) (fun b => bind (map_result f l') (fun bs => Ok (b :: bs)))
  end.

(** The last two statements of the success path of [extractInvoice]: the
    coercion of the parsed value to the form and its line items. *)
Definition coerce (parsed : json) : result invoice :=
  bind (map_result (fun key =>
          bind (member key parsed) (fun v => Ok (key, or_empty v))) FIELDS)
    (fun entries =>
  bind (member (lit "lineItems") parsed) (fun li =>
    Ok {| form := fromEntries entries;
          lineItems := match li with
                       | Some (JArr l) => l
                       | _ => []
                       end |})).

Section Client.

Variable E : engine.
Variable pixels : Type.
Variable toDataURL_jpeg : canvas pixels -> Z -> Z -> Q -> str.
Variable read_image : file -> result (canvas pixels).
Variable render_pdf : file -> result (canvas pixels).

(** The text of the instruction sent with every image. *)
Variable EXTRACTION_PROMPT : str.

(** [fetch] on the proxy's URL with the body given. *)
Variable fetch : str -> req_body -> M http_response.

(** [c => c.text || empty] *)
Definition segment_text (c : json) : result json :=
  bind (member (lit "text") c) (fun t => Ok (or_empty t)).

(** [data.content.map(c => c.text || empty).join(empty)] *)
Definition content_text (content : option json) : result str :=
  match content with
  | Some (JArr l) =>
      bind (map_result segment_text l) (fun ts => Ok (concat (map (to_str E) ts)))
  | _ => Throw JsTypeError
  end.

(** [new Error(a || b || fallback).message] *)
Definition first_text (a b : option json) (fallback : str) : str :=
  match pick a with
  | Some v => to_str E v
  | None => match pick b with
            | Some v => to_str E v
            | None => fallback
            end
  end.

(** The error a response that is not [ok] is turned into. *)
Definition server_error (res : http_response) : exn :=
  let rawText := text res in
  let sliced :=
    JsError (lit "Server error " ++ decimal (status res) ++ lit ": "
               ++ slice 0 200 rawText) in
  let pe :=
    match bind (JSON_parse rawText) (fun e =>
            bind (member (lit "error") e) (fun err =>
              Ok (first_text err (get (lit "message") e)
                    (lit "Server error " ++ decimal (status res))))) with
    | Ok m => JsError m
    | Throw x => x
    end in
  match message E pe with
  | (_ :: _) as m => if negb (starts_with (lit "Unexpected") m) then pe else sliced
  | [] => sliced
  end.

(** The statements of the [try] block after the response has been read. *)
Definition read_response (res : http_response) : result invoice :=
  let rawText := text res in
  if negb (ok res) then Throw (server_error res)
  else
    bind (JSON_parse rawText) (fun data =>
    bind (member (lit "error") data) (fun err =>
      match pick err with
      | Some ev =>
          Throw (JsError (first_text (get (lit "message") ev) None
                            (JSON_stringify E ev)))
      | None =>
          bind (member (lit "content") data) (fun content =>
            if negb (truthy_opt (get_opt (lit "length") content))
            then Throw (JsError (lit "Empty response from API"))
            else
              bind (content_text content) (fun raw =>
              bind (extractJSON raw) coerce))
      end)).

Definition extractInvoice (f : file) : M invoice :=
  let mime := normalizeMime f in
  let isPdf := str_eqb mime (lit "application/pdf") in
  emit (Rasterize isPdf) ;;;
  r <- lift (if isPdf
             then pdfToImageBase64 pixels toDataURL_jpeg render_pdf f
             else compressImage pixels toDataURL_jpeg read_image f) ;;
  emit (Post (lit "/api/extract")) ;;;
  (* a failing [fetch] leaves [rawText] empty, so the [catch] rethrows *)
  res <- fetch (lit "/api/extract")
           {| body_imageBase64 := Some (base64 r);
              body_mediaType := Some (mediaType r);
              body_prompt := Some EXTRACTION_PROMPT |} ;;
  let rawText := text res in
  try_catch (lift (read_response res)) (fun err =>
    match rawText with
    | _ :: _ =>
        if negb (includes (slice 0 20 rawText) (message E err))
        then throw (JsError (message E err ++ [ch_nl; ch_nl] ++ lit "Raw: "
                               ++ slice 0 200 rawText))
        else throw err
    | [] => throw err
    end).

End Client.

End App.

(* ================================================================== *)
(** ** The serverless runtime the proxy runs in *)

Module Vercel.
Import JS Json Effects.

(** [process.env]: a variable that is not set is [None]. *)
Record env := { ANTHROPIC_API_KEY : option str; GEMINI_API_KEY : option str }.

Record request := { method : str; body : option req_body }.

(** [res.status(code).json(value)] *)
Record response := { code : N; value : json }.

(** An outgoing [fetch]. *)
Record provider_request := {
  url : str;
  headers : list (str * str);
  payload : json                 (* the value [JSON.stringify] is given *)
}.

(** The value of a key in a template literal or a header. *)
Definition key_text (k : option str) : str :=
  match k with
  | Some s => s
  | None => lit "undefined"
  end.

(** [{ error: msg }] *)
Definition error_body (msg : str) : json := JObj [(lit "error", JStr msg)].

(** [Math.round(imageBase64.length * 0.75 / 1024)]; the product and the
    quotient are exact in binary64 for every length a string can have. *)
Definition approxKB (imageBase64 : str) : N :=
  ((3 * N.of_nat (length imageBase64) + 2048) / 4096)%N.

Definition num (n : N) : json := JNum {| neg := false; mant := n; exp10 := 0 |}.

(** The image and the prompt as Anthropic's messages API takes them. *)
Definition anthropic_payload (model imageBase64 mediaType prompt : str) : json :=
  JObj
    [(lit "model", JStr model);
     (lit "max_tokens", num 4000);
     (lit "messages",
      JArr [JObj
        [(lit "role", JStr (lit "user"));
         (lit "content",
          JArr [JObj [(lit "type", JStr (lit "image"));
                      (lit "source",
                       JObj [(lit "type", JStr (lit "base64"));
                             (lit "media_type", JStr mediaType);
                             (lit "data", JStr imageBase64)])];
                JObj [(lit "type", JStr (lit "text"));
                      (lit "text", JStr prompt)]])]])].

Definition anthropic_request (model apiKey imageBase64 mediaType prompt : str)
  : provider_request :=
  {| url := lit "https://api.anthropic.com/v1/messages";
     headers := [(lit "Content-Type", lit "application/json");
                 (lit "x-api-key", apiKey);
                 (lit "anthropic-version", lit "2023-06-01")];
     payload := anthropic_payload model imageBase64 mediaType prompt |}.

(** The same for Gemini's [generateContent]. *)
Definition gemini_payload (imageBase64 mediaType prompt : str) : json :=
  JObj
    [(lit "contents",
      JArr [JObj
        [(lit "parts",
          JArr [JObj [(lit "inline_data",
                       JObj [(lit "mime_type", JStr mediaType);
                             (lit "data", JStr imageBase64)])];
                JObj [(lit "text", JStr prompt)]])]]);
     (lit "generationConfig",
      JObj [(lit "temperature", JNum {| neg := false; mant := 1; exp10 := -1 |});
            (lit "maxOutputTokens", num 4000)])].

Definition gemini_request (model apiKey imageBase64 mediaType prompt : str)
  : provider_request :=
  {| url := lit "https://generativelanguage.googleapis.com/v1beta/models/"
              ++ model ++ lit ":generateContent?key=" ++ apiKey;
     headers := [(lit "Content-Type", lit "application/json")];
     payload := gemini_payload imageBase64 mediaType prompt |}.

(** [{ provider, content }] *)
Definition provider_result (provider : str) (content : json) : json :=
  JObj [(lit "provider", JStr provider); (lit "content", content)].

(** [[{ type: "text", text }]] *)
Definition text_content (t : json) : json :=
  JArr [JObj [(lit "type", JStr (lit "text")); (lit "text", t)]].

Section Calls.

Variable E : engine.

(** The network: what a provider answers to a request, or the error
    [fetch] rejects with. *)
Variable fetch : provider_request -> result http_response.

(** [data?.error?.message || JSON.stringify(data)] *)
Definition error_message_of (data : json) : str :=
  match pick (get_opt (lit "message") (get_opt (lit "error") (Some data))) with
  | Some m => to_str E m
  | None => JSON_stringify E data
  end.

(** [data.error.message || JSON.stringify(data.error)], [data.error]
    being truthy *)
Definition error_detail (err : json) : str :=
  match pick (get (lit "message") err) with
  | Some m => to_str E m
  | None => JSON_stringify E err
  end.

(** [data?.candidates?.[0]] *)
Definition first_candidate (data : json) : option json :=
  first_opt (get_opt (lit "candidates") (Some data)).

(** [data?.candidates?.[0]?.content?.parts?.[0]?.text] *)
Definition gemini_text (data : json) : option json :=
  get_opt (lit "text")
    (first_opt (get_opt (lit "parts")
      (get_opt (lit "content") (first_candidate data)))).

(** [data?.candidates?.[0]?.finishReason || "unknown"] *)
Definition gemini_reason (data : json) : str :=
  match pick (get_opt (lit "finishReason") (first_candidate data)) with
  | Some r => to_str E r
  | None => lit "unknown"
  end.

(** The part of [callGemini] the two versions of the proxy share: the
    model name and the prefix of the message for a status that is not
    [ok] differ. *)
Definition callGemini_with (model http_prefix : str)
    (apiKey imageBase64 mediaType prompt : str) : M json :=
  (emit (ProviderCall (url (gemini_request model apiKey imageBase64 mediaType prompt))) ;;;
   res <- lift (fetch (gemini_request model apiKey imageBase64 mediaType prompt)) ;;
   data <- lift (JSON_parse (text res)) ;;
   if negb (ok res) then
     throw (JsError (http_prefix ++ decimal (status res) ++ lit ": "
                       ++ error_message_of data))
   else
     match pick (gemini_text data) with
     | None =>
         throw (JsError (lit "Gemini returned empty content (finishReason: "
                           ++ gemini_reason data ++ lit ")"))
     | Some t =>
         (* Normalise to the Anthropic-style shape *)
         ret (provider_result (lit "gemini") (text_content t))
     end)%js.

End Calls.

End Vercel.

(* ================================================================== *)
(** ** The proxy, src/extract.js *)

Module Extract.
Import JS Json Effects Vercel.
Local Open Scope js_scope.

Section Proxy.

Variable E : engine.
Variable fetch : provider_request -> result http_response.

Definition callAnthropic (apiKey imageBase64 mediaType prompt : str) : M json :=
  let rq := anthropic_request (lit "claude-sonnet-4-20250514")
              apiKey imageBase64 mediaType prompt in
  emit (ProviderCall (url rq)) ;;;
  res <- lift (fetch rq) ;;
  data <- lift (JSON_parse (text res)) ;;
  if negb (ok res) then
    throw (JsError (lit "Anthropic " ++ decimal (status res) ++ lit ": "
                      ++ error_message_of E data))
  else
    content <- lift (App.member (lit "content") data) ;;
    match content with
    | Some c =>
        if truthy_opt (get (lit "length") c)
        then ret (provider_result (lit "anthropic") c)
        else throw (JsError (lit "Anthropic returned empty content"))
    | None => throw (JsError (lit "Anthropic returned empty content"))
    end.

Definition callGemini : str -> str -> str -> str -> M json :=
  callGemini_with E fetch (lit "gemini-1.5-flash") (lit "Gemini ").

Definition no_key_message : str :=
  lit "No API key configured. Add ANTHROPIC_API_KEY or GEMINI_API_KEY in Vercel "
    ++ [8594%N] ++ lit " Settings " ++ [8594%N] ++ lit " Environment Variables.".

Definition handler (ev : env) (req : request) : M response :=
  if negb (str_eqb (method req) (lit "POST")) then
    ret {| code := 405; value := error_body (lit "Method not allowed") |}
  else
    let anthropicKey := ANTHROPIC_API_KEY ev in
    let geminiKey := GEMINI_API_KEY ev in
    if missing anthropicKey && missing geminiKey then
      ret {| code := 500; value := error_body no_key_message |}
    else
      let b := match body req with
               | Some b => b
               | None => {| body_imageBase64 := None; body_mediaType := None;
                            body_prompt := None |}
               end in
      if missing (body_imageBase64 b) || missing (body_mediaType b)
         || missing (body_prompt b) then
        ret {| code := 400;
               value := error_body (lit "Missing fields: imageBase64, mediaType, prompt") |}
      else
        let imageBase64 := key_text (body_imageBase64 b) in
        let mediaType := key_text (body_mediaType b) in
        let prompt := key_text (body_prompt b) in
        (* ~5MB decoded size guard *)
        if (5120 <? approxKB imageBase64)%N then
          ret {| code := 413;
                 value := error_body (lit "Image too large ("
                            ++ decimal (approxKB imageBase64) ++ lit "KB). Max ~5MB.") |}
        else
          let useAnthropic := negb (missing anthropicKey) in
          emit (Log [lit "[extract] provider="
                       ++ (if useAnthropic then lit "anthropic" else lit "gemini")
                       ++ lit " size=" ++ decimal (approxKB imageBase64) ++ lit "KB"]) ;;;
          try_catch
            (result <- (if useAnthropic
                        then callAnthropic (key_text anthropicKey) imageBase64 mediaType prompt
                        else callGemini (key_text geminiKey) imageBase64 mediaType prompt) ;;
             ret {| code := 200; value := result |})
            (fun primaryErr =>
               emit (Log [lit "[extract] primary error:"; message E primaryErr]) ;;;
               (* If Anthropic failed and Gemini key exists: auto-fallback *)
               if useAnthropic && negb (missing geminiKey) then
                 emit (Log [lit "[extract] Anthropic failed " ++ [8212%N]
                              ++ lit " trying Gemini fallback"]) ;;;
                 try_catch
                   (fallback <- callGemini (key_text geminiKey) imageBase64 mediaType prompt ;;
                    ret {| code := 200;
                           value := match fallback with
                                    | JObj m => JObj (obj_set (lit "usedFallback") (JBool true) m)
                                    | other => other
                                    end |})
                   (fun fallbackErr =>
                      emit (Log [lit "[extract] Gemini fallback failed:";
                                 message E fallbackErr]) ;;;
                      ret {| code := 502;
                             value := error_body
                               (lit "Both providers failed." ++ [ch_nl]
                                  ++ lit "Anthropic: " ++ message E primaryErr ++ [ch_nl]
                                  ++ lit "Gemini: " ++ message E fallbackErr) |})
               else
                 ret {| code := 502; value := error_body (message E primaryErr) |}).

End Proxy.

End Extract.

(* ================================================================== *)
(** ** The proxy, src/api/extract.js (the version with both providers) *)

Module ApiExtract.
Import JS Json Effects Vercel.
Local Open Scope js_scope.

Section Proxy.

Variable E : engine.
Variable fetch : provider_request -> result http_response.

(** [${v}] for a value that may be [undefined] *)
Definition show (v : option json) : str :=
  match v with
  | Some x => to_str E x
  | None => lit "undefined"
  end.

Definition is_error_stop (v : option json) : bool :=
  match v with
  | Some (JStr s) => str_eqb s (lit "error")
  | _ => false
  end.

Definition callAnthropic (apiKey imageBase64 mediaType prompt : str) : M json :=
  let rq := anthropic_request (lit "claude-haiku-4-5-20251001")
              apiKey imageBase64 mediaType prompt in
  emit (ProviderCall (url rq)) ;;;
  res <- lift (fetch rq) ;;
  data <- lift (JSON_parse (text res)) ;;
  (* Non-2xx HTTP error *)
  if negb (ok res) then
    throw (JsError (lit "Anthropic HTTP " ++ decimal (status res) ++ lit ": "
                      ++ error_message_of E data))
  else
    err <- lift (App.member (lit "error") data) ;;
    match pick err with
    | Some e =>
        (* a 200 with an error body *)
        throw (JsError (lit "Anthropic API error: " ++ error_detail E e))
    | None =>
        let stop_reason := get (lit "stop_reason") data in
        let content := get (lit "content") data in
        if is_error_stop stop_reason
           || negb (truthy_opt (get_opt (lit "length") content))
        then throw (JsError (lit "Anthropic returned no content (stop_reason: "
                               ++ show stop_reason ++ lit ")"))
        else
          match content with
          | Some c => ret (provider_result (lit "anthropic") c)
          | None => throw JsTypeError
          end
    end.

Definition callGemini : str -> str -> str -> str -> M json :=
  callGemini_with E fetch (lit "gemini-3-flash-preview") (lit "Gemini HTTP ").

(** The first block of the handler: [Some] is a response it returned,
    [None] is control reaching the Gemini block. *)
Definition try_anthropic (anthropicKey geminiKey : option str)
    (imageBase64 mediaType prompt : str) : M (option response) :=
  if negb (missing anthropicKey) then
    try_catch
      (emit (Log [lit "[extract] trying Anthropic, size="
                    ++ decimal (approxKB imageBase64) ++ lit "KB"]) ;;;
       result <- callAnthropic (key_text anthropicKey) imageBase64 mediaType prompt ;;
       emit (Log [lit "[extract] Anthropic succeeded"]) ;;;
       ret (Some {| code := 200; value := result |}))
      (fun anthropicErr =>
         emit (Log [lit "[extract] Anthropic failed: " ++ message E anthropicErr]) ;;;
         (* If no Gemini key to fall back to, return the Anthropic error *)
         if missing geminiKey then
           ret (Some {| code := 502;
                        value := error_body (lit "Anthropic failed: "
                                               ++ message E anthropicErr) |})
         else
           emit (Log [lit "[extract] Falling back to Gemini..."]) ;;;
           ret None)
  else ret None.

Definition handler (ev : env) (req : request) : M response :=
  if negb (str_eqb (method req) (lit "POST")) then
    ret {| code := 405; value := error_body (lit "Method not allowed") |}
  else
    let anthropicKey := ANTHROPIC_API_KEY ev in
    let geminiKey := GEMINI_API_KEY ev in
    if missing anthropicKey && missing geminiKey then
      ret {| code := 500; value := error_body Extract.no_key_message |}
    else
      let b := match body req with
               | Some b => b
               | None => {| body_imageBase64 := None; body_mediaType := None;
                            body_prompt := None |}
               end in
      if missing (body_imageBase64 b) || missing (body_mediaType b)
         || missing (body_prompt b) then
        ret {| code := 400;
               value := error_body (lit "Missing fields: imageBase64, mediaType, prompt") |}
      else
        let imageBase64 := key_text (body_imageBase64 b) in
        let mediaType := key_text (body_mediaType b) in
        let prompt := key_text (body_prompt b) in
        if (5120 <? approxKB imageBase64)%N then
          ret {| code := 413;
                 value := error_body (lit "Image too large ("
                            ++ decimal (approxKB imageBase64) ++ lit "KB). Max ~5MB.") |}
        else
          (* Try Anthropic first if key is available *)
          first <- try_anthropic anthropicKey geminiKey imageBase64 mediaType prompt ;;
          match first with
          | Some r => ret r
          | None =>
              (* Gemini (primary if no Anthropic key, or fallback) *)
              try_catch
                (emit (Log [lit "[extract] trying Gemini, size="
                              ++ decimal (approxKB imageBase64) ++ lit "KB"]) ;;;
                 result <- callGemini (key_text geminiKey) imageBase64 mediaType prompt ;;
                 emit (Log [lit "[extract] Gemini succeeded"]) ;;;
                 ret {| code := 200; value := result |})
                (fun geminiErr =>
                   emit (Log [lit "[extract] Gemini failed: " ++ message E geminiErr]) ;;;
                   ret {| code := 502;
                          value := error_body (lit "Gemini failed: "
                                                 ++ message E geminiErr) |})
          end.

End Proxy.

End ApiExtract.

(* ================================================================== *)
(** ** The pipeline as deployed: the browser side calling the proxy *)

Module Pipeline.
Import JS Json Effects Vercel.
Local Open Scope js_scope.

Section Deployed.

Variable E : engine.
Variable pixels : Type.
Variable toDataURL_jpeg : App.canvas pixels -> Z -> Z -> Q -> str.
Variable read_image : App.file -> result (App.canvas pixels).
Variable render_pdf : App.file -> result (App.canvas pixels).
Variable EXTRACTION_PROMPT : str.

(** Either version of the proxy, with its environment and network. *)
Variable handler : request -> M response.

(** [fetch] of the browser side: the proxy runs on the posted body and its
    answer comes back as text. *)
Definition proxy_fetch (_ : str) (b : req_body) : M http_response :=
  r <- handler {| method := lit "POST"; body := Some b |} ;;
  ret {| status := code r; text := JSON_stringify E (value r) |}.

Definition extract (f : App.file) : M App.invoice :=
  App.extractInvoice E pixels toDataURL_jpeg read_image render_pdf
    EXTRACTION_PROMPT proxy_fetch f.

End Deployed.

End Pipeline.

(* ================================================================== *)
(** ** An engine to run examples with

    Integers print as their digits, which is what the engine prints for
    the integers that occur in the examples; the printing of fractions is
    not the engine's. *)

Module Sample.
Import JS Json Effects.

Definition show_number (n : number) : str :=
  if N.eqb (mant n) 0 then lit "0"
  else
    (if neg n then lit "-" else [])
      ++ (if (0 <=? exp10 n)%Z
          then decimal (mant n * 10 ^ Z.to_N (exp10 n))
          else decimal (mant n) ++ lit "e-" ++ decimal (Z.abs_N (exp10 n))).

Definition hex_digit (n : N) : char :=
  if (n <? 10)%N then (48 + n)%N else (87 + n)%N.

Definition escape_char (c : char) : str :=
  if N.eqb c ch_quote then [ch_bslash; ch_quote]
  else if N.eqb c ch_bslash then [ch_bslash; ch_bslash]
  else if N.eqb c 10 then [ch_bslash; 110%N]
  else if N.eqb c 13 then [ch_bslash; 114%N]
  else if N.eqb c 9 then [ch_bslash; 116%N]
  else if N.eqb c 8 then [ch_bslash; 98%N]
  else if N.eqb c 12 then [ch_bslash; 102%N]
  else if N.ltb c 32 then
    [ch_bslash; 117%N; 48%N; 48%N; hex_digit (c / 16); hex_digit (c mod 16)]
  else [c].

Definition quote (s : str) : str :=
  [ch_quote] ++ concat (map escape_char s) ++ [ch_quote].

Fixpoint join (sep : str) (l : list str) : str :=
  match l with
  | [] => []
  | [x] => x
  | x :: l' => x ++ sep ++ join sep l'
  end.

Fixpoint stringify (v : json) : str :=
  match v with
  | JNull => lit "null"
  | JBool true => lit "true"
  | JBool false => lit "false"
  | JNum n => show_number n
  | JStr s => quote s
  | JArr l => lit "[" ++ join (lit ",") (map stringify l) ++ lit "]"
  | JObj m =>
      lit "{"
        ++ join (lit ",")
             (map (fun kv => quote (fst kv) ++ lit ":" ++ stringify (snd kv)) m)
        ++ lit "}"
  end.

Fixpoint to_string (v : json) : str :=
  match v with
  | JNull => lit "null"
  | JBool true => lit "true"
  | JBool false => lit "false"
  | JNum n => show_number n
  | JStr s => s
  | JArr l =>
      join (lit ",")
        (map (fun x => match x with JNull => [] | _ => to_string x end) l)
  | JObj _ => lit "[object Object]"
  end.

Definition sample_engine : engine :=
  {| JSON_stringify := stringify;
     ToString := to_string;
     engine_message := fun e =>
       match e with
       | JsError m => m
       | JsSyntaxError => lit "Unexpected end of JSON input"
       | JsTypeError => lit "Cannot read properties of null"
       end |}.

End Sample.

(* ================================================================== *)
(** ** Shapes of the texts the statements below are about *)

Module Shapes.
Import JS.

(** The characters that carry the structure of a JSON text. *)
Definition structural : list char :=
  [ch_comma; ch_rbrace; ch_rbrack; ch_lbrace; ch_lbrack].

(** A text cut at the top level of an object: the opening brace, the
    complete members [body], a comma, and the beginning of one more
    member, from its opening quote on. *)
Definition top_level_cut (body ws t : str) : str :=
  ch_lbrace :: body ++ ch_comma :: ws ++ ch_quote :: t.

(** Every comma of [body] that is followed, after white space, by a
    double quote is followed by a second double quote: the quote it meets
    opens a string that is closed within [body].  This holds of the
    commas that separate members or elements; it fails of a comma that is
    the last character of the last string. *)
Definition commas_ok (body : str) : Prop :=
  forall pre post u,
    body = pre ++ ch_comma :: post ->
    drop_space post = ch_quote :: u ->
    In ch_quote u.

(** The items of the tail pattern that follow the opening quote of the
    key. *)
Definition tail_after_key : list item :=
  [Many (not_in [ch_quote]); Opt (is_c ch_quote); Many is_space;
   Opt (is_c ch_colon); Many is_space;
   Many (not_in [ch_comma; ch_rbrace; ch_rbrack])].

(** The stack of the JSON automaton rests on an object under
    construction. *)
Definition rests_on_object (stk : list Json.frame) : Prop :=
  exists above m k, stk = above ++ [Json.FObj m k].

(** The automaton works on an object: its stack rests on one and it is
    not done, or the object is the result. *)
Definition object_state (md : Json.mode) (stk : list Json.frame) : Prop :=
  (rests_on_object stk /\ forall v, md <> Json.MDone v)
  \/ (stk = [] /\ exists m, md = Json.MDone (Json.JObj m)).

End Shapes.

(* ================================================================== *)
(** ** Inputs the statements below are evaluated on *)

Module Inputs.
Import JS Json Effects Vercel.

(** A completion cut off inside a line item. *)
Definition truncated_line_item : str :=
  qlit "{'invoiceNo':'A1','lineItems':[{'description':'x','qty':'1'".

(** The line item as it parses once its closers come in the order of the
    nesting: the brace of the item, the bracket of the array, the brace
    of the object. *)
Definition line_item_closed_in_order : str :=
  qlit "{'invoiceNo':'A1','lineItems':[{'description':'x'}]}".

(** A parsed object with a tax amount of zero and a PO number that is
    [false]. *)
Definition zero_and_false : json :=
  JObj [(lit "taxAmount", num 0); (lit "poNumber", JBool false)].

(** A fenced completion: prose, an opening fence with its language tag
    (which may be empty), the text, the closing fence and more prose. *)
Definition wrap (lead tag j trail : str) : str :=
  lead ++ lit "```" ++ tag ++ [ch_nl] ++ j ++ [ch_nl] ++ lit "```" ++ trail.

Definition invoice_members : str :=
  qlit "'invoiceNo':'INV-9','amount':'42.00','lineItems':[]".

Definition invoice_text : str := ch_lbrace :: invoice_members ++ [ch_rbrace].

(** Three fenced completions the round trip fails on: a brace in the
    leading prose, a brace inside a string of the object, a fence marker
    inside a string of the object. *)
Definition brace_in_prose : str :=
  wrap (lit "Result {draft}:" ++ [ch_nl]) (lit "json") (qlit "{'a':'b'}") [].

Definition brace_in_string : str :=
  wrap [] (lit "json") (qlit "{'a':'}'}") [].

Definition fence_in_string : str :=
  wrap [] (lit "json") (qlit "{'a':'```'}") [].

(** A completion cut inside the value of the second member, and one cut
    inside the value of the first. *)
Definition cut_in_second_member : str :=
  Shapes.top_level_cut (qlit "'invoiceNo':'A1'") [] (qlit "amount':'4").

Definition cut_in_first_member : str := qlit "{'invoiceNo':'A".

Definition png_without_type : App.file :=
  {| App.type := []; App.name := lit "scan.png" |}.

(** The media types of the fixed mapping. *)
Definition mime_set : list str :=
  map lit ["application/pdf"; "image/jpeg"; "image/png"; "image/webp";
           "image/gif"]%string.

Definition both_keys : env :=
  {| ANTHROPIC_API_KEY := Some (lit "sk-ant"); GEMINI_API_KEY := Some (lit "g-key") |}.

Definition gemini_only : env :=
  {| ANTHROPIC_API_KEY := None; GEMINI_API_KEY := Some (lit "g-key") |}.

Definition no_keys : env :=
  {| ANTHROPIC_API_KEY := None; GEMINI_API_KEY := None |}.

Definition small_body : req_body :=
  {| body_imageBase64 := Some (lit "AAAA");
     body_mediaType := Some (lit "image/jpeg");
     body_prompt := Some (lit "Extract the invoice") |}.

Definition post : request := {| method := lit "POST"; body := Some small_body |}.

Definition to_anthropic (r : provider_request) : bool :=
  starts_with (lit "https://api.anthropic.com") (url r).

Definition overloaded : http_response :=
  {| status := 529; text := qlit "{'error':{'message':'Overloaded'}}" |}.

Definition quota : http_response :=
  {| status := 429; text := qlit "{'error':{'message':'Quota'}}" |}.

(** A Gemini answer whose completion comes in two parts. *)
Definition two_parts : http_response :=
  {| status := 200;
     text := qlit "{'candidates':[{'content':{'parts':[{'text':'{\'a\':'},{'text':'1}'}]}}]}" |}.

(** Anthropic is overloaded in both networks; Gemini answers in the first
    and is out of quota in the second. *)
Definition net_fallback (r : provider_request) : result http_response :=
  if to_anthropic r then Ok overloaded else Ok two_parts.

Definition net_down (r : provider_request) : result http_response :=
  if to_anthropic r then Ok overloaded else Ok quota.

(** A browser whose canvas always encodes to the same four characters. *)
Definition encode_const (_ : App.canvas unit) (_ _ : Z) (_ : Q) : str := lit "AAAA".

Definition decode_small (_ : App.file) : result (App.canvas unit) :=
  Ok {| App.width := 100; App.height := 200; App.image := tt |}.

Definition decode_fails (_ : App.file) : result (App.canvas unit) :=
  Throw (JsError (lit "Image failed to load")).

End Inputs.

(* ================================================================== *)
(** ** The proxy, src/api/extract.js (the first version, Anthropic only) *)

Module ApiExtractFirst.
Import JS Json Effects Vercel.
Local Open Scope js_scope.

Section Proxy.

Variable E : engine.
Variable fetch : provider_request -> result http_response.

(** [approxBytes > 5 * 1024 * 1024], [approxBytes] being
    [imageBase64.length * 0.75] *)
Definition too_large (imageBase64 : str) : bool :=
  (4 * (5 * 1024 * 1024) <? 3 * N.of_nat (length imageBase64))%N.

(** This version reads the members off [req.body] itself, so a request
    without a body makes it throw; and it forwards whatever Anthropic
    answers, status and body. *)
Definition handler (ev : env) (req : request) : M response :=
  (* Only allow POST *)
  if negb (str_eqb (method req) (lit "POST")) then
    ret {| code := 405; value := error_body (lit "Method not allowed") |}
  else
    let apiKey := ANTHROPIC_API_KEY ev in
    if missing apiKey then
      ret {| code := 500;
             value := error_body (lit "ANTHROPIC_API_KEY not configured on server") |}
    else
      match body req with
      | None => throw JsTypeError
      | Some b =>
          if missing (body_imageBase64 b) || missing (body_mediaType b)
             || missing (body_prompt b) then
            ret {| code := 400;
                   value := error_body
                     (lit "Missing required fields: imageBase64, mediaType, prompt") |}
          else
            let imageBase64 := key_text (body_imageBase64 b) in
            let mediaType := key_text (body_mediaType b) in
            let prompt := key_text (body_prompt b) in
            if too_large imageBase64 then
              ret {| code := 413;
                     value := error_body
                       (lit "Image too large (" ++ decimal (approxKB imageBase64)
                          ++ lit "KB). Max 5MB. Try a lower resolution image.") |}
            else
              let rq := anthropic_request (lit "claude-sonnet-4-20250514")
                          (key_text apiKey) imageBase64 mediaType prompt in
              try_catch
                (emit (ProviderCall (url rq)) ;;;
                 upstream <- lift (fetch rq) ;;
                 data <- lift (JSON_parse (text upstream)) ;;
                 (* Forward Anthropic's status code so client can detect errors *)
                 ret {| code := status upstream; value := data |})
                (fun err =>
                   emit (Log [lit "Upstream Anthropic error:"; message E err]) ;;;
                   ret {| code := 502;
                          value := error_body (lit "Upstream request failed: "
                                                 ++ message E err) |})
      end.

End Proxy.

End ApiExtractFirst.

(* ================================================================== *)
(** ** The review screen (App.jsx): sheet names, line items, the queue *)

Module Ui.
Import JS Json Effects.

Definition MAX_FILES : nat := 3.

Definition EMPTY_LINE : json :=
  JObj [(lit "description", JStr []); (lit "qty", JStr []);
        (lit "unitPrice", JStr []); (lit "amount", JStr [])].

(** [l.map((x, i) => f(i, x))] and [l.filter((x, i) => f(i, x))] *)
Fixpoint mapi_from {A B} (i : nat) (f : nat -> A -> B) (l : list A) : list B :=
  match l with
  | [] => []
  | x :: l' => f i x :: mapi_from (S i) f l'
  end.

Definition mapi {A B} (f : nat -> A -> B) (l : list A) : list B := mapi_from 0 f l.

Fixpoint filteri_from {A} (i : nat) (f : nat -> A -> bool) (l : list A) : list A :=
  match l with
  | [] => []
  | x :: l' => if f i x then x :: filteri_from (S i) f l' else filteri_from (S i) f l'
  end.

Definition filteri {A} (f : nat -> A -> bool) (l : list A) : list A :=
  filteri_from 0 f l.

(** [l.findIndex((x, i) => f(i, x))]; [None] is [-1]. *)
Fixpoint findIndex_from {A} (i : nat) (f : nat -> A -> bool) (l : list A) : option nat :=
  match l with
  | [] => None
  | x :: l' => if f i x then Some i else findIndex_from (S i) f l'
  end.

Definition findIndex {A} (f : nat -> A -> bool) (l : list A) : option nat :=
  findIndex_from 0 f l.

(* ------------------------------------------------------------------ *)
(** *** Excel export: sheet names *)

(** [/[:\\/?*[\]]/g]: the characters a sheet name may not hold. *)
Definition forbidden_in_sheet : list char :=
  [ch_colon; ch_bslash; 47%N; 63%N; 42%N; ch_lbrack; ch_rbrack].

Definition underscore (c : char) : char :=
  if existsb (N.eqb c) forbidden_in_sheet then 95%N else c.

(** [slugSheet(name, idx)].  A name that is truthy and not a string has
    no [replace] to call. *)
Definition slugSheet (name : json) (idx : nat) : result str :=
  let chosen :=
    if truthy name then name
    else JStr (lit "Invoice_" ++ decimal (N.of_nat (idx + 1))) in
  match chosen with
  | JStr s => Ok (slice 0 28 (map underscore s))
  | _ => Throw JsTypeError
  end.

(* ------------------------------------------------------------------ *)
(** *** The table of line items *)

(** [{ ...r }]: the own members of an object, the elements of an array
    or the characters of a string under their indices, nothing for any
    other value. *)
Definition spread (r : json) : list (str * json) :=
  match r with
  | JObj m => m
  | JArr l => mapi (fun i x => (decimal (N.of_nat i), x)) l
  | JStr s => mapi (fun i c => (decimal (N.of_nat i), JStr [c])) s
  | _ => []
  end.

(** [update], [addRow] and [delRow] of [LineItemsTable], each as the new
    list it hands to [onChange]. *)
Definition update (items : list json) (i : nat) (k v : str) : list json :=
  mapi (fun j r => if Nat.eqb j i then JObj (obj_set k (JStr v) (spread r)) else r)
       items.

Definition addRow (items : list json) : list json := items ++ [EMPTY_LINE].

Definition delRow (items : list json) (i : nat) : list json :=
  filteri (fun j _ => negb (Nat.eqb j i)) items.

(* ------------------------------------------------------------------ *)
(** *** The queue of files and the saved invoices *)

Inductive status := Pending | Extracting | Ready | Error | Saved.

Definition status_eqb (a b : status) : bool :=
  match a, b with
  | Pending, Pending | Extracting, Extracting | Ready, Ready
  | Error, Error | Saved, Saved => true
  | _, _ => false
  end.

Record entry := {
  id : str;
  file : App.file;
  fileName : str;
  fileType : str;
  previewUrl : str;
  entry_status : status;
  errorMsg : option str;
  form : list (str * json);
  lineItems : list json
}.

Record saved_invoice := {
  saved_form : list (str * json);
  saved_lineItems : list json;
  saved_fileName : str
}.

(** The state of [App], as the handlers below see it in the render they
    were made in. *)
Record state := {
  queue : list entry;
  reviewIdx : option nat;
  saved : list saved_invoice;
  editSavedIdx : option nat;
  editSavedData : option saved_invoice
}.

Definition with_status (e : entry) (s : status) : entry :=
  {| id := id e; file := file e; fileName := fileName e; fileType := fileType e;
     previewUrl := previewUrl e; entry_status := s; errorMsg := errorMsg e;
     form := form e; lineItems := lineItems e |}.

Definition with_form (e : entry) (f : list (str * json)) : entry :=
  {| id := id e; file := file e; fileName := fileName e; fileType := fileType e;
     previewUrl := previewUrl e; entry_status := entry_status e;
     errorMsg := errorMsg e; form := f; lineItems := lineItems e |}.

Definition with_lineItems (e : entry) (l : list json) : entry :=
  {| id := id e; file := file e; fileName := fileName e; fileType := fileType e;
     previewUrl := previewUrl e; entry_status := entry_status e;
     errorMsg := errorMsg e; form := form e; lineItems := l |}.

Definition with_queue (st : state) (q : list entry) (r : option nat) : state :=
  {| queue := q; reviewIdx := r; saved := saved st;
     editSavedIdx := editSavedIdx st; editSavedData := editSavedData st |}.

(** [i === reviewIdx] *)
Definition is_reviewed (st : state) (i : nat) : bool :=
  match reviewIdx st with
  | Some r => Nat.eqb i r
  | None => false
  end.

(** [reviewingQueue] *)
Definition reviewingQueue (st : state) : option entry :=
  match editSavedIdx st, reviewIdx st with
  | None, Some r => nth_error (queue st) r
  | _, _ => None
  end.

Definition updateQueueForm (st : state) (k v : str) : state :=
  with_queue st
    (mapi (fun i e => if is_reviewed st i
                      then with_form e (obj_set k (JStr v) (form e)) else e)
          (queue st))
    (reviewIdx st).

Definition updateQueueLines (st : state) (items : list json) : state :=
  with_queue st
    (mapi (fun i e => if is_reviewed st i then with_lineItems e items else e)
          (queue st))
    (reviewIdx st).

Definition saveQueue (st : state) : state :=
  match reviewingQueue st with
  | None => st
  | Some e =>
      {| queue := mapi (fun i x => if is_reviewed st i then with_status x Saved else x)
                       (queue st);
         reviewIdx := findIndex (fun i x => negb (is_reviewed st i)
                                            && negb (status_eqb (entry_status x) Saved))
                                (queue st);
         saved := saved st ++ [{| saved_form := form e;
                                  saved_lineItems := lineItems e;
                                  saved_fileName := fileName e |}];
         editSavedIdx := editSavedIdx st;
         editSavedData := editSavedData st |}
  end.

Definition removeQueue (st : state) (idx : nat) : state :=
  with_queue st
    (filteri (fun i _ => negb (Nat.eqb i idx)) (queue st))
    (match reviewIdx st with
     | Some r => if Nat.eqb r idx then None
                 else if Nat.ltb idx r then Some (r - 1)
                 else Some r
     | None => None
     end).

(** The filter of [addFiles]: a PDF or an image by its declared type, or
    one of the known extensions. *)
Definition allowed (f : App.file) : bool :=
  let t := toLowerCase (App.type f) in
  let ext := toLowerCase (after_last ch_dot (App.name f)) in
  str_eqb t (lit "application/pdf")
  || starts_with (lit "image/") t
  || existsb (str_eqb ext)
       (map lit ["pdf"; "png"; "jpg"; "jpeg"; "webp"; "gif"; "heic"; "heif"]%string).

Inductive selection :=
| QueueFull                          (* the alert that the queue is full *)
| NothingAllowed                     (* the alert asking for a PDF or an image *)
| ToAdd (files : list App.file).

(** The files [addFiles] takes into the queue: [toAdd], or the alert it
    returns on. *)
Definition addFiles_select (currentQueue : list entry) (rawFiles : list App.file)
  : selection :=
  let allowed_files := filter allowed rawFiles in
  if Nat.leb MAX_FILES (length currentQueue) then QueueFull
  else
    match firstn (MAX_FILES - length currentQueue) allowed_files with
    | [] => NothingAllowed
    | toAdd => ToAdd toAdd
    end.

End Ui.

(* ================================================================== *)
(** ** More inputs *)

Module MoreInputs.
Import JS Json Effects Vercel.

Definition anthropic_only : env :=
  {| ANTHROPIC_API_KEY := Some (lit "sk-ant"); GEMINI_API_KEY := None |}.

(** An answer of Anthropic whose completion comes in two segments. *)
Definition two_segments : http_response :=
  {| status := 200;
     text := qlit "{'content':[{'type':'text','text':'{\'invoiceNo\':'},{'type':'text','text':'\'INV-9\'}'}]}" |}.

Definition net_anthropic_ok (r : provider_request) : result http_response :=
  Ok two_segments.

(** A 200 answer that carries an error. *)
Definition error_in_200 : http_response :=
  {| status := 200;
     text := qlit "{'error':{'message':'credit balance too low'},'content':[{'type':'text','text':'x'}]}" |}.

Definition net_error_in_200 (r : provider_request) : result http_response :=
  Ok error_in_200.

Definition net_unreachable (r : provider_request) : result http_response :=
  Throw (JsError (lit "fetch failed")).

(** A queue of three files, the first saved already, the second under
    review. *)
Definition entry_of (name : str) (s : Ui.status) : Ui.entry :=
  {| Ui.id := name;
     Ui.file := {| App.type := lit "image/png"; App.name := name |};
     Ui.fileName := name;
     Ui.fileType := lit "image/png";
     Ui.previewUrl := lit "blob:" ++ name;
     Ui.entry_status := s;
     Ui.errorMsg := None;
     Ui.form := [(lit "invoiceNo", JStr (lit "A1"))];
     Ui.lineItems := [] |}.

Definition reviewing_second : Ui.state :=
  {| Ui.queue := [entry_of (lit "a.png") Ui.Saved; entry_of (lit "b.png") Ui.Ready;
                  entry_of (lit "c.png") Ui.Ready];
     Ui.reviewIdx := Some 1;
     Ui.saved := [];
     Ui.editSavedIdx := None;
     Ui.editSavedData := None |}.

End MoreInputs.

(* ================================================================== *)
(** ** The checks of the two-provider proxies, taken together *)

Module Checks.
Import JS Json Effects Vercel.

(** The request is a POST, a key is configured, the three members are
    there and the image is within the size guard: what both handlers
    check, in this order, before they call a provider. *)
Definition passes_checks (ev : env) (req : request) : bool :=
  str_eqb (method req) (lit "POST")
  && negb (missing (ANTHROPIC_API_KEY ev) && missing (GEMINI_API_KEY ev))
  && match body req with
     | Some b =>
         negb (missing (body_imageBase64 b) || missing (body_mediaType b)
               || missing (body_prompt b))
         && negb (5120 <? approxKB (key_text (body_imageBase64 b)))%N
     | None => false
     end.

(** A member of the body as the handlers pass it on. *)
Definition member_text (get : req_body -> option str) (req : request) : str :=
  match body req with
  | Some b => key_text (get b)
  | None => key_text None
  end.

Definition anthropic_url : str := lit "https://api.anthropic.com/v1/messages".

(** The URL Gemini is called at. *)
Definition gemini_url (model : str) (ev : env) (req : request) : str :=
  url (gemini_request model (key_text (GEMINI_API_KEY ev))
         (member_text body_imageBase64 req) (member_text body_mediaType req)
         (member_text body_prompt req)).

(** The status codes the handlers answer with. *)
Definition answer_codes : list N := [200; 400; 405; 413; 500; 502]%N.

End Checks.

(* ================================================================== *)
(** * Properties *)

Import JS Json Effects Vercel Shapes Inputs.

(** ** Strings *)

Lemma str_eqb_eq (a b : str) : str_eqb a b = true <-> a = b.
Proof.
  revert b; induction a as [|x a IH]; intros [|y b]; simpl; split;
    try congruence; try reflexivity.
  - intros H. apply andb_prop in H as [Hx Hab].
    apply N.eqb_eq in Hx. apply IH in Hab. congruence.
  - intros H. injection H as -> ->.
    rewrite N.eqb_refl. simpl. now apply IH.
Qed.

Lemma str_eqb_refl (a : str) : str_eqb a a = true.
Proof. now apply str_eqb_eq. Qed.

Lemma str_eqb_neq (a b : str) : str_eqb a b = false <-> a <> b.
Proof.
  split.
  - intros H Heq. apply str_eqb_eq in Heq. congruence.
  - intros H. destruct (str_eqb a b) eqn:Hab; [|reflexivity].
    apply str_eqb_eq in Hab. contradiction.
Qed.

(** ** The parser on a truncated completion *)

(** The repair closes every bracket before every brace, whatever the
    order in which they were opened. *)
Lemma repair_truncated_line_item :
  App.repair truncated_line_item
  = qlit "{'invoiceNo':'A1','lineItems':[{'description':'x']}}".
Proof. vm_compute. reflexivity. Qed.

(** Hence, at the text cut off inside a line item that the
    specification names, [JSON.parse] is given a text whose bracket closes
    before the brace opened after it, and [extractJSON] throws a syntax
    error. *)
Lemma extractJSON_truncated_line_item_throws :
  App.find_close 0 0 truncated_line_item = None
  /\ App.extractJSON truncated_line_item = Throw JsSyntaxError.
Proof. split; vm_compute; reflexivity. Qed.

(** C1, the code misses: the completion cut off inside a line item, which
    the claim names, has no balanced close, so the repair runs.  It
    counts one open bracket and two open braces, strips the fragment
    after the last comma and appends the bracket before the braces, where
    the nesting needs the brace of the line item first: the text handed to
    [JSON.parse] closes the array inside the open line item, and
    [extractJSON] throws where the claim has it return the object.  With
    the same closers in the order of the nesting the text parses and
    keeps every field closed before the cut. *)
Theorem extractJSON_fails_on_truncated_line_item :
  App.find_close 0 0 truncated_line_item = None
  /\ (count_char ch_lbrack truncated_line_item
      - count_char ch_rbrack truncated_line_item = 1)%Z
  /\ (count_char ch_lbrace truncated_line_item
      - count_char ch_rbrace truncated_line_item = 2)%Z
  /\ App.repair truncated_line_item
     = qlit "{'invoiceNo':'A1','lineItems':[{'description':'x']}}"
  /\ App.extractJSON truncated_line_item = Throw JsSyntaxError
  /\ JSON_parse line_item_closed_in_order
     = Ok (JObj [(lit "invoiceNo", JStr (lit "A1"));
                 (lit "lineItems",
                  JArr [JObj [(lit "description", JStr (lit "x"))]])]).
Proof. repeat split; vm_compute; reflexivity. Qed.

(** The repair does recover a text cut off inside a flat array. *)
Lemma extractJSON_truncated_flat_array :
  App.extractJSON (qlit "{'invoiceNo':'A1','lineItems':['a','b'")
  = Ok (JObj [(lit "invoiceNo", JStr (lit "A1"));
              (lit "lineItems", JArr [JStr (lit "a")])]).
Proof. vm_compute. reflexivity. Qed.

(** ** Type detection *)

(** C8, the claim fails: a file without a declared type whose extension
    is [png] resolves to [image/jpeg], not to the type its extension
    names. *)
Lemma normalizeMime_ignores_png_extension :
  App.normalizeMime png_without_type = lit "image/jpeg"
  /\ App.normalizeMime png_without_type <> lit "image/png".
Proof. split; vm_compute; [reflexivity | discriminate]. Qed.

(** C8, as the code has it: the result is always one of the five media
    types; it is [application/pdf] as soon as the declared type or the
    extension says so (the extension wins over a declared image type);
    otherwise a declared [image/png], [image/webp] or [image/gif] is
    kept and everything else, whatever the extension, is [image/jpeg]. *)
Theorem normalizeMime_resolution (f : App.file) :
  let t := toLowerCase (App.type f) in
  let ext := toLowerCase (after_last ch_dot (App.name f)) in
  In (App.normalizeMime f) mime_set
  /\ (t = lit "application/pdf" \/ ext = lit "pdf" ->
      App.normalizeMime f = lit "application/pdf")
  /\ (t <> lit "application/pdf" -> ext <> lit "pdf" ->
      (In t (map lit ["image/png"; "image/webp"; "image/gif"]%string) ->
       App.normalizeMime f = t)
      /\ (~ In t (map lit ["image/png"; "image/webp"; "image/gif"]%string) ->
          App.normalizeMime f = lit "image/jpeg")).
Proof.
  intros t ext. unfold App.normalizeMime. fold t. fold ext.
  destruct (str_eqb t (lit "application/pdf")) eqn:Ht.
  { apply str_eqb_eq in Ht. simpl. split; [left; reflexivity|].
    split; [reflexivity|]. intros H; contradiction. }
  destruct (str_eqb ext (lit "pdf")) eqn:He.
  { apply str_eqb_eq in He. simpl. split; [left; reflexivity|].
    split; [reflexivity|]. intros _ H; contradiction. }
  apply str_eqb_neq in Ht, He.
  cbv [orb].
  destruct (str_eqb t (lit "image/jpeg")) eqn:H1;
    [|destruct (str_eqb t (lit "image/jpg")) eqn:H2;
      [|destruct (str_eqb t (lit "image/png")) eqn:H3;
        [|destruct (str_eqb t (lit "image/webp")) eqn:H4;
          [|destruct (str_eqb t (lit "image/gif")) eqn:H5]]]];
    repeat match goal with
           | H : str_eqb _ _ = true |- _ => apply str_eqb_eq in H
           | H : str_eqb _ _ = false |- _ => apply str_eqb_neq in H
           end;
    (split; [simpl; tauto|]);
    (split; [intros [?|?]; contradiction|]);
    intros _ _; split; intros Hin;
    try reflexivity; try congruence;
    try (cbn [map In] in Hin; destruct Hin as [Hin|[Hin|[Hin|[]]]];
         first [ congruence
               | exfalso;
                 match goal with H : t = _ |- _ => rewrite H in Hin end;
                 vm_compute in Hin; discriminate ]);
    try (exfalso; apply Hin; cbn [map In]; intuition congruence).
Qed.

(** The resolution at a file without a declared type and with the
    extension [png]. *)
Lemma normalizeMime_resolution_witness :
  App.normalizeMime png_without_type = lit "image/jpeg".
Proof.
  apply (normalizeMime_resolution png_without_type).
  - vm_compute. discriminate.
  - vm_compute. discriminate.
  - vm_compute. intros [H|[H|[H|[]]]]; discriminate.
Defined.

(** ** Smart resize *)

Lemma js_round_inject_Z (z : Z) : App.js_round (inject_Z z) = z.
Proof.
  unfold App.js_round, Qfloor, Qplus, inject_Z. cbn.
  symmetry. apply Z.div_unique with (r := 1%Z); lia.
Qed.

Lemma js_round_le (x : Q) (z : Z) : (x <= inject_Z z)%Q -> (App.js_round x <= z)%Z.
Proof.
  intros H. rewrite <- (js_round_inject_Z z). unfold App.js_round.
  apply Qfloor_resp_le. now apply Qplus_le_l.
Qed.

Lemma scale_down (z : Z) (s : Q) :
  (0 <= z)%Z -> (s <= 1)%Q -> (inject_Z z * s <= inject_Z z)%Q.
Proof.
  intros Hz Hs.
  assert (H0 : (0 <= inject_Z z)%Q) by (unfold Qle; cbn; lia).
  rewrite <- (Qmult_1_r (inject_Z z)) at 2.
  rewrite (Qmult_comm (inject_Z z) s), (Qmult_comm (inject_Z z) 1).
  now apply Qmult_le_compat_r.
Qed.

(** The landscape branch only ever scales down. *)
Lemma smartResize_landscape_never_upscales (w h maxLong minWidth : Z) :
  (0 <= h)%Z -> (h <= w)%Z ->
  (fst (App.smartResize_dims w h maxLong minWidth) <= w)%Z
  /\ (snd (App.smartResize_dims w h maxLong minWidth) <= h)%Z.
Proof.
  intros Hh Hw. unfold App.smartResize_dims.
  assert (Hp : (h >? w)%Z = false) by lia. rewrite Hp. cbn [fst snd].
  split; apply js_round_le; apply scale_down; try lia; apply Q.le_min_r.
Qed.

(** So does the portrait branch on a canvas at least as wide as the
    floor. *)
Lemma smartResize_wide_portrait_never_upscales (w h maxLong minWidth : Z) :
  (0 < w)%Z -> (w < h)%Z -> (minWidth <= w)%Z ->
  (fst (App.smartResize_dims w h maxLong minWidth) <= w)%Z
  /\ (snd (App.smartResize_dims w h maxLong minWidth) <= h)%Z.
Proof.
  intros Hw Hh Hmin. unfold App.smartResize_dims.
  assert (Hp : (h >? w)%Z = true) by lia. rewrite Hp. cbn [fst snd].
  assert (Hs : ((if Qlt_le_dec
                      (inject_Z w * Qmin (inject_Z maxLong / inject_Z h) 1)
                      (inject_Z minWidth)
                 then inject_Z minWidth / inject_Z w
                 else Qmin (inject_Z maxLong / inject_Z h) 1) <= 1)%Q).
  { destruct (Qlt_le_dec _ _); [|apply Q.le_min_r].
    apply Qle_shift_div_r; [unfold Qlt; cbn; lia|].
    rewrite Qmult_1_l. unfold Qle. cbn. lia. }
  split; apply js_round_le; apply scale_down; try lia; exact Hs.
Qed.

(** C6, at a narrow portrait image: the first pass of the size-budget
    loop ([maxLong] 2000, [minWidth] 900) turns a canvas of 100 by 200
    pixels into one of 900 by 1800.  The scale is first capped at 1 and
    then overwritten by [minWidth / w] without the cap, so the long edge
    grows from 200 to 1800 where the claim has it never grow. *)
Theorem smartResize_upscales_narrow_portrait :
  App.smartResize_dims 100 200 2000 900 = (900, 1800)%Z
  /\ (Z.max 100 200 < Z.max 900 1800)%Z.
Proof. split; [vm_compute; reflexivity | lia]. Qed.

(** ** The rasterizer's media type *)

Section Rasterizer.

Variable pixels : Type.
Variable toDataURL_jpeg : App.canvas pixels -> Z -> Z -> Q -> str.
Variable read_image : App.file -> result (App.canvas pixels).
Variable render_pdf : App.file -> result (App.canvas pixels).

Let rasterize := App.rasterize pixels toDataURL_jpeg read_image render_pdf.

(** Whenever the document decodes, the rasterizer returns an image. *)
Lemma rasterize_succeeds (f : App.file) (cv : App.canvas pixels) :
  (if str_eqb (App.normalizeMime f) (lit "application/pdf")
   then render_pdf f else read_image f) = Ok cv ->
  exists b64, rasterize f = Ok {| App.base64 := b64; App.mediaType := lit "image/jpeg" |}.
Proof.
  unfold rasterize, App.rasterize, App.pdfToImageBase64, App.compressImage.
  destruct (str_eqb (App.normalizeMime f) (lit "application/pdf"));
    intros ->; cbn [bind]; eexists; reflexivity.
Qed.

(** C10: every image the rasterizer returns, for a PDF or for an image of
    any type, through any pass of the size-budget loop, has the media
    type [image/jpeg]. *)
Theorem rasterize_media_type (f : App.file) (r : App.raster) :
  rasterize f = Ok r -> App.mediaType r = lit "image/jpeg".
Proof.
  unfold rasterize, App.rasterize, App.pdfToImageBase64, App.compressImage.
  destruct (str_eqb (App.normalizeMime f) (lit "application/pdf")).
  - destruct (render_pdf f); cbn [bind]; intros H; [|discriminate].
    injection H as <-. reflexivity.
  - destruct (read_image f); cbn [bind]; intros H; [|discriminate].
    injection H as <-. reflexivity.
Qed.

End Rasterizer.

(** The media type of the image a PNG file is rasterized to. *)
Lemma rasterize_media_type_witness :
  App.rasterize unit encode_const decode_small decode_fails
    {| App.type := lit "image/png"; App.name := lit "scan.png" |}
  = Ok {| App.base64 := lit "AAAA"; App.mediaType := lit "image/jpeg" |}
  /\ App.mediaType {| App.base64 := lit "AAAA"; App.mediaType := lit "image/jpeg" |}
     = lit "image/jpeg".
Proof.
  split.
  - vm_compute. reflexivity.
  - apply (rasterize_media_type unit encode_const decode_small decode_fails
             {| App.type := lit "image/png"; App.name := lit "scan.png" |}).
    vm_compute. reflexivity.
Defined.

(** ** Field coercion *)

Lemma map_result_ok {A B} (f : A -> result B) (g : A -> B) (l : list A) :
  (forall a, f a = Ok (g a)) -> App.map_result f l = Ok (map g l).
Proof.
  intros H. induction l as [|a l IH]; cbn; [reflexivity|].
  now rewrite H, IH.
Qed.

(** On an object the coercion returns, and the form holds one entry per
    field, in the order of [FIELDS]. *)
Lemma coerce_object (m : list (str * json)) :
  App.coerce (JObj m)
  = Ok {| App.form := map (fun key => (key, App.or_empty (obj_get key m))) App.FIELDS;
          App.lineItems := match obj_get (lit "lineItems") m with
                           | Some (JArr l) => l
                           | _ => []
                           end |}.
Proof.
  unfold App.coerce.
  rewrite (map_result_ok _ (fun key => (key, App.or_empty (obj_get key m))))
    by reflexivity.
  cbn [bind App.member get]. reflexivity.
Qed.

Lemma or_empty_not_null (v : option json) : App.or_empty v <> JNull.
Proof.
  destruct v as [[| | | | |]|]; cbn; try discriminate.
  all: match goal with |- (if ?b then _ else _) <> _ => destruct b end;
    discriminate.
Qed.

(** C3, as the code has it: on every parsed object [coerce] returns a
    record (it never throws); its form has exactly the keys of the fixed
    field set, each bound to the object's value when that value is
    truthy (present and neither [null], the empty string, [false] nor a
    number that is zero) and to the empty string otherwise, never to
    [null]; its line items are the object's [lineItems] when that is an
    array and the empty sequence otherwise.  What decides is the
    truthiness of the value, as [value || empty] has it, not whether the
    value is empty. *)
Theorem coerce_total (m : list (str * json)) :
  exists inv,
    App.coerce (JObj m) = Ok inv
    /\ map fst (App.form inv) = App.FIELDS
    /\ Forall (fun key =>
         exists v, obj_get key (App.form inv) = Some v
           /\ v <> JNull
           /\ v = match obj_get key m with
                  | Some x => if truthy x then x else JStr []
                  | None => JStr []
                  end) App.FIELDS
    /\ App.lineItems inv = match obj_get (lit "lineItems") m with
                           | Some (JArr l) => l
                           | _ => []
                           end.
Proof.
  eexists. split; [apply coerce_object|]. cbn [App.form App.lineItems].
  split; [reflexivity|]. split; [|reflexivity].
  repeat constructor;
    (eexists; split; [vm_compute; reflexivity|]; split;
     [apply or_empty_not_null | reflexivity]).
Qed.

(** C3, the claim fails: a tax amount of [0] and a PO number of [false]
    are values that are present and not empty, and the claim has such a
    value kept; the coercion gives the empty string for both. *)
Lemma coerce_blanks_zero_and_false :
  exists inv,
    App.coerce zero_and_false = Ok inv
    /\ get (lit "taxAmount") zero_and_false = Some (num 0)
    /\ get (lit "poNumber") zero_and_false = Some (JBool false)
    /\ obj_get (lit "taxAmount") (App.form inv) = Some (JStr [])
    /\ obj_get (lit "poNumber") (App.form inv) = Some (JStr [])
    /\ num 0 <> JStr [] /\ JBool false <> JStr [].
Proof.
  eexists. split; [vm_compute; reflexivity|].
  repeat split; try reflexivity; discriminate.
Qed.

Lemma obj_get_map (f : str -> json) (key : str) (l : list str) :
  In key l -> obj_get key (map (fun k => (k, f k)) l) = Some (f key).
Proof.
  induction l as [|k l IH]; intros Hin; [destruct Hin|].
  cbn [map obj_get]. destruct (str_eqb key k) eqn:Hk.
  - apply str_eqb_eq in Hk. now subst.
  - destruct Hin as [->|Hin]; [now rewrite str_eqb_refl in Hk | now apply IH].
Qed.

(** A field whose value is a string, which is what the data model has,
    keeps it: the value is non-empty exactly when it is truthy. *)
Lemma coerce_string_field (m : list (str * json)) (key s : str) :
  In key App.FIELDS -> obj_get key m = Some (JStr s) ->
  exists inv, App.coerce (JObj m) = Ok inv
              /\ obj_get key (App.form inv) = Some (JStr s).
Proof.
  intros Hin Hs. eexists. split; [apply coerce_object|].
  cbn [App.form].
  rewrite (obj_get_map (fun k => App.or_empty (obj_get k m)) key _ Hin), Hs.
  destruct s; reflexivity.
Qed.

(** An object that has none of the expected keys gives the empty string
    for every field and no line item. *)
Lemma coerce_empty_object :
  App.coerce (JObj [])
  = Ok {| App.form := map (fun key => (key, JStr [])) App.FIELDS;
          App.lineItems := [] |}.
Proof. vm_compute. reflexivity. Qed.

(** The end-to-end scenario of the specification. *)
Lemma coerce_fenced_invoice :
  bind (App.extractJSON
          (wrap (lit "Here you go:" ++ [ch_nl]) (lit "json") invoice_text []))
       App.coerce
  = Ok {| App.form :=
            map (fun key =>
                   (key,
                    if str_eqb key (lit "invoiceNo") then JStr (lit "INV-9")
                    else if str_eqb key (lit "amount") then JStr (lit "42.00")
                    else JStr [])) App.FIELDS;
          App.lineItems := [] |}.
Proof. vm_compute. reflexivity. Qed.

(** ** Provider clients *)

Section ProviderClients.

Variable E : engine.
Variable fetch : provider_request -> result http_response.

Ltac run_call :=
  cbv [outcome run_M mbind emit lift throw ret fst];
  repeat match goal with
         | |- context [match ?x with _ => _ end] => destruct x
         | |- context [if ?b then _ else _] => destruct b
         end;
  reflexivity.

(** A provider client makes exactly one call and its result does not
    depend on what happened before. *)
Lemma callGemini_with_run (model prefix k img mt p : str) (tr : list event) :
  callGemini_with E fetch model prefix k img mt p tr
  = (outcome (callGemini_with E fetch model prefix k img mt p),
     tr ++ [ProviderCall (url (gemini_request model k img mt p))]).
Proof. unfold callGemini_with. run_call. Qed.

Lemma Extract_callAnthropic_run (k img mt p : str) (tr : list event) :
  Extract.callAnthropic E fetch k img mt p tr
  = (outcome (Extract.callAnthropic E fetch k img mt p),
     tr ++ [ProviderCall (lit "https://api.anthropic.com/v1/messages")]).
Proof. unfold Extract.callAnthropic. run_call. Qed.

Lemma ApiExtract_callAnthropic_run (k img mt p : str) (tr : list event) :
  ApiExtract.callAnthropic E fetch k img mt p tr
  = (outcome (ApiExtract.callAnthropic E fetch k img mt p),
     tr ++ [ProviderCall (lit "https://api.anthropic.com/v1/messages")]).
Proof. unfold ApiExtract.callAnthropic. run_call. Qed.

(** What Gemini's client returns is tagged [gemini] and holds a single
    text segment. *)
Lemma callGemini_with_shape (model prefix k img mt p : str) (g : json) :
  outcome (callGemini_with E fetch model prefix k img mt p) = Ok g ->
  exists t, truthy t = true
            /\ g = provider_result (lit "gemini") (text_content t).
Proof.
  unfold callGemini_with.
  cbv [outcome run_M mbind emit lift throw ret fst].
  destruct (fetch _) as [res|]; [|discriminate].
  destruct (JSON_parse _) as [data|]; [|discriminate].
  destruct (negb (ok res)); [discriminate|].
  unfold pick. destruct (gemini_text data) as [t|]; [|discriminate].
  destruct (truthy t) eqn:Ht; [|discriminate].
  intros H. injection H as <-. now exists t.
Qed.

(** The segment is the text of the first part of the first candidate,
    whatever parts follow it. *)
Lemma gemini_text_first_part (data cand content p : json) (rest : list json) :
  first_candidate data = Some cand ->
  get_opt (lit "content") (Some cand) = Some content ->
  get_opt (lit "parts") (Some content) = Some (JArr (p :: rest)) ->
  gemini_text data = get_opt (lit "text") (Some p).
Proof.
  intros Hc Hn Hp. unfold gemini_text. rewrite Hc, Hn, Hp. reflexivity.
Qed.

End ProviderClients.

(** C9, at an answer of Gemini whose completion comes in the two parts
    [{"a":] and [1}]: the client returns the first part alone as the one
    text segment, so the text the browser side assembles is [{"a":] where
    the claim has the concatenation [{"a":1}] (which is what the browser
    side assembles from the same two segments when they come as content
    of the normalized shape). *)
Theorem callGemini_keeps_first_part_only :
  outcome (Extract.callGemini Sample.sample_engine net_fallback
             (lit "g-key") (lit "AAAA") (lit "image/jpeg") (lit "p"))
  = Ok (provider_result (lit "gemini") (text_content (JStr (qlit "{'a':"))))
  /\ outcome (ApiExtract.callGemini Sample.sample_engine net_fallback
                (lit "g-key") (lit "AAAA") (lit "image/jpeg") (lit "p"))
     = Ok (provider_result (lit "gemini") (text_content (JStr (qlit "{'a':"))))
  /\ App.content_text Sample.sample_engine
       (Some (text_content (JStr (qlit "{'a':")))) = Ok (qlit "{'a':")
  /\ App.content_text Sample.sample_engine
       (Some (JArr [JObj [(lit "text", JStr (qlit "{'a':"))];
                    JObj [(lit "text", JStr (lit "1}"))]])) = Ok (qlit "{'a':1}").
Proof. repeat split; vm_compute; reflexivity. Qed.

(** ** The orchestrator *)

Section Orchestrator.

Variable E : engine.
Variable fetch : provider_request -> result http_response.
Variable ev : env.
Variable req : request.
Variables img mt p : str.

(** The request passes the checks that precede the provider calls. *)
Hypothesis Hpost : method req = lit "POST".
Hypothesis Hbody :
  body req = Some {| body_imageBase64 := Some img; body_mediaType := Some mt;
                     body_prompt := Some p |}.
Hypothesis Himg : img <> [].
Hypothesis Hmt : mt <> [].
Hypothesis Hp : p <> [].
Hypothesis Hsize : (approxKB img <= 5120)%N.

Let anthropic_url : str := lit "https://api.anthropic.com/v1/messages".

Lemma missing_some (s : str) : s <> [] -> missing (Some s) = false.
Proof. destruct s; [congruence | reflexivity]. Qed.

Ltac enter_handler :=
  rewrite Hpost, str_eqb_refl; cbn [negb];
  rewrite Hbody; cbn [body_imageBase64 body_mediaType body_prompt];
  rewrite (missing_some img Himg), (missing_some mt Hmt), (missing_some p Hp);
  cbn [orb key_text];
  replace (5120 <? approxKB img)%N with false
    by (symmetry; apply N.ltb_ge; exact Hsize).

Ltac step_M :=
  cbv [run_M mbind try_catch emit ret throw lift];
  repeat first
    [ rewrite Extract_callAnthropic_run
    | rewrite ApiExtract_callAnthropic_run
    | rewrite callGemini_with_run ].

(** src/extract.js: with both keys, Anthropic failing and Gemini
    answering, the answer is Gemini's with [usedFallback] set. *)
Lemma Extract_handler_fallback (ak gk : str) (e1 : exn) (g : json) :
  ANTHROPIC_API_KEY ev = Some ak -> ak <> [] ->
  GEMINI_API_KEY ev = Some gk -> gk <> [] ->
  outcome (Extract.callAnthropic E fetch ak img mt p) = Throw e1 ->
  outcome (Extract.callGemini E fetch gk img mt p) = Ok g ->
  exists t tr,
    truthy t = true
    /\ g = provider_result (lit "gemini") (text_content t)
    /\ run_M (Extract.handler E fetch ev req)
       = (Ok {| code := 200;
                value := JObj [(lit "provider", JStr (lit "gemini"));
                               (lit "content", text_content t);
                               (lit "usedFallback", JBool true)] |}, tr)
    /\ provider_calls tr
       = [anthropic_url; url (gemini_request (lit "gemini-1.5-flash") gk img mt p)].
Proof.
  intros Ha Hak Hg Hgk H1 H2.
  destruct (callGemini_with_shape _ _ _ _ _ _ _ _ _ H2) as [t [Ht ->]].
  exists t. eexists. split; [exact Ht|]. split; [reflexivity|].
  unfold Extract.handler. enter_handler.
  rewrite Ha, Hg, (missing_some ak Hak), (missing_some gk Hgk).
  cbn [andb negb key_text]. unfold Extract.callGemini in *.
  step_M. rewrite H1. step_M. rewrite H2.
  split; [reflexivity|].
  unfold provider_calls. rewrite !flat_map_app. reflexivity.
Qed.

(** src/extract.js: with the Gemini key alone, Gemini is the only
    provider called. *)
Lemma Extract_handler_gemini_only (gk : str) (g : json) :
  missing (ANTHROPIC_API_KEY ev) = true ->
  GEMINI_API_KEY ev = Some gk -> gk <> [] ->
  outcome (Extract.callGemini E fetch gk img mt p) = Ok g ->
  exists tr,
    run_M (Extract.handler E fetch ev req) = (Ok {| code := 200; value := g |}, tr)
    /\ provider_calls tr
       = [url (gemini_request (lit "gemini-1.5-flash") gk img mt p)].
Proof.
  intros Ha Hg Hgk H2. eexists.
  unfold Extract.handler. enter_handler.
  rewrite Ha, Hg, (missing_some gk Hgk).
  cbn [andb negb key_text]. unfold Extract.callGemini in *.
  step_M. rewrite H2.
  split; [reflexivity|].
  unfold provider_calls. rewrite !flat_map_app. reflexivity.
Qed.

(** src/extract.js: when both providers fail the answer lists both
    failures, Anthropic's first. *)
Lemma Extract_handler_both_fail (ak gk : str) (e1 e2 : exn) :
  ANTHROPIC_API_KEY ev = Some ak -> ak <> [] ->
  GEMINI_API_KEY ev = Some gk -> gk <> [] ->
  outcome (Extract.callAnthropic E fetch ak img mt p) = Throw e1 ->
  outcome (Extract.callGemini E fetch gk img mt p) = Throw e2 ->
  fst (run_M (Extract.handler E fetch ev req))
  = Ok {| code := 502;
          value := error_body
            (lit "Both providers failed." ++ [ch_nl]
               ++ lit "Anthropic: " ++ message E e1 ++ [ch_nl]
               ++ lit "Gemini: " ++ message E e2) |}.
Proof.
  intros Ha Hak Hg Hgk H1 H2.
  unfold Extract.handler. enter_handler.
  rewrite Ha, Hg, (missing_some ak Hak), (missing_some gk Hgk).
  cbn [andb negb key_text]. unfold Extract.callGemini in *.
  step_M. rewrite H1. step_M. rewrite H2. reflexivity.
Qed.

(** src/api/extract.js: when both providers fail the answer carries
    Gemini's failure alone; Anthropic's is only logged. *)
Lemma ApiExtract_handler_both_fail (ak gk : str) (e1 e2 : exn) :
  ANTHROPIC_API_KEY ev = Some ak -> ak <> [] ->
  GEMINI_API_KEY ev = Some gk -> gk <> [] ->
  outcome (ApiExtract.callAnthropic E fetch ak img mt p) = Throw e1 ->
  outcome (ApiExtract.callGemini E fetch gk img mt p) = Throw e2 ->
  fst (run_M (ApiExtract.handler E fetch ev req))
  = Ok {| code := 502;
          value := error_body (lit "Gemini failed: " ++ message E e2) |}.
Proof.
  intros Ha Hak Hg Hgk H1 H2.
  unfold ApiExtract.handler, ApiExtract.try_anthropic. enter_handler.
  rewrite Ha, Hg, (missing_some ak Hak), (missing_some gk Hgk).
  cbn [andb negb key_text]. unfold ApiExtract.callGemini in *.
  step_M. rewrite H1. step_M. rewrite H2. reflexivity.
Qed.

(** C5, as the code has it: when Anthropic (key configured) fails and
    Gemini (key configured) answers, the proxy answers 200 with Gemini's
    result, tagged [gemini] and flagged [usedFallback]; the answer has
    these three members and no list of attempts, and the two providers
    were called in that order.  With the Gemini key alone, Gemini is the
    one provider called and its result is the answer. *)
Theorem handler_fallback (ak gk : str) (e1 : exn) (g : json) :
  GEMINI_API_KEY ev = Some gk -> gk <> [] ->
  outcome (Extract.callGemini E fetch gk img mt p) = Ok g ->
  (ANTHROPIC_API_KEY ev = Some ak -> ak <> [] ->
   outcome (Extract.callAnthropic E fetch ak img mt p) = Throw e1 ->
   exists t tr,
     run_M (Extract.handler E fetch ev req)
     = (Ok {| code := 200;
              value := JObj [(lit "provider", JStr (lit "gemini"));
                             (lit "content", text_content t);
                             (lit "usedFallback", JBool true)] |}, tr)
     /\ g = provider_result (lit "gemini") (text_content t)
     /\ provider_calls tr
        = [anthropic_url; url (gemini_request (lit "gemini-1.5-flash") gk img mt p)])
  /\ (missing (ANTHROPIC_API_KEY ev) = true ->
      exists tr,
        run_M (Extract.handler E fetch ev req) = (Ok {| code := 200; value := g |}, tr)
        /\ provider_calls tr
           = [url (gemini_request (lit "gemini-1.5-flash") gk img mt p)]).
Proof.
  intros Hg Hgk H2. split.
  - intros Ha Hak H1.
    destruct (Extract_handler_fallback ak gk e1 g Ha Hak Hg Hgk H1 H2)
      as [t [tr [_ [Hshape [Hrun Hcalls]]]]].
    exists t, tr. auto.
  - intros Ha. exact (Extract_handler_gemini_only gk g Ha Hg Hgk H2).
Qed.

End Orchestrator.

(** The fallback at a network where Anthropic is overloaded and Gemini
    answers. *)
Lemma handler_fallback_witness :
  exists t tr,
    run_M (Extract.handler Sample.sample_engine net_fallback both_keys post)
    = (Ok {| code := 200;
             value := JObj [(lit "provider", JStr (lit "gemini"));
                            (lit "content", text_content t);
                            (lit "usedFallback", JBool true)] |}, tr)
    /\ provider_result (lit "gemini") (text_content (JStr (qlit "{'a':")))
       = provider_result (lit "gemini") (text_content t)
    /\ provider_calls tr
       = [lit "https://api.anthropic.com/v1/messages";
          url (gemini_request (lit "gemini-1.5-flash") (lit "g-key") (lit "AAAA")
                 (lit "image/jpeg") (lit "Extract the invoice"))].
Proof.
  apply (proj1 (handler_fallback Sample.sample_engine net_fallback both_keys post
                  (lit "AAAA") (lit "image/jpeg") (lit "Extract the invoice")
                  eq_refl eq_refl
                  ltac:(discriminate) ltac:(discriminate) ltac:(discriminate)
                  ltac:(vm_compute; discriminate)
                  (lit "sk-ant") (lit "g-key")
                  (JsError (lit "Anthropic 529: Overloaded"))
                  (provider_result (lit "gemini") (text_content (JStr (qlit "{'a':"))))
                  eq_refl ltac:(discriminate) ltac:(vm_compute; reflexivity))).
  - reflexivity.
  - discriminate.
  - vm_compute. reflexivity.
Defined.

(** With the Gemini key alone Anthropic is not called. *)
Lemma handler_gemini_only_run :
  exists tr,
    run_M (Extract.handler Sample.sample_engine net_fallback gemini_only post)
    = (Ok {| code := 200;
             value := provider_result (lit "gemini")
                        (text_content (JStr (qlit "{'a':"))) |}, tr)
    /\ provider_calls tr
       = [url (gemini_request (lit "gemini-1.5-flash") (lit "g-key") (lit "AAAA")
                 (lit "image/jpeg") (lit "Extract the invoice"))].
Proof. eexists. split; vm_compute; reflexivity. Qed.

(** C5, the claim fails: at a network where Anthropic is overloaded and
    Gemini answers, the answer of the proxy has the members [provider],
    [content] and [usedFallback] and nothing else; no member lists the
    attempts, and Anthropic's failure, which the log has, occurs nowhere
    in the answer. *)
Lemma fallback_answer_has_no_attempt_list :
  exists members tr,
    run_M (Extract.handler Sample.sample_engine net_fallback both_keys post)
    = (Ok {| code := 200; value := JObj members |}, tr)
    /\ map fst members = [lit "provider"; lit "content"; lit "usedFallback"]
    /\ obj_get (lit "attempts") members = None
    /\ In (Log [lit "[extract] primary error:"; lit "Anthropic 529: Overloaded"]) tr
    /\ includes (lit "Overloaded") (Sample.stringify (JObj members)) = false.
Proof.
  do 2 eexists. split; [vm_compute; reflexivity|].
  repeat split; try (vm_compute; reflexivity).
  cbn. tauto.
Qed.

(** C4, at a network where Anthropic is overloaded and Gemini is out of
    quota, both keys configured: the handler of src/api/extract.js
    answers 502 with Gemini's failure alone, Anthropic's failure being
    logged and dropped from the answer, where the claim has one reason per
    attempted provider.  The handler of src/extract.js answers the same
    request with both reasons, Anthropic's first. *)
Theorem ApiExtract_handler_drops_anthropic_failure :
  fst (run_M (ApiExtract.handler Sample.sample_engine net_down both_keys post))
  = Ok {| code := 502;
          value := error_body (lit "Gemini failed: Gemini HTTP 429: Quota") |}
  /\ outcome (ApiExtract.callAnthropic Sample.sample_engine net_down
                (lit "sk-ant") (lit "AAAA") (lit "image/jpeg")
                (lit "Extract the invoice"))
     = Throw (JsError (lit "Anthropic HTTP 529: Overloaded"))
  /\ fst (run_M (Extract.handler Sample.sample_engine net_down both_keys post))
     = Ok {| code := 502;
             value := error_body
               (lit "Both providers failed." ++ [ch_nl]
                  ++ lit "Anthropic: Anthropic 529: Overloaded" ++ [ch_nl]
                  ++ lit "Gemini: Gemini 429: Quota") |}.
Proof. repeat split; vm_compute; reflexivity. Qed.

(** ** The place of the credential check *)

Section CredentialCheck.

Variable E : engine.
Variable fetch : provider_request -> result http_response.
Variable ev : env.

Hypothesis Hanthropic : missing (ANTHROPIC_API_KEY ev) = true.
Hypothesis Hgemini : missing (GEMINI_API_KEY ev) = true.

(** Without a key either version of the proxy answers 500 at once: the
    body is not looked at, nothing is logged and no provider is called. *)
Lemma Extract_handler_no_key (req : request) (tr : list event) :
  method req = lit "POST" ->
  Extract.handler E fetch ev req tr
  = (Ok {| code := 500; value := error_body Extract.no_key_message |}, tr).
Proof.
  intros Hpost. unfold Extract.handler.
  rewrite Hpost, str_eqb_refl, Hanthropic, Hgemini. reflexivity.
Qed.

Lemma ApiExtract_handler_no_key (req : request) (tr : list event) :
  method req = lit "POST" ->
  ApiExtract.handler E fetch ev req tr
  = (Ok {| code := 500; value := error_body Extract.no_key_message |}, tr).
Proof.
  intros Hpost. unfold ApiExtract.handler.
  rewrite Hpost, str_eqb_refl, Hanthropic, Hgemini. reflexivity.
Qed.

Variable pixels : Type.
Variable toDataURL_jpeg : App.canvas pixels -> Z -> Z -> Q -> str.
Variable read_image : App.file -> result (App.canvas pixels).
Variable render_pdf : App.file -> result (App.canvas pixels).
Variable EXTRACTION_PROMPT : str.

Let rasterize := App.rasterize pixels toDataURL_jpeg read_image render_pdf.
Let extract :=
  Pipeline.extract E pixels toDataURL_jpeg read_image render_pdf
    EXTRACTION_PROMPT (Extract.handler E fetch ev).

(** C7, as the code has it: the credential check is the proxy's, and the
    proxy is called with the rasterized image.  Without a key the proxy
    answers 500 before it looks at the body or calls a provider; a run of
    the pipeline rasterizes the document first, fails there when the
    document does not decode, and otherwise posts the image and fails on
    the proxy's answer. *)
Theorem credential_check_follows_rasterization (f : App.file) :
  let isPdf := str_eqb (App.normalizeMime f) (lit "application/pdf") in
  (forall req tr, method req = lit "POST" ->
     Extract.handler E fetch ev req tr
     = (Ok {| code := 500; value := error_body Extract.no_key_message |}, tr))
  /\ (forall r, rasterize f = Ok r ->
        exists e, run_M (extract f)
                  = (Throw e, [Rasterize isPdf; Post (lit "/api/extract")]))
  /\ (forall e, rasterize f = Throw e ->
        run_M (extract f) = (Throw e, [Rasterize isPdf])).
Proof.
  intros isPdf. split; [exact Extract_handler_no_key|].
  unfold rasterize, extract, Pipeline.extract, App.extractInvoice, App.rasterize.
  fold isPdf.
  split.
  - intros r Hr.
    cbv [run_M mbind emit lift]. rewrite Hr. cbn [app].
    unfold Pipeline.proxy_fetch. cbv [mbind].
    rewrite Extract_handler_no_key by reflexivity.
    cbv [ret try_catch lift code value text].
    unfold App.read_response. cbn [text status ok N.leb negb andb].
    replace (ok {| status := 500;
                   text := JSON_stringify E (error_body Extract.no_key_message) |})
      with false by reflexivity.
    cbn [negb].
    destruct (JSON_stringify E (error_body Extract.no_key_message)) as [|c s];
      [eexists; reflexivity|].
    match goal with
    | |- context [if ?b then _ else _] => destruct b
    end; eexists; reflexivity.
  - intros e He.
    cbv [run_M mbind emit lift]. rewrite He. reflexivity.
Qed.

End CredentialCheck.

(** The failing run of the pipeline without a key: the image is
    rasterized and posted before the proxy refuses. *)
Lemma credential_check_follows_rasterization_witness :
  exists e,
    run_M (Pipeline.extract Sample.sample_engine unit encode_const decode_small
             decode_fails (lit "Extract the invoice")
             (Extract.handler Sample.sample_engine net_down no_keys)
             png_without_type)
    = (Throw e, [Rasterize false; Post (lit "/api/extract")]).
Proof.
  apply (proj1 (proj2 (credential_check_follows_rasterization
                         Sample.sample_engine net_down no_keys eq_refl eq_refl
                         unit encode_const decode_small decode_fails
                         (lit "Extract the invoice") png_without_type))
           {| App.base64 := lit "AAAA"; App.mediaType := lit "image/jpeg" |}).
  vm_compute. reflexivity.
Defined.

(** C7, the claim fails: without any key, a run of the pipeline on an
    image rasterizes it and posts it, and only then fails on the proxy's
    answer that no key is configured; the rasterization is in the trace,
    before the call of the proxy. *)
Lemma rasterization_precedes_credential_check :
  run_M (Pipeline.extract Sample.sample_engine unit encode_const decode_small
           decode_fails (lit "Extract the invoice")
           (Extract.handler Sample.sample_engine net_down no_keys)
           png_without_type)
  = (Throw (JsError
              (Extract.no_key_message ++ [ch_nl; ch_nl] ++ lit "Raw: "
                 ++ Sample.stringify (error_body Extract.no_key_message))),
     [Rasterize false; Post (lit "/api/extract")]).
Proof. vm_compute. reflexivity. Qed.

(** ** The parser on a fenced completion *)

Lemma match_items_many (p : char -> bool) (rest : list item) (a : bool) (s : str) :
  match_items (Many p :: rest) a s
  = match s with
    | c :: t =>
        if p c then
          match match_items (Many p :: rest) a t with
          | Some n => Some (S n)
          | None => match_items rest a s
          end
        else match_items rest a s
    | [] => match_items rest a s
    end.
Proof. destruct s; reflexivity. Qed.

Lemma match_items_one (p : char -> bool) (rest : list item) (a : bool)
    (c : char) (t : str) :
  match_items (One p :: rest) a (c :: t)
  = if p c then option_map S (match_items rest a t) else None.
Proof. reflexivity. Qed.

(** A character that no item of the pattern takes ends every match before
    it: what follows it has no say. *)
Lemma match_items_app_reject (its : list item) (c : char) (r : str) :
  Forall (fun it => item_pred it c = false) its ->
  forall x, match_items its false (x ++ c :: r) = match_items its false x.
Proof.
  induction 1 as [|it its Hit _ IH]; intros x.
  - reflexivity.
  - destruct it as [p|p|p]; cbn [item_pred] in Hit.
    + destruct x as [|a x]; cbn [app match_items].
      * now rewrite Hit.
      * destruct (p a); [now rewrite IH | reflexivity].
    + destruct x as [|a x]; cbn [app match_items].
      * rewrite Hit. apply (IH []).
      * rewrite (IH x).
        change (a :: x ++ c :: r) with ((a :: x) ++ c :: r).
        rewrite (IH (a :: x)). reflexivity.
    + induction x as [|a x IHx].
      * cbn [app]. rewrite !match_items_many, Hit. apply (IH []).
      * cbn [app]. rewrite (match_items_many p its false (a :: x ++ c :: r)).
        rewrite (match_items_many p its false (a :: x)).
        rewrite IHx.
        change (a :: x ++ c :: r) with ((a :: x) ++ c :: r).
        rewrite (IH (a :: x)). reflexivity.
Qed.

Lemma match_items_length (its : list item) (a : bool) :
  forall s n, match_items its a s = Some n -> n <= length s.
Proof.
  induction its as [|it its IH]; intros s n.
  - cbn. destruct a; [destruct s|]; intros H; inversion H; lia.
  - destruct it as [p|p|p].
    + destruct s as [|c t]; cbn [match_items]; [discriminate|].
      destruct (p c); [|discriminate].
      destruct (match_items its a t) as [k|] eqn:Hk; cbn; [|discriminate].
      intros H; inversion H; subst. apply IH in Hk. cbn. lia.
    + destruct s as [|c t]; cbn [match_items]; [apply IH|].
      destruct (p c); [|apply IH].
      destruct (match_items its a t) as [k|] eqn:Hk; [|apply IH].
      intros H; inversion H; subst. apply IH in Hk. cbn. lia.
    + revert n. induction s as [|c t IHs]; intros n;
        rewrite match_items_many; [apply IH|].
      destruct (p c); [|apply IH].
      destruct (match_items (Many p :: its) a t) as [k|] eqn:Hk; [|apply IH].
      intros H; inversion H; subst. specialize (IHs k eq_refl). cbn. lia.
Qed.

(** Removing the matches of a pattern splits at a character that the
    pattern never takes. *)
Lemma replace_all_from_app (re : regex) (c : char) (r : str) :
  at_end re = false ->
  Forall (fun it => item_pred it c = false) (items re) ->
  forall x k, k <= length x ->
    replace_all_from re k (x ++ c :: r)
    = replace_all_from re k x ++ replace_all_from re 0 (c :: r).
Proof.
  intros Hend Hrej.
  remember (replace_all_from re 0 (c :: r)) as tail eqn:Htail.
  induction x as [|a x IH]; intros k Hk.
  - assert (k = 0) by (cbn in Hk; lia). subst. reflexivity.
  - cbn [app]. cbn [replace_all_from]. destruct k as [|k].
    + change (a :: x ++ c :: r) with ((a :: x) ++ c :: r).
      unfold match_at. rewrite Hend.
      rewrite (match_items_app_reject _ c r Hrej (a :: x)).
      destruct (match_items (items re) false (a :: x)) as [[|n]|] eqn:Hm.
      * cbn [app]. f_equal. apply IH. lia.
      * apply match_items_length in Hm. cbn in Hm. apply IH. lia.
      * cbn [app]. f_equal. apply IH. lia.
    + apply IH. cbn in Hk. lia.
Qed.

Lemma replace_all_from_In (re : regex) (c : char) :
  forall s k, In c (replace_all_from re k s) -> In c s.
Proof.
  induction s as [|a s IH]; intros k; cbn [replace_all_from]; [tauto|].
  destruct k as [|k].
  - destruct (match_at re (a :: s)) as [[|n]|]; cbn [In]; intros H;
      try (destruct H as [H|H]; [now left | right; now apply IH in H]).
    right. now apply IH in H.
  - intros H. right. now apply IH in H.
Qed.

Lemma fence_pattern_open (re : regex) :
  App.is_fence_pattern re -> at_end re = false.
Proof. intros [-> | ->]; reflexivity. Qed.

Lemma fence_pattern_rejects (re : regex) (c : char) :
  App.is_fence_pattern re -> c = ch_lbrace \/ c = ch_rbrace ->
  Forall (fun it => item_pred it c = false) (items re).
Proof.
  intros [-> | ->] [-> | ->]; repeat constructor.
Qed.

Lemma fence_match_starts (re : regex) (s : str) (n : nat) :
  App.is_fence_pattern re -> match_at re s = Some n ->
  starts_with (lit "```") s = true.
Proof.
  intros Hre. unfold match_at.
  assert (H3 : exists rest, items re
                 = One (is_c ch_btick) :: One (is_c ch_btick)
                     :: One (is_c ch_btick) :: rest)
    by (destruct Hre as [-> | ->]; eexists; reflexivity).
  destruct H3 as [rest ->].
  destruct s as [|a [|b [|c s]]]; cbn [match_items]; try discriminate;
    unfold is_c;
    change (lit "```") with [ch_btick; ch_btick; ch_btick]; cbn [starts_with].
  - destruct (N.eqb ch_btick a); discriminate.
  - destruct (N.eqb ch_btick a); [|discriminate].
    destruct (N.eqb ch_btick b); discriminate.
  - destruct (N.eqb ch_btick a); [|discriminate].
    destruct (N.eqb ch_btick b); [|discriminate].
    destruct (N.eqb ch_btick c); [reflexivity | discriminate].
Qed.

(** A text that holds no fence marker and does not end in a backtick
    passes through both removals unchanged, whatever follows it. *)
Lemma starts_fence_app (x r : str) :
  x <> [] -> (forall x0, x <> x0 ++ [ch_btick]) ->
  starts_with (lit "```") (x ++ r) = true ->
  starts_with (lit "```") x = true.
Proof.
  intros Hne Hend.
  change (lit "```") with [ch_btick; ch_btick; ch_btick].
  destruct x as [|a [|b [|c x]]]; [congruence| | |]; cbn [app starts_with].
  - intros H. apply andb_prop in H as [Ha _]. apply N.eqb_eq in Ha.
    exfalso. apply (Hend []). cbn. congruence.
  - intros H. apply andb_prop in H as [_ H]. apply andb_prop in H as [Hb _].
    apply N.eqb_eq in Hb. exfalso. apply (Hend [a]). cbn. congruence.
  - tauto.
Qed.

Lemma replace_all_from_keep (re : regex) (x r : str) :
  App.is_fence_pattern re ->
  (forall x0, x <> x0 ++ [ch_btick]) ->
  includes (lit "```") x = false ->
  replace_all_from re 0 (x ++ r) = x ++ replace_all_from re 0 r.
Proof.
  intros Hre. induction x as [|a x IH]; intros Hend Hinc; [reflexivity|].
  cbn [includes] in Hinc. apply orb_false_elim in Hinc as [Hhead Hinc].
  cbn [app]. cbn [replace_all_from].
  destruct (match_at re (a :: x ++ r)) as [n|] eqn:Hm.
  - exfalso. apply (fence_match_starts re _ n Hre) in Hm.
    change (a :: x ++ r) with ((a :: x) ++ r) in Hm.
    apply starts_fence_app in Hm; [congruence | discriminate | exact Hend].
  - f_equal. apply IH; [|exact Hinc].
    intros x0 Hx. apply (Hend (a :: x0)). cbn. now rewrite Hx.
Qed.

(** Both removals leave a piece [j] of the text alone when it begins with
    an opening brace, ends with a closing one and holds no fence marker;
    what is left of the text before it has only characters that were
    there. *)
Lemma strip_fences_around (pre mid post : str) :
  let j := ch_lbrace :: mid ++ [ch_rbrace] in
  includes (lit "```") j = false ->
  exists pre' post',
    replace_all App.re_fence (replace_all App.re_fence_json (pre ++ j ++ post))
    = pre' ++ j ++ post'
    /\ (forall c, In c pre' -> In c pre).
Proof.
  intros j Hinc.
  assert (Hend : forall x0, j <> x0 ++ [ch_btick]).
  { intros x0 Hx. unfold j in Hx.
    change (ch_lbrace :: mid ++ [ch_rbrace])
      with ((ch_lbrace :: mid) ++ [ch_rbrace]) in Hx.
    apply app_inj_tail in Hx as [_ Hx]. discriminate. }
  assert (Hpass : forall re x y, App.is_fence_pattern re ->
            replace_all re (x ++ j ++ y)
            = replace_all re x ++ j ++ replace_all re y).
  { intros re x y Hre. unfold replace_all.
    unfold j at 1. cbn [app].
    rewrite (replace_all_from_app re ch_lbrace _ (fence_pattern_open re Hre)
               (fence_pattern_rejects re _ Hre (or_introl eq_refl)) x 0)
      by lia.
    f_equal.
    change (ch_lbrace :: (mid ++ [ch_rbrace]) ++ y) with (j ++ y).
    now apply replace_all_from_keep. }
  exists (replace_all App.re_fence (replace_all App.re_fence_json pre)),
         (replace_all App.re_fence (replace_all App.re_fence_json post)).
  split.
  - rewrite (Hpass App.re_fence_json) by (left; reflexivity).
    now rewrite (Hpass App.re_fence) by (right; reflexivity).
  - intros c Hc. unfold replace_all in Hc.
    now apply replace_all_from_In, replace_all_from_In in Hc.
Qed.

(** ** Trimming, searching and scanning around the embedded text *)

Lemma drop_space_app (x r : str) (c : char) :
  is_space c = false -> drop_space (x ++ c :: r) = drop_space x ++ c :: r.
Proof.
  intros Hc. induction x as [|a x IH]; cbn [app drop_space].
  - now rewrite Hc.
  - destruct (is_space a); [exact IH | reflexivity].
Qed.

Lemma drop_space_In (c : char) (s : str) : In c (drop_space s) -> In c s.
Proof.
  induction s as [|a s IH]; cbn [drop_space]; [tauto|].
  destruct (is_space a); [|tauto]. intros H. right. now apply IH.
Qed.

Lemma trim_around (pre mid post : str) :
  let j := ch_lbrace :: mid ++ [ch_rbrace] in
  trim (pre ++ j ++ post) = drop_space pre ++ j ++ rev (drop_space (rev post)).
Proof.
  intros j. unfold trim. unfold j at 1. cbn [app].
  rewrite drop_space_app by reflexivity.
  assert (Hsplit : drop_space pre ++ ch_lbrace :: (mid ++ [ch_rbrace]) ++ post
                   = (drop_space pre ++ ch_lbrace :: mid) ++ ch_rbrace :: post).
  { rewrite <- !app_assoc. reflexivity. }
  rewrite Hsplit, rev_app_distr. cbn [rev]. rewrite <- app_assoc. cbn [app].
  rewrite drop_space_app by reflexivity.
  rewrite rev_app_distr. cbn [rev]. rewrite rev_involutive.
  unfold j. rewrite <- !app_assoc. cbn [app]. rewrite <- app_assoc. reflexivity.
Qed.

Lemma index_of_app (c : char) (x r : str) :
  ~ In c x -> index_of c (x ++ c :: r) = Some (length x).
Proof.
  induction x as [|a x IH]; intros Hx; cbn [app index_of length].
  - now rewrite N.eqb_refl.
  - destruct (N.eqb a c) eqn:Ha.
    + apply N.eqb_eq in Ha. exfalso. apply Hx. now left.
    + rewrite IH; [reflexivity|]. intros H. apply Hx. now right.
Qed.

Lemma find_close_S (s : str) :
  forall d i, App.find_close d (S i) s = option_map S (App.find_close d i s).
Proof.
  induction s as [|c s IH]; intros d i; cbn [App.find_close]; [reflexivity|].
  destruct (N.eqb c ch_lbrace); [apply IH|].
  destruct (N.eqb c ch_rbrace); [|apply IH].
  destruct (d - 1 =? 0)%Z; [reflexivity | apply IH].
Qed.

Lemma find_close_from (s : str) (d : Z) (i : nat) :
  App.find_close d i s = option_map (Nat.add i) (App.find_close d 0 s).
Proof.
  induction i as [|i IH].
  - destruct (App.find_close d 0 s); reflexivity.
  - rewrite find_close_S, IH. destruct (App.find_close d 0 s); reflexivity.
Qed.

Lemma find_close_app (x y : str) :
  forall d i e, App.find_close d i x = Some e -> App.find_close d i (x ++ y) = Some e.
Proof.
  induction x as [|c x IH]; intros d i e; cbn [app App.find_close];
    [discriminate|].
  destruct (N.eqb c ch_lbrace); [apply IH|].
  destruct (N.eqb c ch_rbrace); [|apply IH].
  destruct (d - 1 =? 0)%Z; [tauto | apply IH].
Qed.

Lemma skipn_length_app (x y : str) : skipn (length x) (x ++ y) = y.
Proof. induction x; [reflexivity | exact IHx]. Qed.

Lemma firstn_length_app (x y : str) : firstn (length x) (x ++ y) = x.
Proof. induction x; [reflexivity | cbn; now f_equal]. Qed.

(** A text that begins with an opening brace, whose scan closes at its
    last character and that holds no fence marker is what [extractJSON]
    hands to [JSON.parse], whatever surrounds it, as long as no opening
    brace precedes it. *)
Lemma extractJSON_embedded (pre mid post : str) :
  let j := ch_lbrace :: mid ++ [ch_rbrace] in
  ~ In ch_lbrace pre ->
  App.find_close 0 0 j = Some (length j - 1) ->
  includes (lit "```") j = false ->
  App.extractJSON (pre ++ j ++ post) = JSON_parse j.
Proof.
  intros j Hpre Hclose Hinc. unfold App.extractJSON.
  destruct (strip_fences_around pre mid post Hinc) as [pre' [post' [Heq Hin]]].
  fold j in Heq. rewrite Heq.
  pose proof (trim_around pre' mid post') as Htrim. cbv zeta in Htrim.
  fold j in Htrim. rewrite Htrim. clear Htrim Heq.
  set (P := drop_space pre'). set (T := rev (drop_space (rev post'))).
  assert (HP : ~ In ch_lbrace P).
  { intros H. apply Hpre, Hin. now apply drop_space_In. }
  assert (Hidx : index_of ch_lbrace (P ++ j ++ T) = Some (length P)).
  { unfold j. cbn [app]. now apply index_of_app. }
  rewrite Hidx, skipn_length_app.
  rewrite find_close_from, (find_close_app j T _ _ _ Hclose).
  cbn [option_map]. unfold slice. rewrite skipn_length_app.
  replace (length P + (length j - 1) + 1 - length P) with (length j)
    by (unfold j; cbn [length]; lia).
  now rewrite firstn_length_app.
Qed.

(** C2, the claim fails: a brace in the leading prose, a brace inside a
    string of the object and a fence marker inside a string each make
    [extractJSON] miss the object the fenced text encodes. *)
Lemma fenced_roundtrip_fails :
  (JSON_parse (qlit "{'a':'b'}") = Ok (JObj [(lit "a", JStr (lit "b"))])
   /\ App.extractJSON brace_in_prose = Throw JsSyntaxError)
  /\ (JSON_parse (qlit "{'a':'}'}") = Ok (JObj [(lit "a", JStr (lit "}"))])
      /\ App.extractJSON brace_in_string = Throw JsSyntaxError)
  /\ (JSON_parse (qlit "{'a':'```'}") = Ok (JObj [(lit "a", JStr (lit "```"))])
      /\ App.extractJSON fence_in_string = Ok (JObj [(lit "a", JStr [])])).
Proof. repeat split; vm_compute; reflexivity. Qed.

(** C2, as the code has it: take a well-formed JSON text that begins with
    an opening brace, whose brace-depth scan first returns to zero at its
    last character (no string of it holds a brace that breaks the count)
    and that holds no fence marker; wrap it in code fences, with any tag
    and any leading prose that hold no opening brace and any trailing
    prose at all.  [extractJSON] returns exactly the value the text
    encodes. *)
Theorem extractJSON_fenced_roundtrip (lead tag mid trail : str) (v : json) :
  let j := ch_lbrace :: mid ++ [ch_rbrace] in
  JSON_parse j = Ok v ->
  ~ In ch_lbrace lead -> ~ In ch_lbrace tag ->
  App.find_close 0 0 j = Some (length j - 1) ->
  includes (lit "```") j = false ->
  App.extractJSON (wrap lead tag j trail) = Ok v.
Proof.
  intros j Hv Hlead Htag Hclose Hinc. rewrite <- Hv. unfold wrap.
  replace (lead ++ lit "```" ++ tag ++ [ch_nl] ++ j ++ [ch_nl] ++ lit "```" ++ trail)
    with ((lead ++ lit "```" ++ tag ++ [ch_nl]) ++ j
            ++ ([ch_nl] ++ lit "```" ++ trail))
    by (rewrite <- !app_assoc; reflexivity).
  apply extractJSON_embedded; [|exact Hclose|exact Hinc].
  intros H. apply in_app_or in H as [H|H]; [now apply Hlead|].
  apply in_app_or in H as [H|H];
    [vm_compute in H; intuition discriminate|].
  apply in_app_or in H as [H|H]; [now apply Htag|].
  vm_compute in H. intuition discriminate.
Qed.

(** The round trip on the fenced invoice of the end-to-end scenario. *)
Lemma extractJSON_fenced_roundtrip_witness :
  App.extractJSON (wrap (lit "Here you go:" ++ [ch_nl]) (lit "json") invoice_text [])
  = Ok (JObj [(lit "invoiceNo", JStr (lit "INV-9"));
              (lit "amount", JStr (lit "42.00"));
              (lit "lineItems", JArr [])]).
Proof.
  apply (extractJSON_fenced_roundtrip (lit "Here you go:" ++ [ch_nl]) (lit "json")
           invoice_members []).
  - vm_compute. reflexivity.
  - vm_compute. intuition discriminate.
  - vm_compute. intuition discriminate.
  - vm_compute. reflexivity.
  - vm_compute. reflexivity.
Defined.

(** ** The repair of a text cut at the top level *)

(** A match of an anchored pattern reaches the end of the text. *)
Lemma match_items_anchored_length (its : list item) :
  forall s n, match_items its true s = Some n -> n = length s.
Proof.
  induction its as [|it its IH]; intros s n.
  - cbn. destruct s; intros H; inversion H; reflexivity.
  - destruct it as [p|p|p].
    + destruct s as [|c t]; cbn [match_items]; [discriminate|].
      destruct (p c); [|discriminate].
      destruct (match_items its true t) as [k|] eqn:Hk; cbn; [|discriminate].
      intros H; inversion H; subst. apply IH in Hk. cbn. lia.
    + destruct s as [|c t]; cbn [match_items]; [apply IH|].
      destruct (p c); [|apply IH].
      destruct (match_items its true t) as [k|] eqn:Hk; [|apply IH].
      intros H; inversion H; subst. apply IH in Hk. cbn. lia.
    + revert n. induction s as [|c t IHs]; intros n;
        rewrite match_items_many; [apply IH|].
      destruct (p c); [|apply IH].
      destruct (match_items (Many p :: its) true t) as [k|] eqn:Hk; [|apply IH].
      intros H; inversion H; subst. specialize (IHs k eq_refl). cbn. lia.
Qed.

(** An anchored pattern none of whose items takes [c] matches no text that
    holds [c]. *)
Lemma match_items_anchored_reject (its : list item) (c : char) :
  Forall (fun it => item_pred it c = false) its ->
  forall s, In c s -> match_items its true s = None.
Proof.
  induction 1 as [|it its Hit _ IH]; intros s Hs.
  - destruct s; [destruct Hs | reflexivity].
  - assert (Hhead : forall x t p, p c = false -> p x = true ->
              In c (x :: t) -> In c t).
    { intros x t p Hpc Hpx [->|H]; [congruence | exact H]. }
    destruct it as [p|p|p]; cbn [item_pred] in Hit.
    + destruct s as [|x t]; cbn [match_items]; [reflexivity|].
      destruct (p x) eqn:Hx; [|reflexivity].
      now rewrite (IH t (Hhead x t p Hit Hx Hs)).
    + destruct s as [|x t]; cbn [match_items]; [destruct Hs|].
      destruct (p x) eqn:Hx; [|now apply IH].
      rewrite (IH t (Hhead x t p Hit Hx Hs)). now apply IH.
    + induction s as [|x t IHs]; [destruct Hs|].
      rewrite match_items_many.
      destruct (p x) eqn:Hx; [|now apply IH].
      rewrite (IHs (Hhead x t p Hit Hx Hs)). now apply IH.
Qed.

(** White space and then a character that is not white space: the star
    has to take all the white space. *)
Lemma space_then_one (q : char -> bool) (rest : list item) (a : bool) (s : str) :
  (forall c, is_space c = true -> q c = false) ->
  (match_items (One q :: rest) a (drop_space s) = None ->
   match_items (Many is_space :: One q :: rest) a s = None)
  /\ (match_items (One q :: rest) a (drop_space s) <> None ->
      match_items (Many is_space :: One q :: rest) a s <> None).
Proof.
  intros Hdis. induction s as [|c t [IHn IHs]].
  - rewrite match_items_many. cbn [drop_space]. tauto.
  - rewrite match_items_many. cbn [drop_space].
    destruct (is_space c) eqn:Hc; [|tauto]. split.
    + intros H. rewrite (IHn H). cbn [match_items]. now rewrite (Hdis c Hc).
    + intros H. apply IHs in H.
      destruct (match_items (Many is_space :: One q :: rest) a t);
        [discriminate | congruence].
Qed.

(** After a quote that is followed by [c] somewhere, the rest of an
    anchored pattern that begins with [[^Q]*] and otherwise never takes
    [c] cannot match. *)
Lemma not_quote_then_reject (rest : list item) (c : char) (a b : str) :
  Forall (fun it => item_pred it c = false) rest ->
  In c b ->
  match_items (Many (not_in [ch_quote]) :: rest) true (a ++ ch_quote :: b) = None.
Proof.
  intros Hrej Hb.
  assert (Hall : forall a, match_items rest true (a ++ ch_quote :: b) = None).
  { intros a0. apply (match_items_anchored_reject rest c Hrej).
    apply in_or_app. right. now right. }
  induction a as [|x a IH]; rewrite match_items_many; cbn [app].
  - change (not_in [ch_quote] ch_quote) with false. apply (Hall []).
  - destruct (not_in [ch_quote] x); [|apply (Hall (x :: a))].
    rewrite IH. apply (Hall (x :: a)).
Qed.

Lemma re_tail_items :
  items App.re_tail
  = One (is_c ch_comma) :: Many is_space :: One (is_c ch_quote) :: tail_after_key.
Proof. reflexivity. Qed.

Lemma tail_after_key_rejects (c : char) :
  In c [ch_comma; ch_rbrace; ch_rbrack] ->
  Forall (fun it => item_pred it c = false) (tl tail_after_key).
Proof.
  intros [<-|[<-|[<-|[]]]]; repeat constructor.
Qed.

(** An optional or starred item in front of a pattern that matches every
    text of a class closed under taking suffixes leaves it so. *)
Lemma match_items_skip (G : str -> Prop) (it : item) (rest : list item) :
  (forall c r, G (c :: r) -> G r) ->
  (match it with One _ => False | _ => True end) ->
  (forall r, G r -> match_items rest true r <> None) ->
  forall r, G r -> match_items (it :: rest) true r <> None.
Proof.
  intros Hsuf Hit Hrest. destruct it as [p|p|p]; [destruct Hit| |].
  - intros [|c r] Hr; cbn [match_items]; [now apply Hrest|].
    destruct (p c); [|now apply Hrest].
    destruct (match_items rest true r); [discriminate | now apply Hrest].
  - induction r as [|c r IH]; intros Hr; rewrite match_items_many;
      [now apply Hrest|].
    destruct (p c); [|now apply Hrest].
    destruct (match_items (Many p :: rest) true r); [discriminate | now apply Hrest].
Qed.

Lemma tail_after_key_matches (t : str) :
  Forall (fun c => ~ In c [ch_comma; ch_rbrace; ch_rbrack]) t ->
  match_items tail_after_key true t <> None.
Proof.
  set (G := Forall (fun c : char => ~ In c [ch_comma; ch_rbrace; ch_rbrack])).
  assert (Hsuf : forall c r, G (c :: r) -> G r)
    by (intros c r H; now inversion H).
  assert (Hlast : forall r, G r ->
            match_items [Many (not_in [ch_comma; ch_rbrace; ch_rbrack])] true r
            <> None).
  { induction r as [|c r IH]; intros Hr; rewrite match_items_many;
      [discriminate|].
    inversion Hr as [|? ? Hc Hr']; subst.
    assert (Hp : not_in [ch_comma; ch_rbrace; ch_rbrack] c = true).
    { unfold not_in. apply negb_true_iff. apply not_true_is_false.
      intros H. apply existsb_exists in H as [x [Hx Hcx]].
      apply N.eqb_eq in Hcx. subst. contradiction. }
    rewrite Hp.
    destruct (match_items _ true r) eqn:Hm; [discriminate|].
    now apply IH in Hr'. }
  unfold tail_after_key.
  do 5 (apply (match_items_skip G); [exact Hsuf | exact I |]).
  exact Hlast.
Qed.

(** The tail pattern matches at the comma in front of a fragment that is
    white space, a quote and characters without structure. *)
Lemma re_tail_matches_fragment (ws t : str) :
  Forall (fun c => is_space c = true) ws ->
  Forall (fun c => ~ In c structural) t ->
  match_at App.re_tail (ch_comma :: ws ++ ch_quote :: t)
  = Some (length (ch_comma :: ws ++ ch_quote :: t)).
Proof.
  intros Hws Ht.
  assert (Hquote : forall c, is_space c = true -> is_c ch_quote c = false).
  { intros c Hc. unfold is_c. apply N.eqb_neq. intros <-. discriminate. }
  assert (Hdrop : drop_space (ws ++ ch_quote :: t) = ch_quote :: t).
  { induction Hws as [|c ws Hc _ IH]; [reflexivity|].
    cbn [app drop_space]. now rewrite Hc. }
  assert (Hk : match_items tail_after_key true t <> None).
  { apply tail_after_key_matches.
    eapply Forall_impl; [|exact Ht].
    intros c Hc H. apply Hc. unfold structural. cbn [In] in *. tauto. }
  assert (Hone : match_items (One (is_c ch_quote) :: tail_after_key) true
                   (drop_space (ws ++ ch_quote :: t)) <> None).
  { rewrite Hdrop, match_items_one.
    change (is_c ch_quote ch_quote) with true. cbv iota.
    destruct (match_items tail_after_key true t);
      [cbn [option_map]; congruence | now elim Hk]. }
  apply (proj2 (space_then_one (is_c ch_quote) tail_after_key true _ Hquote))
    in Hone.
  destruct (match_at App.re_tail (ch_comma :: ws ++ ch_quote :: t)) as [n|] eqn:Hm.
  - unfold match_at in Hm. f_equal.
    now apply (match_items_anchored_length _ _ _ Hm).
  - exfalso. revert Hm. unfold match_at. rewrite re_tail_items.
    change (at_end App.re_tail) with true.
    rewrite match_items_one. change (is_c ch_comma ch_comma) with true. cbv iota.
    destruct (match_items (Many is_space :: One (is_c ch_quote) :: tail_after_key)
                true (ws ++ ch_quote :: t));
      [cbn [option_map]; congruence | now elim Hone].
Qed.

(** It matches at no comma of the complete members. *)
Lemma re_tail_fails_before (post r : str) :
  (forall u, drop_space post = ch_quote :: u -> In ch_quote u) ->
  match_at App.re_tail (ch_comma :: post ++ ch_comma :: r) = None.
Proof.
  intros Hok. unfold match_at. rewrite re_tail_items.
  change (at_end App.re_tail) with true.
  rewrite match_items_one. change (is_c ch_comma ch_comma) with true. cbv iota.
  assert (Hquote : forall c, is_space c = true -> is_c ch_quote c = false).
  { intros c Hc. unfold is_c. apply N.eqb_neq. intros <-. discriminate. }
  rewrite (proj1 (space_then_one (is_c ch_quote) tail_after_key true _ Hquote));
    [reflexivity|].
  rewrite drop_space_app by reflexivity.
  destruct (drop_space post) as [|c u] eqn:Hd; cbn [app].
  - rewrite match_items_one. reflexivity.
  - rewrite match_items_one.
    destruct (is_c ch_quote c) eqn:Hc; [|reflexivity].
    unfold is_c in Hc. apply N.eqb_eq in Hc. subst c.
    destruct (in_split _ _ (Hok u eq_refl)) as [a [b ->]].
    rewrite <- app_assoc. cbn [app].
    unfold tail_after_key.
    rewrite (not_quote_then_reject _ ch_comma a (b ++ ch_comma :: r)).
    + reflexivity.
    + apply (tail_after_key_rejects ch_comma). now left.
    + apply in_or_app. right. now left.
Qed.

Lemma replace_first_eq (re : regex) (s : str) :
  replace_first re s
  = match match_at re s with
    | Some n => skipn n s
    | None => match s with
              | [] => []
              | c :: t => c :: replace_first re t
              end
    end.
Proof. destruct s; reflexivity. Qed.

(** The leftmost match is the one that is removed. *)
Lemma replace_first_at (re : regex) (suf : str) (n : nat) :
  match_at re suf = Some n ->
  forall pre,
    (forall p1 c p2, pre = p1 ++ c :: p2 -> match_at re (c :: p2 ++ suf) = None) ->
    replace_first re (pre ++ suf) = pre ++ skipn n suf.
Proof.
  intros Hm. induction pre as [|c pre IH]; intros Hpre.
  - cbn [app]. now rewrite replace_first_eq, Hm.
  - cbn [app]. rewrite replace_first_eq.
    rewrite (Hpre [] c pre eq_refl). f_equal. apply IH.
    intros p1 c' p2 ->. apply (Hpre (c :: p1) c' p2). reflexivity.
Qed.

Lemma replace_all_no_fence (re : regex) (x : str) :
  App.is_fence_pattern re -> includes (lit "```") x = false ->
  replace_all re x = x.
Proof.
  intros Hre. unfold replace_all.
  induction x as [|a x IH]; intros Hinc; [reflexivity|].
  cbn [includes] in Hinc. apply orb_false_elim in Hinc as [Hhead Hinc].
  cbn [replace_all_from].
  destruct (match_at re (a :: x)) as [n|] eqn:Hm.
  - apply (fence_match_starts re _ n Hre) in Hm. congruence.
  - f_equal. now apply IH.
Qed.

Lemma trim_keep (a b : char) (x : str) :
  is_space a = false -> is_space b = false ->
  trim (a :: x ++ [b]) = a :: x ++ [b].
Proof.
  intros Ha Hb. unfold trim. cbn [drop_space]. rewrite Ha.
  change (a :: x ++ [b]) with ((a :: x) ++ [b]).
  rewrite rev_app_distr. cbn [rev app drop_space]. rewrite Hb.
  change (b :: rev x ++ [a]) with ([b] ++ rev (a :: x)).
  rewrite rev_app_distr, rev_involutive. reflexivity.
Qed.

Lemma count_char_cons (c a : char) (x : str) :
  count_char c (a :: x)
  = ((if N.eqb c a then 1 else 0) + count_char c x)%Z.
Proof.
  unfold count_char, str, char in *. cbn [filter].
  destruct (N.eqb c a); cbn [length]; lia.
Qed.

Lemma count_char_app (c : char) (x y : str) :
  count_char c (x ++ y) = (count_char c x + count_char c y)%Z.
Proof.
  unfold count_char, str, char in *. rewrite filter_app, length_app. lia.
Qed.

Lemma count_char_absent (c : char) (x : str) :
  ~ In c x -> count_char c x = 0%Z.
Proof.
  induction x as [|a x IH]; intros Hx; [reflexivity|].
  rewrite count_char_cons, IH by (intros H; apply Hx; now right).
  destruct (N.eqb c a) eqn:Hca; [|reflexivity].
  apply N.eqb_eq in Hca. exfalso. apply Hx. now left.
Qed.

(** The repair of a text cut at the top level drops the fragment and
    closes the object. *)
Lemma repair_top_level_cut (body ws t : str) :
  (count_char ch_lbrack body <= count_char ch_rbrack body)%Z ->
  count_char ch_lbrace body = count_char ch_rbrace body ->
  Forall (fun c => is_space c = true) ws ->
  Forall (fun c => ~ In c structural) t ->
  commas_ok body ->
  App.repair (top_level_cut body ws t) = ch_lbrace :: body ++ [ch_rbrace].
Proof.
  intros Hbrack Hbrace Hws Ht Hcommas.
  assert (Hfrag : forall c, In c structural ->
            count_char c (ch_comma :: ws ++ ch_quote :: t)
            = if N.eqb c ch_comma then 1%Z else 0%Z).
  { intros c Hc.
    rewrite count_char_cons, count_char_app, count_char_cons.
    rewrite (count_char_absent c ws), (count_char_absent c t).
    - assert (Hq : N.eqb c ch_quote = false)
        by (cbn [structural In] in Hc;
            destruct Hc as [<-|[<-|[<-|[<-|[<-|[]]]]]]; reflexivity).
      rewrite Hq. destruct (N.eqb c ch_comma); reflexivity.
    - intros H. rewrite Forall_forall in Ht. now apply (Ht c).
    - intros H. rewrite Forall_forall in Hws. apply Hws in H.
      cbn [structural In] in Hc;
        destruct Hc as [<-|[<-|[<-|[<-|[<-|[]]]]]]; discriminate. }
  unfold App.repair, top_level_cut.
  rewrite !count_char_cons, !count_char_app.
  rewrite !Hfrag by (cbn [structural In]; tauto).
  change (N.eqb ch_lbrack ch_lbrace) with false.
  change (N.eqb ch_rbrack ch_lbrace) with false.
  change (N.eqb ch_lbrace ch_lbrace) with true.
  change (N.eqb ch_rbrace ch_lbrace) with false.
  change (N.eqb ch_lbrack ch_comma) with false.
  change (N.eqb ch_rbrack ch_comma) with false.
  change (N.eqb ch_lbrace ch_comma) with false.
  change (N.eqb ch_rbrace ch_comma) with false.
  cbv iota.
  replace (Z.to_nat (Z.max 0 (0 + (count_char ch_lbrack body + 0)
                              - (0 + (count_char ch_rbrack body + 0)))))
    with 0 by lia.
  replace (Z.to_nat (Z.max 0 (1 + (count_char ch_lbrace body + 0)
                              - (0 + (count_char ch_rbrace body + 0)))))
    with 1 by lia.
  cbn [repeat app].
  change (ch_lbrace :: body ++ ch_comma :: ws ++ ch_quote :: t)
    with ((ch_lbrace :: body) ++ ch_comma :: ws ++ ch_quote :: t).
  rewrite (replace_first_at App.re_tail _ _ (re_tail_matches_fragment ws t Hws Ht)).
  - rewrite skipn_all. rewrite app_nil_r. reflexivity.
  - intros p1 c p2 Hsplit.
    destruct (N.eqb c ch_comma) eqn:Hc.
    + apply N.eqb_eq in Hc. subst c.
      destruct p1 as [|b p1]; [discriminate|].
      injection Hsplit as _ Hbody.
      apply re_tail_fails_before. intros u Hu.
      exact (Hcommas p1 p2 u Hbody Hu).
    + unfold match_at. rewrite re_tail_items, match_items_one.
      unfold is_c. rewrite N.eqb_sym, Hc. reflexivity.
Qed.

(** A text cut inside the value of the first member has no comma for the
    pattern to match at; the repair appends a brace after the open string
    and [extractJSON] throws. *)
Lemma extractJSON_cut_in_first_member_throws :
  App.find_close 0 0 cut_in_first_member = None
  /\ App.repair cut_in_first_member = qlit "{'invoiceNo':'A}"
  /\ App.extractJSON cut_in_first_member = Throw JsSyntaxError.
Proof. repeat split; vm_compute; reflexivity. Qed.

(** The same for a text that does not end in white space, which [trim]
    leaves as it is. *)
Lemma extractJSON_repairs_trimmed_cut (body ws t : str) (v : json) :
  JSON_parse (ch_lbrace :: body ++ [ch_rbrace]) = Ok v ->
  App.find_close 0 0 (top_level_cut body ws t) = None ->
  includes (lit "```") (top_level_cut body ws t) = false ->
  (count_char ch_lbrack body <= count_char ch_rbrack body)%Z ->
  count_char ch_lbrace body = count_char ch_rbrace body ->
  commas_ok body ->
  Forall (fun c => is_space c = true) ws ->
  Forall (fun c => ~ In c structural) t ->
  (forall t0 c, t = t0 ++ [c] -> is_space c = false) ->
  App.extractJSON (top_level_cut body ws t) = Ok v.
Proof.
  intros Hv Hscan Hfence Hbrack Hbrace Hcommas Hws Ht Hlast.
  unfold App.extractJSON.
  rewrite (replace_all_no_fence App.re_fence_json) by (auto; now left).
  rewrite (replace_all_no_fence App.re_fence) by (auto; now right).
  assert (Htrim : trim (top_level_cut body ws t) = top_level_cut body ws t).
  { unfold top_level_cut.
    destruct (exists_last (l := ch_quote :: t)) as [t0 [c Hc]]; [discriminate|].
    assert (Hsp : is_space c = false).
    { destruct t0 as [|q t0]; cbn [app] in Hc.
      - injection Hc as <- _. reflexivity.
      - injection Hc as _ Hc. exact (Hlast t0 c Hc). }
    rewrite Hc.
    replace (body ++ ch_comma :: ws ++ t0 ++ [c])
      with ((body ++ ch_comma :: ws ++ t0) ++ [c])
      by (rewrite <- !app_assoc; cbn [app]; now rewrite <- app_assoc).
    now apply trim_keep. }
  rewrite Htrim.
  assert (Hidx : index_of ch_lbrace (top_level_cut body ws t) = Some 0)
    by reflexivity.
  rewrite Hidx. cbn [skipn]. rewrite Hscan.
  now rewrite repair_top_level_cut.
Qed.

Lemma drop_space_split (s : str) :
  exists sp, s = sp ++ drop_space s /\ Forall (fun c => is_space c = true) sp.
Proof.
  induction s as [|c s [sp [IH Hsp]]]; [exists []; split; [reflexivity|constructor]|].
  cbn [drop_space]. destruct (is_space c) eqn:Hc.
  - exists (c :: sp). split; [cbn; now f_equal | now constructor].
  - exists []. split; [reflexivity | constructor].
Qed.

Lemma drop_space_idem (s : str) (c : char) (r : str) :
  drop_space s = c :: r -> is_space c = false.
Proof.
  induction s as [|a s IH]; cbn [drop_space]; [discriminate|].
  destruct (is_space a) eqn:Ha; [exact IH|].
  intros H. injection H as <- _. exact Ha.
Qed.

Lemma drop_space_twice (s : str) : drop_space (drop_space s) = drop_space s.
Proof.
  induction s as [|a s IH]; [reflexivity|]. cbn [drop_space].
  destruct (is_space a) eqn:Ha; [exact IH|]. cbn [drop_space]. now rewrite Ha.
Qed.

Lemma trim_top_level_cut (body ws t : str) :
  trim (top_level_cut body ws t)
  = top_level_cut body ws (rev (drop_space (rev t))).
Proof.
  assert (Hsplit : forall u, top_level_cut body ws u
                   = (ch_lbrace :: body ++ ch_comma :: ws) ++ ch_quote :: u).
  { intros u. unfold top_level_cut. cbn [app]. rewrite <- app_assoc. reflexivity. }
  rewrite !Hsplit. unfold trim. cbn [app drop_space].
  change (is_space ch_lbrace) with false. cbv iota.
  change (ch_lbrace :: (body ++ ch_comma :: ws) ++ ch_quote :: t)
    with ((ch_lbrace :: body ++ ch_comma :: ws) ++ ch_quote :: t).
  rewrite rev_app_distr. cbn [rev]. rewrite <- app_assoc. cbn [app].
  rewrite drop_space_app by reflexivity.
  rewrite rev_app_distr. cbn [rev].
  rewrite rev_app_distr, rev_involutive. cbn [rev app].
  rewrite <- app_assoc. reflexivity.
Qed.

Lemma starts_with_app (p x y : str) :
  starts_with p x = true -> starts_with p (x ++ y) = true.
Proof.
  revert x. induction p as [|a p IH]; intros [|b x]; cbn; try congruence.
  intros H. apply andb_prop in H as [-> H]. now apply IH.
Qed.

Lemma includes_app_false (p x y : str) :
  includes p (x ++ y) = false -> includes p x = false.
Proof.
  induction x as [|a x IH]; cbn [app].
  - destruct p; [|reflexivity]. destruct y; discriminate.
  - cbn [includes]. intros H. apply orb_false_elim in H as [Hs Hi].
    rewrite (IH Hi), orb_false_r.
    destruct (starts_with p (a :: x)) eqn:Hp; [|reflexivity].
    apply (starts_with_app _ _ y) in Hp. cbn [app] in Hp. congruence.
Qed.

(** A cut the repair does recover: a completion cut at the top level of
    the object, after at least one complete member: an opening brace,
    complete members with their brackets and braces balanced, a comma,
    and a fragment made of white space, the opening quote of a key and
    characters without structure, where every comma of the complete
    members that is followed, after white space, by a double quote has a
    second double quote after it ([commas_ok]: the pattern then finds no
    earlier comma to strip at).  When the scan finds no closing brace,
    [extractJSON] strips the fragment, appends the closing brace and
    returns the object of the complete members. *)
Lemma extractJSON_repairs_top_level_cut (body ws t : str) (v : json) :
  JSON_parse (ch_lbrace :: body ++ [ch_rbrace]) = Ok v ->
  App.find_close 0 0 (top_level_cut body ws t) = None ->
  includes (lit "```") (top_level_cut body ws t) = false ->
  (count_char ch_lbrack body <= count_char ch_rbrack body)%Z ->
  count_char ch_lbrace body = count_char ch_rbrace body ->
  commas_ok body ->
  Forall (fun c => is_space c = true) ws ->
  Forall (fun c => ~ In c structural) t ->
  App.extractJSON (top_level_cut body ws t) = Ok v.
Proof.
  intros Hv Hscan Hfence Hbrack Hbrace Hcommas Hws Ht.
  set (t' := rev (drop_space (rev t))).
  destruct (drop_space_split (rev t)) as [sp [Hsplit Hsp]].
  assert (Ht' : t = t' ++ rev sp).
  { unfold t'. rewrite <- rev_app_distr, <- Hsplit. now rewrite rev_involutive. }
  assert (Hcut : top_level_cut body ws t = top_level_cut body ws t' ++ rev sp).
  { unfold top_level_cut. rewrite Ht'. cbn [app].
    rewrite <- !app_assoc. cbn [app]. now rewrite <- app_assoc. }
  assert (Hsame : App.extractJSON (top_level_cut body ws t)
                  = App.extractJSON (top_level_cut body ws t')).
  { unfold App.extractJSON.
    rewrite !(replace_all_no_fence App.re_fence_json), !(replace_all_no_fence App.re_fence);
      try (now left); try (now right); try exact Hfence;
      try (apply (includes_app_false _ _ (rev sp)); now rewrite <- Hcut).
    assert (Htrim : trim (top_level_cut body ws t) = trim (top_level_cut body ws t')).
    { rewrite !trim_top_level_cut. fold t'. f_equal. unfold t'.
      now rewrite rev_involutive, drop_space_twice. }
    now rewrite Htrim. }
  rewrite Hsame.
  apply extractJSON_repairs_trimmed_cut; try assumption.
  - destruct (App.find_close 0 0 (top_level_cut body ws t')) as [e|] eqn:He;
      [|reflexivity].
    apply (find_close_app _ (rev sp)) in He. rewrite <- Hcut in He. congruence.
  - apply (includes_app_false _ _ (rev sp)). now rewrite <- Hcut.
  - rewrite Forall_forall in *. intros c Hc. apply Ht.
    rewrite Ht'. apply in_or_app. now left.
  - intros t0 c Hc. unfold t' in Hc.
    assert (Hr : drop_space (rev t) = c :: rev t0).
    { rewrite <- (rev_involutive (drop_space (rev t))), Hc.
      now rewrite rev_app_distr. }
    exact (drop_space_idem _ _ _ Hr).
Qed.

(** The repair of a completion cut inside the value of its second
    member. *)
Lemma extractJSON_repairs_top_level_cut_witness :
  App.extractJSON cut_in_second_member
  = Ok (JObj [(lit "invoiceNo", JStr (lit "A1"))]).
Proof.
  apply (extractJSON_repairs_top_level_cut (qlit "'invoiceNo':'A1'") []
           (qlit "amount':'4")).
  - vm_compute. reflexivity.
  - vm_compute. reflexivity.
  - vm_compute. reflexivity.
  - vm_compute. discriminate.
  - vm_compute. reflexivity.
  - intros pre post u Hsplit.
    assert (H : In ch_comma (qlit "'invoiceNo':'A1'"))
      by (rewrite Hsplit; apply in_or_app; right; now left).
    vm_compute in H. intuition discriminate.
  - constructor.
  - vm_compute. repeat constructor; intuition discriminate.
Defined.

(** ** What the parser returns is an object *)

Lemma rests_on_object_cons (f : frame) (stk : list frame) :
  rests_on_object stk -> rests_on_object (f :: stk).
Proof.
  intros [above [m [k ->]]]. now exists (f :: above), m, k.
Qed.

Lemma rests_on_object_tail (acc : list json) (stk : list frame) :
  rests_on_object (FArr acc :: stk) -> rests_on_object stk.
Proof.
  intros [[|f above] [m [k H]]]; [discriminate|].
  injection H as _ ->. now exists above, m, k.
Qed.

Lemma rests_on_object_head (m : list (str * json)) (k : str) (stk : list frame)
    (m' : list (str * json)) (k' : str) :
  rests_on_object (FObj m k :: stk) -> rests_on_object (FObj m' k' :: stk).
Proof.
  intros [[|f above] [m0 [k0 H]]].
  - injection H as _ _ ->. now exists [], m', k'.
  - injection H as _ ->. now exists (FObj m' k' :: above), m0, k0.
Qed.


Lemma push_value_object_state (v : json) (stk : list frame) :
  rests_on_object stk -> object_state (fst (push_value v stk)) (snd (push_value v stk)).
Proof.
  intros H. destruct stk as [|[acc|m k] stk]; cbn.
  - destruct H as [[|? ?] [? [? H]]]; discriminate.
  - left. split; [|discriminate].
    apply rests_on_object_cons. now apply rests_on_object_tail in H.
  - left. split; [|discriminate]. now apply (rests_on_object_head m k).
Qed.

Lemma step_object_state (md md' : mode) (stk stk' : list frame) (t : token) :
  rests_on_object stk -> (forall v, md <> MDone v) ->
  step md stk t = Some (md', stk') ->
  object_state md' stk'.
Proof.
  intros Hstk Hmd.
  assert (Hpush : forall v, Some (push_value v stk) = Some (md', stk') ->
            object_state md' stk').
  { intros v H. injection H as H.
    pose proof (push_value_object_state v stk Hstk) as Hp.
    now rewrite H in Hp. }
  assert (Hstart : start_value t stk = Some (md', stk') -> object_state md' stk').
  { unfold start_value. destruct t; cbn [scalar_of]; try discriminate;
      try apply Hpush;
      intros H; injection H as <- <-; left; split;
        try discriminate; now apply rests_on_object_cons. }
  assert (Hclose_a : close_array stk = Some (md', stk') -> object_state md' stk').
  { unfold close_array. destruct stk as [|[acc|m k] stk0]; try discriminate.
    intros H. injection H as H.
    pose proof (push_value_object_state (JArr (rev acc)) stk0
                  (rests_on_object_tail _ _ Hstk)) as Hp.
    now rewrite H in Hp. }
  assert (Hclose_o : close_object stk = Some (md', stk') -> object_state md' stk').
  { unfold close_object. destruct stk as [|[acc|m k] stk0]; try discriminate.
    intros H. injection H as H.
    destruct stk0 as [|f stk1].
    - cbn in H. injection H as <- <-. right. split; [reflexivity|]. now exists m.
    - assert (Hr : rests_on_object (f :: stk1)).
      { destruct Hstk as [[|? above] [m0 [k0 H0]]]; [discriminate|].
        injection H0 as _ ->. now exists above, m0, k0. }
      pose proof (push_value_object_state (JObj m) (f :: stk1) Hr) as Hp.
      now rewrite H in Hp. }
  assert (Hkey : forall k, set_key k stk = Some (md', stk') -> object_state md' stk').
  { intros k. unfold set_key. destruct stk as [|[acc|m k0] stk0]; try discriminate.
    intros H. injection H as <- <-. left. split; [|discriminate].
    now apply (rests_on_object_head m k0). }
  destruct md; cbn [step].
  - exact Hstart.
  - destruct t; auto.
  - destruct t; try discriminate; [exact Hclose_o | apply Hkey].
  - destruct t; try discriminate. apply Hkey.
  - destruct t; try discriminate.
    intros H. injection H as <- <-. left. split; [exact Hstk | discriminate].
  - destruct t; try discriminate; [exact Hclose_o | exact Hclose_a |].
    destruct stk as [|[acc|m k] stk0]; try discriminate;
      intros H; injection H as <- <-; left; (split; [exact Hstk | discriminate]).
  - discriminate.
Qed.

Lemma run_object_state (toks : list token) :
  forall md stk v, object_state md stk -> run md stk toks = Some v ->
    exists m, v = JObj m.
Proof.
  induction toks as [|t toks IH]; intros md stk v Hst; cbn [run].
  - destruct Hst as [[_ Hmd] | [_ [m ->]]].
    + destruct md; try discriminate. now elim (Hmd v0).
    + intros H. injection H as <-. now exists m.
  - destruct Hst as [[Hstk Hmd] | [-> [m ->]]]; [|discriminate].
    destruct (step md stk t) as [[md' stk']|] eqn:Hstep; [|discriminate].
    apply IH. exact (step_object_state _ _ _ _ _ Hstk Hmd Hstep).
Qed.

(** [JSON.parse] of a text that begins with an opening brace returns an
    object or throws. *)
Lemma JSON_parse_brace (r : str) (v : json) :
  JSON_parse (ch_lbrace :: r) = Ok v -> exists m, v = JObj m.
Proof.
  unfold JSON_parse. cbn [lex_from].
  change (is_json_ws ch_lbrace) with false. cbv iota.
  change (token_at (ch_lbrace :: r)) with (Some (TLBrace, 1)). cbv iota.
  destruct (lex_from 0 r) as [toks|]; [|discriminate].
  cbn [run step start_value].
  destruct (run MFirstKey [FObj [] []] toks) as [v'|] eqn:Hrun; [|discriminate].
  intros H. injection H as <-.
  apply (run_object_state toks MFirstKey [FObj [] []]); [|exact Hrun].
  left. split; [now exists [], [], [] | discriminate].
Qed.

Lemma index_of_skipn (c : char) (s : str) (i : nat) :
  index_of c s = Some i -> exists r, skipn i s = c :: r.
Proof.
  revert i. induction s as [|x s IH]; intros i; cbn [index_of]; [discriminate|].
  destruct (N.eqb x c) eqn:Hx.
  - intros H. injection H as <-. apply N.eqb_eq in Hx. subst. now exists s.
  - destruct (index_of c s) as [j|]; [|discriminate].
    intros H. injection H as <-. cbn [skipn]. now apply IH.
Qed.

Lemma find_close_ge (s : str) :
  forall d i e, App.find_close d i s = Some e -> i <= e.
Proof.
  induction s as [|c s IH]; intros d i e; cbn [App.find_close]; [discriminate|].
  destruct (N.eqb c ch_lbrace); [intros H; apply IH in H; lia|].
  destruct (N.eqb c ch_rbrace); [|intros H; apply IH in H; lia].
  destruct (d - 1 =? 0)%Z; [intros H; injection H as <-; lia|].
  intros H; apply IH in H; lia.
Qed.

(** Whatever [extractJSON] returns is an object, so the coercion that
    follows it in [extractInvoice] always returns. *)
Lemma extractJSON_returns_object (raw : str) (v : json) :
  App.extractJSON raw = Ok v -> exists m, v = JObj m.
Proof.
  unfold App.extractJSON.
  set (text := trim _).
  destruct (index_of ch_lbrace text) as [start|] eqn:Hidx; [|discriminate].
  destruct (index_of_skipn _ _ _ Hidx) as [r Hr].
  destruct (App.find_close 0 start (skipn start text)) as [e|] eqn:He.
  - apply find_close_ge in He. unfold slice. rewrite Hr.
    replace (e + 1 - start) with (S (e - start)) by lia.
    cbn [firstn]. apply JSON_parse_brace.
  - rewrite Hr. unfold App.repair.
    rewrite replace_first_eq.
    assert (Hm : match_at App.re_tail (ch_lbrace :: r) = None) by reflexivity.
    rewrite Hm. cbn [app]. apply JSON_parse_brace.
Qed.

Lemma coerce_after_extractJSON (raw : str) (v : json) :
  App.extractJSON raw = Ok v -> exists inv, App.coerce v = Ok inv.
Proof.
  intros H. apply extractJSON_returns_object in H as [m ->].
  eexists. apply coerce_object.
Qed.

(* ================================================================== *)
(** * Further properties of the proxies *)

Import MoreInputs Checks.

Section ProxyRuns.

Variable E : engine.
Variable fetch : provider_request -> result http_response.
Variable ev : env.
Variable req : request.

Let img := member_text body_imageBase64 req.
Let mt := member_text body_mediaType req.
Let prompt := member_text body_prompt req.

Ltac calls :=
  try (unfold provider_calls; rewrite ?flat_map_app; reflexivity).

Ltac run_handler :=
  cbv [run_M mbind try_catch emit ret throw lift];
  repeat first
    [ rewrite Extract_callAnthropic_run
    | rewrite ApiExtract_callAnthropic_run
    | rewrite callGemini_with_run ].

(** What a run of the handler of src/extract.js is, by the outcome of
    the provider calls it makes. *)
Lemma Extract_handler_cases :
  let anthropic := outcome (Extract.callAnthropic E fetch
                      (key_text (ANTHROPIC_API_KEY ev)) img mt prompt) in
  let gemini := outcome (Extract.callGemini E fetch
                      (key_text (GEMINI_API_KEY ev)) img mt prompt) in
  let g_url := gemini_url (lit "gemini-1.5-flash") ev req in
  (passes_checks ev req = false
   /\ exists r, run_M (Extract.handler E fetch ev req) = (Ok r, [])
                /\ In (code r) [400; 405; 413; 500]%N)
  \/ (passes_checks ev req = true
      /\ exists r tr,
           run_M (Extract.handler E fetch ev req) = (Ok r, tr)
           /\ ((missing (ANTHROPIC_API_KEY ev) = false
                /\ (exists g, anthropic = Ok g /\ r = {| code := 200; value := g |})
                /\ provider_calls tr = [anthropic_url])
               \/ (missing (ANTHROPIC_API_KEY ev) = false
                   /\ missing (GEMINI_API_KEY ev) = true
                   /\ (exists e, anthropic = Throw e
                         /\ r = {| code := 502; value := error_body (message E e) |})
                   /\ provider_calls tr = [anthropic_url])
               \/ (missing (ANTHROPIC_API_KEY ev) = false
                   /\ missing (GEMINI_API_KEY ev) = false
                   /\ (exists e, anthropic = Throw e)
                   /\ (exists g, gemini = Ok g /\ code r = 200%N)
                   /\ provider_calls tr = [anthropic_url; g_url])
               \/ (missing (ANTHROPIC_API_KEY ev) = false
                   /\ missing (GEMINI_API_KEY ev) = false
                   /\ (exists e, anthropic = Throw e)
                   /\ (exists e, gemini = Throw e /\ code r = 502%N)
                   /\ provider_calls tr = [anthropic_url; g_url])
               \/ (missing (ANTHROPIC_API_KEY ev) = true
                   /\ ((exists g, gemini = Ok g /\ r = {| code := 200; value := g |})
                       \/ (exists e, gemini = Throw e
                             /\ r = {| code := 502;
                                       value := error_body (message E e) |}))
                   /\ provider_calls tr = [g_url]))).
Proof.
  unfold Extract.handler, passes_checks, gemini_url, img, mt, prompt, member_text.
  destruct (str_eqb (method req) (lit "POST")); cbn [negb andb];
    [|left; split; [reflexivity|]; eexists; split; [reflexivity|cbn; tauto]].
  destruct (missing (ANTHROPIC_API_KEY ev)) eqn:Ha;
    destruct (missing (GEMINI_API_KEY ev)) eqn:Hg; cbn [negb andb];
    try (left; split; [reflexivity|]; eexists; split; [reflexivity|cbn; tauto]).
  all: destruct (body req) as [b|];
    [|left; split; [reflexivity|]; eexists; split; [reflexivity|cbn; tauto]].
  all: destruct (missing (body_imageBase64 b) || missing (body_mediaType b)
                 || missing (body_prompt b)); cbn [negb andb];
    [left; split; [reflexivity|]; eexists; split; [reflexivity|cbn; tauto]|].
  all: destruct (5120 <? approxKB (key_text (body_imageBase64 b)))%N; cbn [negb andb];
    [left; split; [reflexivity|]; eexists; split; [reflexivity|cbn; tauto]|].
  all: right; split; [reflexivity|]; unfold Extract.callGemini; run_handler.
  - destruct (outcome (callGemini_with _ _ _ _ _ _ _ _)) as [g|e];
      do 2 eexists; (split; [reflexivity|]); do 4 right;
      (split; [reflexivity|]); (split; [|calls]).
    + left. exists g. split; reflexivity.
    + right. exists e. split; reflexivity.
  - destruct (outcome (Extract.callAnthropic _ _ _ _ _ _)) as [g|e] eqn:H1.
    + do 2 eexists. split; [reflexivity|]. left. split; [reflexivity|].
      split; [|calls]. exists g. split; reflexivity.
    + run_handler. do 2 eexists. split; [reflexivity|]. right. left.
      do 2 (split; [reflexivity|]). split; [|calls]. exists e. split; reflexivity.
  - destruct (outcome (Extract.callAnthropic _ _ _ _ _ _)) as [g|e] eqn:H1.
    + do 2 eexists. split; [reflexivity|]. left. split; [reflexivity|].
      split; [|calls]. exists g. split; reflexivity.
    + run_handler.
      destruct (outcome (callGemini_with _ _ _ _ _ _ _ _)) as [g|e2];
        do 2 eexists; (split; [reflexivity|]).
      * do 2 right. left. do 2 (split; [reflexivity|]).
        split; [exists e; reflexivity|]. split; [|calls].
        exists g. split; reflexivity.
      * do 3 right. left. do 2 (split; [reflexivity|]).
        split; [exists e; reflexivity|]. split; [|calls].
        exists e2. split; reflexivity.
Qed.

(** The same for the handler of src/api/extract.js. *)
Lemma ApiExtract_handler_cases :
  let anthropic := outcome (ApiExtract.callAnthropic E fetch
                      (key_text (ANTHROPIC_API_KEY ev)) img mt prompt) in
  let gemini := outcome (ApiExtract.callGemini E fetch
                      (key_text (GEMINI_API_KEY ev)) img mt prompt) in
  let g_url := gemini_url (lit "gemini-3-flash-preview") ev req in
  let gemini_answer r :=
    (exists g, gemini = Ok g /\ r = {| code := 200; value := g |})
    \/ (exists e, gemini = Throw e
          /\ r = {| code := 502;
                    value := error_body (lit "Gemini failed: " ++ message E e) |}) in
  (passes_checks ev req = false
   /\ exists r, run_M (ApiExtract.handler E fetch ev req) = (Ok r, [])
                /\ In (code r) [400; 405; 413; 500]%N)
  \/ (passes_checks ev req = true
      /\ exists r tr,
           run_M (ApiExtract.handler E fetch ev req) = (Ok r, tr)
           /\ ((missing (ANTHROPIC_API_KEY ev) = false
                /\ (exists g, anthropic = Ok g /\ r = {| code := 200; value := g |})
                /\ provider_calls tr = [anthropic_url])
               \/ (missing (ANTHROPIC_API_KEY ev) = false
                   /\ missing (GEMINI_API_KEY ev) = true
                   /\ (exists e, anthropic = Throw e
                         /\ r = {| code := 502;
                                   value := error_body (lit "Anthropic failed: "
                                                          ++ message E e) |})
                   /\ provider_calls tr = [anthropic_url])
               \/ (missing (ANTHROPIC_API_KEY ev) = false
                   /\ missing (GEMINI_API_KEY ev) = false
                   /\ (exists e, anthropic = Throw e)
                   /\ gemini_answer r
                   /\ provider_calls tr = [anthropic_url; g_url])
               \/ (missing (ANTHROPIC_API_KEY ev) = true
                   /\ gemini_answer r
                   /\ provider_calls tr = [g_url]))).
Proof.
  unfold ApiExtract.handler, ApiExtract.try_anthropic, passes_checks, gemini_url,
    img, mt, prompt, member_text.
  destruct (str_eqb (method req) (lit "POST")); cbn [negb andb];
    [|left; split; [reflexivity|]; eexists; split; [reflexivity|cbn; tauto]].
  destruct (missing (ANTHROPIC_API_KEY ev)) eqn:Ha;
    destruct (missing (GEMINI_API_KEY ev)) eqn:Hg; cbn [negb andb];
    try (left; split; [reflexivity|]; eexists; split; [reflexivity|cbn; tauto]).
  all: destruct (body req) as [b|];
    [|left; split; [reflexivity|]; eexists; split; [reflexivity|cbn; tauto]].
  all: destruct (missing (body_imageBase64 b) || missing (body_mediaType b)
                 || missing (body_prompt b)); cbn [negb andb];
    [left; split; [reflexivity|]; eexists; split; [reflexivity|cbn; tauto]|].
  all: destruct (5120 <? approxKB (key_text (body_imageBase64 b)))%N; cbn [negb andb];
    [left; split; [reflexivity|]; eexists; split; [reflexivity|cbn; tauto]|].
  all: right; split; [reflexivity|]; unfold ApiExtract.callGemini; run_handler.
  - destruct (outcome (callGemini_with _ _ _ _ _ _ _ _)) as [g|e];
      do 2 eexists; (split; [reflexivity|]); do 3 right;
      (split; [reflexivity|]); (split; [|calls]).
    + left. exists g. split; reflexivity.
    + right. exists e. split; reflexivity.
  - destruct (outcome (ApiExtract.callAnthropic _ _ _ _ _ _)) as [g|e] eqn:H1.
    + do 2 eexists. split; [reflexivity|]. left. split; [reflexivity|].
      split; [|calls]. exists g. split; reflexivity.
    + run_handler. do 2 eexists. split; [reflexivity|]. right. left.
      do 2 (split; [reflexivity|]). split; [|calls]. exists e. split; reflexivity.
  - destruct (outcome (ApiExtract.callAnthropic _ _ _ _ _ _)) as [g|e] eqn:H1.
    + do 2 eexists. split; [reflexivity|]. left. split; [reflexivity|].
      split; [|calls]. exists g. split; reflexivity.
    + run_handler.
      destruct (outcome (callGemini_with _ _ _ _ _ _ _ _)) as [g|e2];
        do 2 eexists; (split; [reflexivity|]); do 2 right; left;
        do 2 (split; [reflexivity|]);
        (split; [exists e; reflexivity|]); (split; [|calls]).
      * left. exists g. split; reflexivity.
      * right. exists e2. split; reflexivity.
Qed.

End ProxyRuns.

Lemma gemini_url_not_anthropic model ev req : gemini_url model ev req <> anthropic_url.
Proof. unfold gemini_url, anthropic_url. cbn. discriminate. Qed.

(** X1.  Neither two-provider handler ever throws: whatever the request,
    the environment and the network are, and whatever the providers
    answer, the run ends with a response, and its status is one of 200,
    400, 405, 413, 500 and 502. *)
Theorem handlers_always_answer E fetch ev req :
  (exists r tr, run_M (Extract.handler E fetch ev req) = (Ok r, tr)
                /\ In (code r) answer_codes)
  /\ (exists r tr, run_M (ApiExtract.handler E fetch ev req) = (Ok r, tr)
                   /\ In (code r) answer_codes).
Proof.
  split.
  - pose proof (Extract_handler_cases E fetch ev req) as H. cbv zeta in H.
    destruct H as [[_ (r & Hrun & Hc)]|[_ (r & tr & Hrun & Hcase)]].
    + exists r, []. split; [exact Hrun|]. cbn in *. tauto.
    + exists r, tr. split; [exact Hrun|].
      destruct Hcase as [(_ & (g & _ & ->) & _)
                        |[(_ & _ & (e & _ & ->) & _)
                        |[(_ & _ & _ & (g & _ & Hc) & _)
                        |[(_ & _ & _ & (e & _ & Hc) & _)
                        |(_ & [(g & _ & ->)|(e & _ & ->)] & _)]]]];
        cbn in *; try rewrite Hc; tauto.
  - pose proof (ApiExtract_handler_cases E fetch ev req) as H. cbv zeta in H.
    destruct H as [[_ (r & Hrun & Hc)]|[_ (r & tr & Hrun & Hcase)]].
    + exists r, []. split; [exact Hrun|]. cbn in *. tauto.
    + exists r, tr. split; [exact Hrun|].
      destruct Hcase as [(_ & (g & _ & ->) & _)
                        |[(_ & _ & (e & _ & ->) & _)
                        |[(_ & _ & _ & [(g & _ & ->)|(e & _ & ->)] & _)
                        |(_ & [(g & _ & ->)|(e & _ & ->)] & _)]]];
        cbn; tauto.
Qed.

(** X2.  A provider is called exactly when the request passes the four
    checks (POST, a key configured, the three members present, the image
    within the size guard): a request that fails one reaches no provider,
    one that passes them all reaches at least one.  This holds of both
    two-provider handlers. *)
Theorem providers_called_iff_checks_pass E fetch ev req r tr :
  run_M (Extract.handler E fetch ev req) = (r, tr)
  \/ run_M (ApiExtract.handler E fetch ev req) = (r, tr) ->
  (provider_calls tr <> [] <-> passes_checks ev req = true).
Proof.
  intros [Hrun|Hrun].
  - pose proof (Extract_handler_cases E fetch ev req) as H. cbv zeta in H.
    destruct H as [[Hc (r' & Hrun' & _)]|[Hc (r' & tr' & Hrun' & Hcase)]];
      rewrite Hrun in Hrun'; injection Hrun' as -> ->; rewrite Hc.
    + cbn. split; [intros H; now elim H|discriminate].
    + split; [reflexivity|intros _].
      destruct Hcase as [(_ & _ & ->)|[(_ & _ & _ & ->)|[(_ & _ & _ & _ & ->)
                        |[(_ & _ & _ & _ & ->)|(_ & _ & ->)]]]]; discriminate.
  - pose proof (ApiExtract_handler_cases E fetch ev req) as H. cbv zeta in H.
    destruct H as [[Hc (r' & Hrun' & _)]|[Hc (r' & tr' & Hrun' & Hcase)]];
      rewrite Hrun in Hrun'; injection Hrun' as -> ->; rewrite Hc.
    + cbn. split; [intros H; now elim H|discriminate].
    + split; [reflexivity|intros _].
      destruct Hcase as [(_ & _ & ->)|[(_ & _ & _ & ->)|[(_ & _ & _ & _ & ->)
                        |(_ & _ & ->)]]]; discriminate.
Qed.

Lemma providers_called_iff_checks_pass_witness :
  provider_calls
    (snd (run_M (Extract.handler Sample.sample_engine net_fallback both_keys post)))
  <> []
  <-> passes_checks both_keys post = true.
Proof.
  apply (providers_called_iff_checks_pass Sample.sample_engine net_fallback
           both_keys post
           (fst (run_M (Extract.handler Sample.sample_engine net_fallback
                          both_keys post)))).
  left. apply surjective_pairing.
Defined.

(** X3.  The providers are called in a fixed order and at most once
    each: the calls of a run are none, Anthropic alone, Gemini alone, or
    Anthropic and then Gemini.  Gemini is never called before Anthropic
    and nobody is called twice. *)
Theorem provider_call_order E fetch ev req :
  In (provider_calls (snd (run_M (Extract.handler E fetch ev req))))
     [[]; [anthropic_url]; [gemini_url (lit "gemini-1.5-flash") ev req];
      [anthropic_url; gemini_url (lit "gemini-1.5-flash") ev req]]
  /\ In (provider_calls (snd (run_M (ApiExtract.handler E fetch ev req))))
        [[]; [anthropic_url]; [gemini_url (lit "gemini-3-flash-preview") ev req];
         [anthropic_url; gemini_url (lit "gemini-3-flash-preview") ev req]].
Proof.
  split.
  - pose proof (Extract_handler_cases E fetch ev req) as H. cbv zeta in H.
    destruct H as [[Hc (r' & Hrun' & _)]|[Hc (r' & tr' & Hrun' & Hcase)]];
      rewrite Hrun'; cbn [snd].
    + left. reflexivity.
    + destruct Hcase as [(_ & _ & ->)|[(_ & _ & _ & ->)|[(_ & _ & _ & _ & ->)
                        |[(_ & _ & _ & _ & ->)|(_ & _ & ->)]]]]; cbn [In]; tauto.
  - pose proof (ApiExtract_handler_cases E fetch ev req) as H. cbv zeta in H.
    destruct H as [[Hc (r' & Hrun' & _)]|[Hc (r' & tr' & Hrun' & Hcase)]];
      rewrite Hrun'; cbn [snd].
    + left. reflexivity.
    + destruct Hcase as [(_ & _ & ->)|[(_ & _ & _ & ->)|[(_ & _ & _ & _ & ->)
                        |(_ & _ & ->)]]]; cbn [In]; tauto.
Qed.

(** X4.  A provider whose key is not configured is never called, by
    either handler: a call to Anthropic shows that ANTHROPIC_API_KEY is
    set, a call to Gemini that GEMINI_API_KEY is. *)
Theorem unconfigured_provider_not_called E fetch ev req r tr model :
  (run_M (Extract.handler E fetch ev req) = (r, tr)
   /\ model = lit "gemini-1.5-flash")
  \/ (run_M (ApiExtract.handler E fetch ev req) = (r, tr)
      /\ model = lit "gemini-3-flash-preview") ->
  (In anthropic_url (provider_calls tr) -> missing (ANTHROPIC_API_KEY ev) = false)
  /\ (In (gemini_url model ev req) (provider_calls tr) ->
      missing (GEMINI_API_KEY ev) = false).
Proof.
  pose proof (gemini_url_not_anthropic model ev req) as Hne.
  intros [[Hrun ->]|[Hrun ->]].
  - pose proof (Extract_handler_cases E fetch ev req) as H. cbv zeta in H.
    destruct H as [[Hc (r' & Hrun' & _)]|[Hc (r' & tr' & Hrun' & Hcase)]];
      rewrite Hrun in Hrun'; injection Hrun' as -> ->.
    + split; intros [].
    + unfold passes_checks in Hc.
      destruct Hcase as [(Ha & _ & ->)|[(Ha & Hg & _ & ->)|[(Ha & Hg & _ & _ & ->)
                        |[(Ha & Hg & _ & _ & ->)|(Ha & _ & ->)]]]];
        rewrite ?Ha, ?Hg in *; cbn [In]; split; try tauto; try congruence;
        intros [?|[]]; try congruence.
      all: destruct (missing (GEMINI_API_KEY ev));
        [cbn [andb negb] in Hc; rewrite andb_false_r in Hc; discriminate|reflexivity].
  - pose proof (ApiExtract_handler_cases E fetch ev req) as H. cbv zeta in H.
    destruct H as [[Hc (r' & Hrun' & _)]|[Hc (r' & tr' & Hrun' & Hcase)]];
      rewrite Hrun in Hrun'; injection Hrun' as -> ->.
    + split; intros [].
    + unfold passes_checks in Hc.
      destruct Hcase as [(Ha & _ & ->)|[(Ha & Hg & _ & ->)|[(Ha & Hg & _ & _ & ->)
                        |(Ha & _ & ->)]]];
        rewrite ?Ha, ?Hg in *; cbn [In]; split; try tauto; try congruence;
        intros [?|[]]; try congruence.
      all: destruct (missing (GEMINI_API_KEY ev));
        [cbn [andb negb] in Hc; rewrite andb_false_r in Hc; discriminate|reflexivity].
Qed.

Lemma unconfigured_provider_not_called_witness :
  let tr := snd (run_M (Extract.handler Sample.sample_engine net_fallback
                          gemini_only post)) in
  (In anthropic_url (provider_calls tr) ->
   missing (ANTHROPIC_API_KEY gemini_only) = false)
  /\ (In (gemini_url (lit "gemini-1.5-flash") gemini_only post) (provider_calls tr) ->
      missing (GEMINI_API_KEY gemini_only) = false).
Proof.
  apply (unconfigured_provider_not_called Sample.sample_engine net_fallback
           gemini_only post
           (fst (run_M (Extract.handler Sample.sample_engine net_fallback
                          gemini_only post)))).
  left. split; [apply surjective_pairing|reflexivity].
Defined.

(** X5.  When Anthropic answers, its answer is final: the handler
    responds 200 with exactly what the Anthropic client returned, and
    Gemini is not called although its key may be configured.  This holds
    of both two-provider handlers. *)
Theorem anthropic_success_is_final E fetch ev req :
  passes_checks ev req = true ->
  missing (ANTHROPIC_API_KEY ev) = false ->
  (forall g,
     outcome (Extract.callAnthropic E fetch (key_text (ANTHROPIC_API_KEY ev))
                (member_text body_imageBase64 req) (member_text body_mediaType req)
                (member_text body_prompt req)) = Ok g ->
     exists tr, run_M (Extract.handler E fetch ev req)
                = (Ok {| code := 200; value := g |}, tr)
                /\ provider_calls tr = [anthropic_url])
  /\ (forall g,
        outcome (ApiExtract.callAnthropic E fetch (key_text (ANTHROPIC_API_KEY ev))
                   (member_text body_imageBase64 req) (member_text body_mediaType req)
                   (member_text body_prompt req)) = Ok g ->
        exists tr, run_M (ApiExtract.handler E fetch ev req)
                   = (Ok {| code := 200; value := g |}, tr)
                   /\ provider_calls tr = [anthropic_url]).
Proof.
  intros Hc Ha. split; intros g Hg.
  - pose proof (Extract_handler_cases E fetch ev req) as H. cbv zeta in H.
    destruct H as [[Hc' _]|[_ (r & tr & Hrun & Hcase)]]; [congruence|].
    exists tr.
    destruct Hcase as [(_ & (g' & Hg' & ->) & Hcalls)
                      |[(_ & _ & (e & He & _) & _)
                      |[(_ & _ & (e & He) & _)
                      |[(_ & _ & (e & He) & _)
                      |(Ha' & _)]]]]; try congruence.
    split; [|exact Hcalls]. rewrite Hrun. congruence.
  - pose proof (ApiExtract_handler_cases E fetch ev req) as H. cbv zeta in H.
    destruct H as [[Hc' _]|[_ (r & tr & Hrun & Hcase)]]; [congruence|].
    exists tr.
    destruct Hcase as [(_ & (g' & Hg' & ->) & Hcalls)
                      |[(_ & _ & (e & He & _) & _)
                      |[(_ & _ & (e & He) & _)
                      |(Ha' & _)]]]; try congruence.
    split; [|exact Hcalls]. rewrite Hrun. congruence.
Qed.

Lemma anthropic_success_is_final_witness :
  exists g tr,
    run_M (Extract.handler Sample.sample_engine net_anthropic_ok both_keys post)
    = (Ok {| code := 200; value := g |}, tr)
    /\ provider_calls tr = [anthropic_url].
Proof.
  eexists.
  apply (proj1 (anthropic_success_is_final Sample.sample_engine net_anthropic_ok
                  both_keys post eq_refl eq_refl)).
  vm_compute. reflexivity.
Defined.

Lemma member_ok (k : str) (d : json) (v : option json) :
  App.member k d = Ok v -> get k d = v.
Proof. unfold App.member. destruct d; intros H; congruence. Qed.

Section ClientAnswers.

Variable E : engine.
Variable fetch : provider_request -> result http_response.

(** X6.  A provider client of src/extract.js reports success only for an
    answer that arrived, has a 2xx status and parses as JSON; the result
    then has the one shape [{provider, content}], with a non-empty
    [content] from Anthropic and a single non-empty text segment from
    Gemini.  A failed fetch, a status outside 200..299, a body that is
    not JSON or an empty completion is never passed on as a result. *)
Theorem client_success_needs_ok_answer (k img mt p : str) (g : json) :
  (outcome (Extract.callAnthropic E fetch k img mt p) = Ok g ->
   exists res data c,
     fetch (anthropic_request (lit "claude-sonnet-4-20250514") k img mt p) = Ok res
     /\ ok res = true
     /\ JSON_parse (text res) = Ok data
     /\ get (lit "content") data = Some c
     /\ truthy_opt (get (lit "length") c) = true
     /\ g = provider_result (lit "anthropic") c)
  /\ (outcome (Extract.callGemini E fetch k img mt p) = Ok g ->
      exists res data t,
        fetch (gemini_request (lit "gemini-1.5-flash") k img mt p) = Ok res
        /\ ok res = true
        /\ JSON_parse (text res) = Ok data
        /\ gemini_text data = Some t
        /\ truthy t = true
        /\ g = provider_result (lit "gemini") (text_content t)).
Proof.
  split.
  - unfold Extract.callAnthropic.
    cbv [outcome run_M mbind emit lift throw ret fst].
    destruct (fetch _) as [res|] eqn:Hf; [|discriminate].
    destruct (JSON_parse _) as [data|] eqn:Hj; [|discriminate].
    destruct (ok res) eqn:Hok; [|discriminate]. cbn [negb].
    destruct (App.member (lit "content") data) as [[c|]|] eqn:Hm;
      try discriminate.
    destruct (truthy_opt (get (lit "length") c)) eqn:Hl; [|discriminate].
    intros H. injection H as <-.
    exists res, data, c. repeat split; try assumption.
    apply member_ok; exact Hm.
  - unfold Extract.callGemini, callGemini_with.
    cbv [outcome run_M mbind emit lift throw ret fst].
    destruct (fetch _) as [res|] eqn:Hf; [|discriminate].
    destruct (JSON_parse _) as [data|] eqn:Hj; [|discriminate].
    destruct (ok res) eqn:Hok; [|discriminate]. cbn [negb].
    unfold pick. destruct (gemini_text data) as [t|] eqn:Hg; [|discriminate].
    destruct (truthy t) eqn:Ht; [|discriminate].
    intros H. injection H as <-.
    exists res, data, t. repeat split; assumption.
Qed.

(** X7.  The Anthropic client of src/api/extract.js, beyond these,
    rejects the answers that carry an error under a 2xx status: a result
    means that the answer had no truthy [error] member and that its
    [stop_reason] was not the string [error]. *)
Theorem ApiExtract_callAnthropic_rejects_error_answers (k img mt p : str) (g : json) :
  outcome (ApiExtract.callAnthropic E fetch k img mt p) = Ok g ->
  exists res data c,
    fetch (anthropic_request (lit "claude-haiku-4-5-20251001") k img mt p) = Ok res
    /\ ok res = true
    /\ JSON_parse (text res) = Ok data
    /\ pick (get (lit "error") data) = None
    /\ get (lit "stop_reason") data <> Some (JStr (lit "error"))
    /\ get (lit "content") data = Some c
    /\ truthy_opt (get (lit "length") c) = true
    /\ g = provider_result (lit "anthropic") c.
Proof.
  unfold ApiExtract.callAnthropic.
  cbv [outcome run_M mbind emit lift throw ret fst].
  destruct (fetch _) as [res|] eqn:Hf; [|discriminate].
  destruct (JSON_parse _) as [data|] eqn:Hj; [|discriminate].
  destruct (ok res) eqn:Hok; [|discriminate]. cbn [negb].
  destruct (App.member (lit "error") data) as [err|] eqn:Hm; [|discriminate].
  destruct (pick err) eqn:Hp; [discriminate|].
  destruct (ApiExtract.is_error_stop (get (lit "stop_reason") data)) eqn:Hs;
    [discriminate|]. cbn [orb].
  destruct (get (lit "content") data) as [c|] eqn:Hcont;
    [|cbn; discriminate].
  destruct (truthy_opt (get_opt (lit "length") (Some c))) eqn:Hl;
    [|cbn; discriminate].
  cbn [negb]. intros H. injection H as <-.
  exists res, data, c. repeat split; try assumption.
  - apply member_ok in Hm. rewrite Hm. exact Hp.
  - intros Heq. rewrite Heq in Hs. cbn in Hs. discriminate.
  - destruct c; try discriminate; exact Hl.
Qed.

End ClientAnswers.

Lemma client_success_needs_ok_answer_witness :
  exists g res data c,
    net_anthropic_ok (anthropic_request (lit "claude-sonnet-4-20250514")
                        (lit "sk-ant") (lit "AAAA") (lit "image/jpeg") (lit "p"))
    = Ok res
    /\ ok res = true
    /\ JSON_parse (text res) = Ok data
    /\ get (lit "content") data = Some c
    /\ truthy_opt (get (lit "length") c) = true
    /\ g = provider_result (lit "anthropic") c.
Proof.
  eexists.
  apply (proj1 (client_success_needs_ok_answer Sample.sample_engine
                  net_anthropic_ok (lit "sk-ant") (lit "AAAA") (lit "image/jpeg")
                  (lit "p") _)).
  vm_compute. reflexivity.
Defined.

Lemma ApiExtract_callAnthropic_rejects_error_answers_witness :
  exists g res data c,
    net_anthropic_ok (anthropic_request (lit "claude-haiku-4-5-20251001")
                        (lit "sk-ant") (lit "AAAA") (lit "image/jpeg") (lit "p"))
    = Ok res
    /\ ok res = true
    /\ JSON_parse (text res) = Ok data
    /\ pick (get (lit "error") data) = None
    /\ get (lit "stop_reason") data <> Some (JStr (lit "error"))
    /\ get (lit "content") data = Some c
    /\ truthy_opt (get (lit "length") c) = true
    /\ g = provider_result (lit "anthropic") c.
Proof.
  eexists.
  apply (ApiExtract_callAnthropic_rejects_error_answers Sample.sample_engine
           net_anthropic_ok (lit "sk-ant") (lit "AAAA") (lit "image/jpeg")
           (lit "p") _).
  vm_compute. reflexivity.
Defined.

(* ================================================================== *)
(** * Further properties of the browser side *)

(** ** The size of the resized canvas *)

Lemma js_round_ge (x : Q) (z : Z) : (inject_Z z <= x)%Q -> (z <= App.js_round x)%Z.
Proof.
  intros H. rewrite <- (js_round_inject_Z z) at 1. unfold App.js_round.
  apply Qfloor_resp_le. now apply Qplus_le_l.
Qed.

Lemma js_round_Qeq (x y : Q) : (x == y)%Q -> App.js_round x = App.js_round y.
Proof. intros H. unfold App.js_round. now rewrite H. Qed.

Lemma inject_Z_pos (z : Z) : (0 < z)%Z -> (0 < inject_Z z)%Q.
Proof. intros H. unfold Qlt. cbn. lia. Qed.

Lemma inject_Z_nonneg (z : Z) : (0 <= z)%Z -> (0 <= inject_Z z)%Q.
Proof. intros H. unfold Qle. cbn. lia. Qed.

Lemma inject_Z_le (a b : Z) : (a <= b)%Z -> (inject_Z a <= inject_Z b)%Q.
Proof. intros H. unfold Qle. cbn. lia. Qed.

Lemma mult_div_cancel (a b : Z) :
  (0 < b)%Z -> (inject_Z b * (inject_Z a / inject_Z b) == inject_Z a)%Q.
Proof.
  intros Hb. apply Qmult_div_r. intros H0.
  apply inject_Z_pos in Hb. rewrite H0 in Hb. now apply Qlt_irrefl in Hb.
Qed.

(** The scale capped at 1 is not negative and brings the edge it was
    computed from within the limit. *)
Lemma capped_scale (d maxLong : Z) :
  (0 < d)%Z -> (0 <= maxLong)%Z ->
  let s := Qmin (inject_Z maxLong / inject_Z d) 1%Q in
  (0 <= s)%Q /\ (inject_Z d * s <= inject_Z maxLong)%Q.
Proof.
  intros Hd Hm s. split.
  - apply Q.min_glb; [|discriminate].
    apply Qle_shift_div_l; [now apply inject_Z_pos|].
    rewrite Qmult_0_l. now apply inject_Z_nonneg.
  - rewrite <- (mult_div_cancel maxLong d Hd).
    rewrite !(Qmult_comm (inject_Z d)).
    apply Qmult_le_compat_r; [apply Q.le_min_l|].
    apply inject_Z_nonneg. lia.
Qed.

Lemma scale_le (a b : Z) (s : Q) :
  (a <= b)%Z -> (0 <= s)%Q -> (inject_Z a * s <= inject_Z b * s)%Q.
Proof.
  intros Hab Hs. apply Qmult_le_compat_r; [now apply inject_Z_le | exact Hs].
Qed.

(** X8.  A portrait canvas never comes out narrower than the minimum
    width: whatever the limit on the long edge is, the width of the
    output is at least [minWidth] (900 pixels in the first two passes of
    the size-budget loop, 800 in the third). *)
Theorem smartResize_portrait_min_width (w h maxLong minWidth : Z) :
  (0 < w)%Z -> (w < h)%Z ->
  (minWidth <= fst (App.smartResize_dims w h maxLong minWidth))%Z.
Proof.
  intros Hw Hh. unfold App.smartResize_dims.
  assert (Hp : (h >? w)%Z = true) by lia. rewrite Hp. cbn [fst].
  destruct (Qlt_le_dec _ _) as [Hlt|Hge].
  - rewrite (js_round_Qeq _ _ (mult_div_cancel minWidth w Hw)).
    rewrite js_round_inject_Z. lia.
  - now apply js_round_ge.
Qed.

Lemma smartResize_portrait_min_width_witness :
  (900 <= fst (App.smartResize_dims 1000 4000 2000 900))%Z.
Proof. apply smartResize_portrait_min_width; lia. Defined.

(** X9.  The limit on the long edge holds of every landscape or square
    canvas, and of a portrait canvas which the minimum-width rule does
    not touch (it is at least [minWidth] wide, and stays so when its
    height is brought down to [maxLong]): neither edge of the output is
    longer than [maxLong]. *)
Theorem smartResize_long_edge_cap (w h maxLong minWidth : Z) :
  (0 < w)%Z -> (0 < h)%Z -> (0 <= maxLong)%Z ->
  (h <= w)%Z \/ (minWidth <= w /\ minWidth * h <= w * maxLong)%Z ->
  (Z.max (fst (App.smartResize_dims w h maxLong minWidth))
         (snd (App.smartResize_dims w h maxLong minWidth)) <= maxLong)%Z.
Proof.
  intros Hw Hh Hm Hcase. unfold App.smartResize_dims.
  destruct (Z.gtb_spec h w) as [Hp|Hl].
  - destruct Hcase as [Hcase|[Hmin Hprod]]; [lia|].
    destruct (capped_scale h maxLong Hh Hm) as [H0 Hcap].
    destruct (Qlt_le_dec _ _) as [Hlt|Hge].
    + exfalso. apply (Qlt_not_le _ _ Hlt). clear Hlt.
      destruct (Q.min_spec (inject_Z maxLong / inject_Z h) 1) as [[_ ->]|[_ ->]].
      * assert (He : (inject_Z w * (inject_Z maxLong / inject_Z h)
                      == inject_Z (w * maxLong) / inject_Z h)%Q)
          by (rewrite inject_Z_mult; unfold Qdiv; ring).
        rewrite He.
        apply Qle_shift_div_l; [now apply inject_Z_pos|].
        rewrite <- inject_Z_mult. now apply inject_Z_le.
      * rewrite Qmult_1_r. now apply inject_Z_le.
    + cbn [fst snd]. apply Z.max_lub; apply js_round_le.
      * eapply Qle_trans; [|exact Hcap]. apply scale_le; [lia | exact H0].
      * exact Hcap.
  - destruct (capped_scale w maxLong Hw Hm) as [H0 Hcap].
    cbn [fst snd]. apply Z.max_lub; apply js_round_le.
    + exact Hcap.
    + eapply Qle_trans; [|exact Hcap]. apply scale_le; [lia | exact H0].
Qed.

Lemma smartResize_long_edge_cap_witness :
  (Z.max (fst (App.smartResize_dims 4000 3000 2000 900))
         (snd (App.smartResize_dims 4000 3000 2000 900)) <= 2000)%Z.
Proof. apply smartResize_long_edge_cap; lia. Defined.

(** ** The size-budget loop *)

Section Budget.

Variable pixels : Type.
Variable toDataURL_jpeg : App.canvas pixels -> Z -> Z -> Q -> str.
Variable read_image : App.file -> result (App.canvas pixels).
Variable render_pdf : App.file -> result (App.canvas pixels).

Let smartResize := App.smartResize pixels toDataURL_jpeg.

(** X10.  The size-budget loop stops at the first pass whose output is
    within the budget and has three passes at most: the image the
    rasterizer returns is within the budget of 700 KB, or it is the
    output of the last pass (long edge 1600, minimum width 800, quality
    0.60), which is returned whatever its size.  An image over the
    budget is returned rather than reported. *)
Theorem rasterize_within_budget_or_last_pass (f : App.file) (r : App.raster) :
  App.rasterize pixels toDataURL_jpeg read_image render_pdf f = Ok r ->
  App.over_budget (App.base64 r) = false
  \/ exists cv,
       (if str_eqb (App.normalizeMime f) (lit "application/pdf")
        then render_pdf f else read_image f) = Ok cv
       /\ App.base64 r = smartResize cv 1600 800 (60 # 100)%Q.
Proof.
  unfold App.rasterize, App.pdfToImageBase64, App.compressImage, smartResize.
  destruct (str_eqb (App.normalizeMime f) (lit "application/pdf")).
  - destruct (render_pdf f) as [cv|]; cbn [bind]; intros H; [|discriminate].
    injection H as <-. cbn [App.base64].
    destruct (App.over_budget (App.smartResize _ _ cv 2000 900 (85 # 100))) eqn:H1;
      [|rewrite H1; left; exact H1].
    destruct (App.over_budget (App.smartResize _ _ cv 2000 900 (70 # 100))) eqn:H2;
      [|left; exact H2].
    right. exists cv. split; reflexivity.
  - destruct (read_image f) as [cv|]; cbn [bind]; intros H; [|discriminate].
    injection H as <-. cbn [App.base64].
    destruct (App.over_budget (App.smartResize _ _ cv 2000 900 (82 # 100))) eqn:H1;
      [|rewrite H1; left; exact H1].
    destruct (App.over_budget (App.smartResize _ _ cv 2000 900 (65 # 100))) eqn:H2;
      [|left; exact H2].
    right. exists cv. split; reflexivity.
Qed.

End Budget.

Lemma rasterize_within_budget_or_last_pass_witness :
  App.over_budget (lit "AAAA") = false
  \/ exists cv,
       decode_small png_without_type = Ok cv
       /\ lit "AAAA" = App.smartResize unit encode_const cv 1600 800 (60 # 100)%Q.
Proof.
  apply (rasterize_within_budget_or_last_pass unit encode_const decode_small
           decode_fails png_without_type
           {| App.base64 := lit "AAAA"; App.mediaType := lit "image/jpeg" |}).
  vm_compute. reflexivity.
Defined.

(** X11.  The three size limits of the pipeline, in characters of
    base64: the browser's budget of 700 KB admits 955733 characters, the
    guard of the first proxy 6990506 and the guard of the two-provider
    proxies, which compares the rounded number of kilobytes, 6991189.
    So the limits are nested: an image within the browser's budget
    passes every proxy, and an image the first proxy accepts passes the
    later ones. *)
Theorem size_limits (b64 : str) :
  let n := N.of_nat (length b64) in
  (App.over_budget b64 = false <-> n <= 955733)%N
  /\ (ApiExtractFirst.too_large b64 = false <-> n <= 6990506)%N
  /\ ((5120 <? approxKB b64) = false <-> n <= 6991189)%N.
Proof.
  unfold App.over_budget, ApiExtractFirst.too_large, approxKB. cbv zeta.
  split; [|split].
  - rewrite Z.gtb_ltb, Z.ltb_ge. lia.
  - rewrite N.ltb_ge. lia.
  - rewrite N.ltb_ge.
    pose proof (N.div_mod' (3 * N.of_nat (length b64) + 2048) 4096) as Hd.
    pose proof (N.mod_lt (3 * N.of_nat (length b64) + 2048) 4096) as Hm.
    specialize (Hm ltac:(discriminate)).
    set (n := N.of_nat (length b64)) in *. clearbody n.
    set (q := ((3 * n + 2048) / 4096)%N) in *.
    set (m := ((3 * n + 2048) mod 4096)%N) in *. clearbody q m.
    lia.
Qed.

(** ** Extraction of the object *)

Lemma index_of_absent (c : char) (s : str) : ~ In c s -> index_of c s = None.
Proof.
  induction s as [|a s IH]; intros Hs; cbn [index_of]; [reflexivity|].
  destruct (N.eqb a c) eqn:Ha.
  - apply N.eqb_eq in Ha. exfalso. apply Hs. now left.
  - rewrite IH; [reflexivity|]. intros H. apply Hs. now right.
Qed.

Lemma trim_In (c : char) (s : str) : In c (trim s) -> In c s.
Proof.
  unfold trim. intros H. apply in_rev in H. apply drop_space_In in H.
  apply in_rev in H. now apply drop_space_In in H.
Qed.

(** X12.  A completion without an opening brace is reported, not
    parsed: [extractJSON] throws an [Error] whose message is the line
    [No JSON object in response:] followed by an excerpt of the stripped
    completion of at most 300 characters, in which there is still no
    brace.  Stripping the fences never makes a brace appear. *)
Theorem extractJSON_no_brace_error (raw : str) :
  ~ In ch_lbrace raw ->
  exists excerpt,
    App.extractJSON raw
    = Throw (JsError (lit "No JSON object in response:" ++ [ch_nl] ++ excerpt))
    /\ length excerpt <= 300
    /\ ~ In ch_lbrace excerpt.
Proof.
  intros Hraw. unfold App.extractJSON.
  set (text := trim _).
  assert (Htext : ~ In ch_lbrace text).
  { intros H. apply Hraw. unfold text in H.
    apply trim_In in H. unfold replace_all in H.
    now do 2 apply replace_all_from_In in H. }
  rewrite (index_of_absent _ _ Htext).
  exists (slice 0 300 text). split; [reflexivity|]. unfold slice. split.
  - rewrite length_firstn. lia.
  - intros H. apply Htext. cbn [skipn] in H.
    rewrite <- (firstn_skipn (300 - 0) text). apply in_or_app. now left.
Qed.

Lemma extractJSON_no_brace_error_witness :
  exists excerpt,
    App.extractJSON (lit "I cannot read this image.")
    = Throw (JsError (lit "No JSON object in response:" ++ [ch_nl] ++ excerpt))
    /\ length excerpt <= 300
    /\ ~ In ch_lbrace excerpt.
Proof.
  apply extractJSON_no_brace_error.
  vm_compute. intuition discriminate.
Defined.

(** X13.  Extraction and coercion compose: whatever [extractJSON]
    returns is an object (never an array, a string, a number or [null],
    since the text parsed begins at the first brace), so the coercion
    that follows it in [extractInvoice] never throws and yields a form
    with the fourteen fields.  The step can only fail inside
    [extractJSON]. *)
Theorem extractJSON_then_coerce (raw : str) (v : json) :
  App.extractJSON raw = Ok v ->
  exists m inv,
    v = JObj m
    /\ bind (App.extractJSON raw) App.coerce = Ok inv
    /\ map fst (App.form inv) = App.FIELDS.
Proof.
  intros H. destruct (extractJSON_returns_object raw v H) as [m ->].
  exists m. eexists. split; [reflexivity|].
  rewrite H. cbn [bind]. rewrite coerce_object. split; [reflexivity|].
  cbn [App.form]. rewrite map_map. cbn [fst]. apply map_id.
Qed.

Lemma extractJSON_then_coerce_witness :
  exists m inv,
    JObj [(lit "invoiceNo", JStr (lit "A1"))] = JObj m
    /\ bind (App.extractJSON (qlit "{'invoiceNo':'A1'}")) App.coerce = Ok inv
    /\ map fst (App.form inv) = App.FIELDS.
Proof.
  apply (extractJSON_then_coerce (qlit "{'invoiceNo':'A1'}")).
  vm_compute. reflexivity.
Defined.

(** ** What the stripping leaves *)

Lemma many_total (p : char -> bool) (r : str) :
  exists n, match_items [Many p] false r = Some n.
Proof.
  induction r as [|c r [n IH]]; rewrite match_items_many.
  - now exists 0.
  - destruct (p c); [rewrite IH; now exists (S n) | now exists 0].
Qed.

Lemma fence_matches (s : str) :
  starts_with (lit "```") s = true -> exists n, match_at App.re_fence s = Some (S n).
Proof.
  change (lit "```") with [ch_btick; ch_btick; ch_btick].
  destruct s as [|a [|b [|c r]]]; cbn [starts_with]; try discriminate;
    try (rewrite ?andb_false_r; discriminate).
  intros H. apply andb_prop in H as [Ha H]. apply andb_prop in H as [Hb H].
  apply andb_prop in H as [Hc _].
  unfold match_at, App.re_fence. cbn [items at_end].
  rewrite !match_items_one. unfold is_c at 1 2 3. rewrite Ha, Hb, Hc.
  destruct (many_total is_space r) as [n ->]. cbn [option_map]. now eexists.
Qed.

Lemma starts_fence_shift (t : str) :
  starts_with (lit "```") t = true ->
  starts_with (lit "```") (ch_btick :: t) = true.
Proof.
  change (lit "```") with [ch_btick; ch_btick; ch_btick].
  destruct t as [|a [|b [|c r]]]; cbn [starts_with]; try discriminate;
    try (rewrite ?andb_false_r; discriminate).
  intros H. apply andb_prop in H as [-> H]. apply andb_prop in H as [-> _].
  reflexivity.
Qed.

(** The first character of the output, when the search starts at the
    head of [t]: a match starts there, or the character is the first of
    [t] and was kept. *)
Lemma replace_all_head (re : regex) (t : str) (b : char) (o : str) :
  replace_all_from re 0 t = b :: o ->
  (exists n, match_at re t = Some n)
  \/ (exists t', t = b :: t' /\ o = replace_all_from re 0 t').
Proof.
  destruct t as [|c t']; cbn [replace_all_from]; [discriminate|].
  destruct (match_at re (c :: t')) as [[|n]|]; intros H.
  - left. now eexists.
  - left. now eexists.
  - right. injection H as -> <-. now exists t'.
Qed.

Lemma kept_backtick_opens_no_fence (c : char) (t : str) :
  (forall n, match_at App.re_fence (c :: t) <> Some (S n)) ->
  starts_with (lit "```") (c :: replace_all_from App.re_fence 0 t) = false.
Proof.
  intros Hno.
  assert (Hs : starts_with (lit "```") (c :: t) = false).
  { destruct (starts_with (lit "```") (c :: t)) eqn:Hs; [|reflexivity].
    apply fence_matches in Hs as [n Hn]. now elim (Hno n). }
  assert (Hfence : App.is_fence_pattern App.re_fence) by (right; reflexivity).
  destruct (starts_with (lit "```") (c :: replace_all_from App.re_fence 0 t)) eqn:Ho;
    [|reflexivity].
  exfalso. revert Ho.
  change (lit "```") with [ch_btick; ch_btick; ch_btick].
  cbn [starts_with].
  destruct (N.eqb ch_btick c) eqn:Hc; [|discriminate].
  apply N.eqb_eq in Hc. subst c. cbn [andb].
  destruct (replace_all_from App.re_fence 0 t) as [|b o] eqn:H1; [discriminate|].
  destruct (N.eqb ch_btick b) eqn:Hb; [|discriminate].
  apply N.eqb_eq in Hb. subst b. cbn [andb].
  destruct o as [|b' o']; [discriminate|].
  destruct (N.eqb ch_btick b') eqn:Hb'; [|discriminate].
  apply N.eqb_eq in Hb'. subst b'. intros _.
  apply replace_all_head in H1 as [[n Hn]|[t' [-> H1]]].
  - apply (fence_match_starts _ _ _ Hfence) in Hn.
    apply starts_fence_shift in Hn. congruence.
  - symmetry in H1. apply replace_all_head in H1 as [[n Hn]|[t'' [-> _]]].
    + apply (fence_match_starts _ _ _ Hfence) in Hn.
      do 2 apply starts_fence_shift in Hn. congruence.
    + vm_compute in Hs. discriminate.
Qed.

Lemma replace_all_from_no_fence (s : str) :
  forall k, includes (lit "```") (replace_all_from App.re_fence k s) = false.
Proof.
  induction s as [|c t IH]; intros k; [reflexivity|].
  cbn [replace_all_from]. destruct k as [|k]; [|apply IH].
  destruct (match_at App.re_fence (c :: t)) as [[|n]|] eqn:Hm; [|apply IH|].
  - cbn [includes]. rewrite IH, orb_false_r.
    apply kept_backtick_opens_no_fence. intros n. congruence.
  - cbn [includes]. rewrite IH, orb_false_r.
    apply kept_backtick_opens_no_fence. intros n. congruence.
Qed.

Lemma includes_suffix (p x y : str) :
  p <> [] -> includes p (x ++ y) = false -> includes p y = false.
Proof.
  intros Hp. induction x as [|a x IH]; [easy|].
  cbn [app includes]. intros H. apply orb_false_elim in H as [_ H]. now apply IH.
Qed.

Lemma includes_trim (p s : str) :
  p <> [] -> includes p s = false -> includes p (trim s) = false.
Proof.
  intros Hp H. unfold trim.
  destruct (drop_space_split s) as [sp [Hs _]]. rewrite Hs in H.
  apply (includes_suffix _ _ _ Hp) in H.
  destruct (drop_space_split (rev (drop_space s))) as [sp' [Hr _]].
  apply (f_equal (@rev char)) in Hr. rewrite rev_involutive, rev_app_distr in Hr.
  rewrite Hr in H. now apply includes_app_false in H.
Qed.

(** X14.  The text [extractJSON] searches for the object holds no fence
    marker: after the two replacements and the trimming no run of three
    backticks is left, whatever the completion was.  Removing a marker
    cannot bring three backticks together, because a backtick kept in
    front of a marker would itself have begun one. *)
Theorem stripped_text_has_no_fence (raw : str) :
  includes (lit "```")
    (trim (replace_all App.re_fence (replace_all App.re_fence_json raw)))
  = false.
Proof.
  apply includes_trim; [discriminate|]. apply replace_all_from_no_fence.
Qed.

(* ================================================================== *)
(** * The pipeline from the file to the invoice *)

Section HandlerFrom.

Variable E : engine.
Variable fetch : provider_request -> result http_response.
Variable ev : env.
Variable req : request.

(** A run of the handler adds its events to those that came before and
    is otherwise the run from the empty trace. *)
Lemma Extract_handler_from (tr0 : list event) :
  Extract.handler E fetch ev req tr0
  = (outcome (Extract.handler E fetch ev req),
     tr0 ++ snd (run_M (Extract.handler E fetch ev req))).
Proof.
  unfold outcome, Extract.handler.
  destruct (str_eqb (method req) (lit "POST")); cbn [negb];
    [|cbv [run_M ret fst snd]; now rewrite app_nil_r].
  destruct (missing (ANTHROPIC_API_KEY ev) && missing (GEMINI_API_KEY ev));
    [cbv [run_M ret fst snd]; now rewrite app_nil_r|].
  match goal with
  | |- context [if ?b then ret _ else _] => destruct b
  end; [cbv [run_M ret fst snd]; now rewrite app_nil_r|].
  match goal with
  | |- context [if ?b then ret _ else _] => destruct b
  end; [cbv [run_M ret fst snd]; now rewrite app_nil_r|].
  unfold Extract.callGemini.
  destruct (negb (missing (ANTHROPIC_API_KEY ev)));
    destruct (negb (missing (GEMINI_API_KEY ev))); cbn [andb];
    cbv [run_M mbind try_catch emit ret throw lift];
    rewrite ?Extract_callAnthropic_run, ?callGemini_with_run;
    repeat match goal with
    | |- context [match outcome ?m with _ => _ end] =>
        destruct (outcome m);
        cbv [run_M mbind try_catch emit ret throw lift];
        rewrite ?Extract_callAnthropic_run, ?callGemini_with_run
    end;
    cbn [fst snd app]; rewrite <- ?app_assoc; reflexivity.
Qed.

(** What the Anthropic client of src/extract.js returns. *)
Lemma Extract_callAnthropic_ok (k img mt p : str) (g : json) :
  outcome (Extract.callAnthropic E fetch k img mt p) = Ok g ->
  exists c, g = provider_result (lit "anthropic") c
            /\ truthy_opt (get (lit "length") c) = true.
Proof.
  unfold Extract.callAnthropic.
  cbv [outcome run_M mbind emit lift throw ret fst].
  destruct (fetch _) as [res|]; [|discriminate].
  destruct (JSON_parse _) as [data|]; [|discriminate].
  destruct (ok res); [|discriminate]. cbn [negb].
  destruct (App.member (lit "content") data) as [[c|]|]; try discriminate.
  destruct (truthy_opt (get (lit "length") c)) eqn:Hl; [|discriminate].
  intros H. injection H as <-. now exists c.
Qed.

End HandlerFrom.

Section EndToEnd.

Variable E : engine.
Variable fetch : provider_request -> result http_response.
Variable ev : env.
Variable pixels : Type.
Variable toDataURL_jpeg : App.canvas pixels -> Z -> Z -> Q -> str.
Variable read_image : App.file -> result (App.canvas pixels).
Variable render_pdf : App.file -> result (App.canvas pixels).
Variable EXTRACTION_PROMPT : str.

Let rasterize := App.rasterize pixels toDataURL_jpeg read_image render_pdf.
Let extract :=
  Pipeline.extract E pixels toDataURL_jpeg read_image render_pdf
    EXTRACTION_PROMPT (Extract.handler E fetch ev).

(** The request the browser side posts for a rasterized image. *)
Let posted (r : App.raster) : request :=
  {| method := lit "POST";
     body := Some {| body_imageBase64 := Some (App.base64 r);
                     body_mediaType := Some (App.mediaType r);
                     body_prompt := Some EXTRACTION_PROMPT |} |}.

(** X15.  The whole pipeline on its success path, browser side and proxy
    of src/extract.js together: when the document rasterizes, the posted
    request passes the proxy's checks, Anthropic answers with the content
    [c], and the proxy's answer survives the trip through JSON, then the
    invoice [extractInvoice] returns is the coercion of the object
    extracted from the concatenated text segments of [c].  The envelope
    of the proxy adds and removes nothing, and Anthropic is the only
    provider called. *)
Theorem pipeline_returns_anthropic_invoice
    (f : App.file) (r : App.raster) (c : json) (raw : str) (v : json) :
  rasterize f = Ok r ->
  passes_checks ev (posted r) = true ->
  missing (ANTHROPIC_API_KEY ev) = false ->
  outcome (Extract.callAnthropic E fetch (key_text (ANTHROPIC_API_KEY ev))
             (App.base64 r) (App.mediaType r) EXTRACTION_PROMPT)
  = Ok (provider_result (lit "anthropic") c) ->
  JSON_parse (JSON_stringify E (provider_result (lit "anthropic") c))
  = Ok (provider_result (lit "anthropic") c) ->
  App.content_text E (Some c) = Ok raw ->
  App.extractJSON raw = Ok v ->
  exists inv,
    outcome (extract f) = Ok inv
    /\ App.coerce v = Ok inv
    /\ provider_calls (snd (run_M (extract f))) = [anthropic_url].
Proof.
  intros Hr Hc Ha Hcall Hjson Hraw Hv.
  destruct (Extract_callAnthropic_ok E fetch _ _ _ _ _ Hcall) as [c' [Hc' Hlen]].
  injection Hc' as <-.
  destruct (extractJSON_returns_object raw v Hv) as [m ->].
  eexists. split; [|split; [apply coerce_object|]].
  - pose proof (Extract_handler_cases E fetch ev (posted r)) as H. cbv zeta in H.
    destruct H as [[Hc' _]|[_ (rp & tr & Hrun & Hcase)]]; [congruence|].
    assert (Hrp : rp = {| code := 200; value := provider_result (lit "anthropic") c |}).
    { cbn [posted member_text body body_imageBase64 body_mediaType body_prompt
           key_text] in Hcase.
      destruct Hcase as [(_ & (g' & Hg' & ->) & _)
                        |[(_ & _ & (e & He & _) & _)
                        |[(_ & _ & (e & He) & _)
                        |[(_ & _ & (e & He) & _)
                        |(Ha' & _)]]]]; congruence. }
    subst rp.
    unfold outcome, extract, Pipeline.extract, App.extractInvoice.
    unfold rasterize, App.rasterize in Hr.
    cbv [run_M mbind emit lift]. rewrite Hr. cbn [app].
    unfold Pipeline.proxy_fetch. cbv [mbind].
    fold (posted r). rewrite Extract_handler_from.
    unfold outcome. rewrite Hrun. cbn [fst snd].
    cbv [ret try_catch lift code value text].
    unfold App.read_response. cbn [text status].
    replace (ok {| status := 200;
                   text := JSON_stringify E (provider_result (lit "anthropic") c) |})
      with true by reflexivity.
    cbn [negb]. rewrite Hjson. cbn [bind].
    unfold provider_result at 1 2. cbn [App.member get].
    replace (obj_get (lit "error")
               [(lit "provider", JStr (lit "anthropic")); (lit "content", c)])
      with (@None json) by reflexivity.
    replace (obj_get (lit "content")
               [(lit "provider", JStr (lit "anthropic")); (lit "content", c)])
      with (Some c) by reflexivity.
    cbn [pick bind].
    assert (Hl : truthy_opt (get_opt (lit "length") (Some c)) = true).
    { destruct c; try discriminate; exact Hlen. }
    rewrite Hl. cbn [negb]. rewrite Hraw. cbn [bind]. rewrite Hv. cbn [bind].
    rewrite coerce_object. reflexivity.
  - pose proof (Extract_handler_cases E fetch ev (posted r)) as H. cbv zeta in H.
    destruct H as [[Hc' _]|[_ (rp & tr & Hrun & Hcase)]]; [congruence|].
    assert (Hrp : rp = {| code := 200; value := provider_result (lit "anthropic") c |}
                  /\ provider_calls tr = [anthropic_url]).
    { cbn [posted member_text body body_imageBase64 body_mediaType body_prompt
           key_text] in Hcase.
      destruct Hcase as [(_ & (g' & Hg' & ->) & Hcalls)
                        |[(_ & _ & (e & He & _) & _)
                        |[(_ & _ & (e & He) & _)
                        |[(_ & _ & (e & He) & _)
                        |(Ha' & _)]]]]; try congruence.
      split; [congruence | exact Hcalls]. }
    destruct Hrp as [-> Hcalls].
    unfold extract, Pipeline.extract, App.extractInvoice.
    unfold rasterize, App.rasterize in Hr.
    cbv [run_M mbind emit lift]. rewrite Hr. cbn [app].
    unfold Pipeline.proxy_fetch. cbv [mbind].
    fold (posted r). rewrite Extract_handler_from.
    unfold outcome. rewrite Hrun. cbn [fst snd].
    cbv [ret try_catch lift code value text].
    match goal with
    | |- provider_calls (snd (match ?x with _ => _ end)) = _ =>
        assert (Hx : exists inv, x = Ok inv)
    end.
    { unfold App.read_response. cbn [text status].
      replace (ok {| status := 200;
                     text := JSON_stringify E (provider_result (lit "anthropic") c) |})
        with true by reflexivity.
      cbn [negb]. rewrite Hjson. cbn [bind].
      unfold provider_result at 1 2. cbn [App.member get].
      replace (obj_get (lit "error")
                 [(lit "provider", JStr (lit "anthropic")); (lit "content", c)])
        with (@None json) by reflexivity.
      replace (obj_get (lit "content")
                 [(lit "provider", JStr (lit "anthropic")); (lit "content", c)])
        with (Some c) by reflexivity.
      cbn [pick bind].
      assert (Hl : truthy_opt (get_opt (lit "length") (Some c)) = true).
      { destruct c; try discriminate; exact Hlen. }
      rewrite Hl. cbn [negb]. rewrite Hraw. cbn [bind]. rewrite Hv. cbn [bind].
      rewrite coerce_object. now eexists. }
    destruct Hx as [inv ->]. cbn [snd].
    unfold provider_calls. rewrite flat_map_app. cbn [flat_map app].
    exact Hcalls.
Qed.

End EndToEnd.

Lemma pipeline_returns_anthropic_invoice_witness :
  exists inv,
    outcome (Pipeline.extract Sample.sample_engine unit encode_const decode_small
               decode_fails (lit "Extract the invoice")
               (Extract.handler Sample.sample_engine net_anthropic_ok both_keys)
               png_without_type) = Ok inv
    /\ App.coerce (JObj [(lit "invoiceNo", JStr (lit "INV-9"))]) = Ok inv
    /\ provider_calls
         (snd (run_M (Pipeline.extract Sample.sample_engine unit encode_const
                        decode_small decode_fails (lit "Extract the invoice")
                        (Extract.handler Sample.sample_engine net_anthropic_ok
                           both_keys)
                        png_without_type)))
       = [anthropic_url].
Proof.
  apply (pipeline_returns_anthropic_invoice Sample.sample_engine net_anthropic_ok
           both_keys unit encode_const decode_small decode_fails
           (lit "Extract the invoice") png_without_type
           {| App.base64 := lit "AAAA"; App.mediaType := lit "image/jpeg" |}
           (JArr [JObj [(lit "type", JStr (lit "text"));
                        (lit "text", JStr (qlit "{'invoiceNo':"))];
                  JObj [(lit "type", JStr (lit "text"));
                        (lit "text", JStr (qlit "'INV-9'}"))]])
           (qlit "{'invoiceNo':'INV-9'}"));
    vm_compute; reflexivity.
Defined.

(** ** Reading the proxy's answer *)

Lemma starts_with_firstn (s : str) :
  forall n m, n <= m -> starts_with (firstn n s) (firstn m s) = true.
Proof.
  induction s as [|c s IH]; intros n m Hnm.
  - destruct n, m; reflexivity.
  - destruct n as [|n]; [reflexivity|]. destruct m as [|m]; [lia|].
    cbn [firstn starts_with]. rewrite N.eqb_refl. apply IH. lia.
Qed.

Lemma includes_app_r (p x y : str) :
  starts_with p y = true -> includes p (x ++ y) = true.
Proof.
  intros H. induction x as [|a x IH]; cbn [app].
  - destruct y; cbn [includes]; now rewrite H.
  - cbn [includes]. rewrite IH. apply orb_true_r.
Qed.

Section Answers.

Variable E : engine.
Variable pixels : Type.
Variable toDataURL_jpeg : App.canvas pixels -> Z -> Z -> Q -> str.
Variable read_image : App.file -> result (App.canvas pixels).
Variable render_pdf : App.file -> result (App.canvas pixels).
Variable EXTRACTION_PROMPT : str.
Variable fetch : str -> req_body -> M http_response.

(** X16.  The browser side turns an answer into an invoice only if the
    answer has a 2xx status, parses as JSON, has no truthy [error] member
    and has a non-empty array as [content]; the invoice is then the
    coercion of the object extracted from the concatenated segments.  An
    error status or an error member never yields form data. *)
Theorem read_response_success (res : http_response) (inv : App.invoice) :
  App.read_response E res = Ok inv ->
  ok res = true
  /\ exists data l raw v,
       JSON_parse (text res) = Ok data
       /\ pick (get (lit "error") data) = None
       /\ get (lit "content") data = Some (JArr l)
       /\ l <> []
       /\ App.content_text E (Some (JArr l)) = Ok raw
       /\ App.extractJSON raw = Ok v
       /\ App.coerce v = Ok inv.
Proof.
  unfold App.read_response.
  destruct (ok res); cbn [negb]; [|discriminate].
  destruct (JSON_parse (text res)) as [data|] eqn:Hj; cbn [bind]; [|discriminate].
  destruct (App.member (lit "error") data) as [err|] eqn:He; cbn [bind];
    [|discriminate].
  apply member_ok in He. subst err.
  destruct (pick (get (lit "error") data)) eqn:Hp; [discriminate|].
  destruct (App.member (lit "content") data) as [content|] eqn:Hc; cbn [bind];
    [|discriminate].
  apply member_ok in Hc. subst content.
  destruct (truthy_opt (get_opt (lit "length") (get (lit "content") data))) eqn:Hl;
    cbn [negb]; [|discriminate].
  destruct (get (lit "content") data) as [[| | | |l|]|] eqn:Hcont;
    try (cbn; discriminate).
  destruct (App.content_text E (Some (JArr l))) as [raw|] eqn:Hraw; cbn [bind];
    [|discriminate].
  destruct (App.extractJSON raw) as [v|] eqn:Hv; cbn [bind]; [|discriminate].
  intros Hinv. split; [reflexivity|].
  exists data, l, raw, v. repeat split; try assumption; try reflexivity.
  intros ->. cbn in Hl. discriminate.
Qed.

(** X17.  An error met after the proxy answered with a non-empty body
    always shows the beginning of that body: the message of the error
    [extractInvoice] throws contains the first 20 characters of the
    answer, either because it did already or because the first 200
    characters were appended to it after [Raw:]. *)
Theorem extractInvoice_error_shows_answer
    (f : App.file) (r : App.raster) (res : http_response) (e : exn) :
  App.rasterize pixels toDataURL_jpeg read_image render_pdf f = Ok r ->
  (forall b tr, fetch (lit "/api/extract") b tr = (Ok res, tr)) ->
  text res <> [] ->
  outcome (App.extractInvoice E pixels toDataURL_jpeg read_image render_pdf
             EXTRACTION_PROMPT fetch f) = Throw e ->
  includes (slice 0 20 (text res)) (message E e) = true.
Proof.
  intros Hr Hfetch Htext.
  unfold outcome, App.extractInvoice. unfold App.rasterize in Hr.
  cbv [run_M mbind emit lift]. rewrite Hr. rewrite Hfetch.
  cbv [try_catch lift throw].
  destruct (App.read_response E res) as [inv|err]; cbn [fst]; [discriminate|].
  destruct (text res) as [|c s] eqn:Ht; [congruence|].
  destruct (includes (slice 0 20 (c :: s)) (message E err)) eqn:Hinc; cbn [negb fst].
  - intros H. injection H as <-. exact Hinc.
  - intros H. injection H as <-. cbn [message].
    assert (Heq : forall m t : str,
               m ++ ch_nl :: ch_nl :: 82%N :: 97%N :: 119%N :: 58%N :: 32%N :: t
               = (m ++ [ch_nl; ch_nl; 82; 97; 119; 58; 32]%N) ++ t)
      by (intros; rewrite <- app_assoc; reflexivity).
    rewrite Heq. apply includes_app_r.
    unfold slice. cbn [skipn]. apply starts_with_firstn. lia.
Qed.

End Answers.

Lemma read_response_success_witness :
  ok two_segments = true
  /\ exists data l raw v,
       JSON_parse (text two_segments) = Ok data
       /\ pick (get (lit "error") data) = None
       /\ get (lit "content") data = Some (JArr l)
       /\ l <> []
       /\ App.content_text Sample.sample_engine (Some (JArr l)) = Ok raw
       /\ App.extractJSON raw = Ok v
       /\ App.coerce v
          = App.coerce (JObj [(lit "invoiceNo", JStr (lit "INV-9"))]).
Proof.
  apply (read_response_success Sample.sample_engine two_segments).
  vm_compute. reflexivity.
Defined.

Lemma extractInvoice_error_shows_answer_witness :
  exists e,
    outcome (App.extractInvoice Sample.sample_engine unit encode_const decode_small
               decode_fails (lit "Extract the invoice")
               (fun _ _ => ret overloaded) png_without_type) = Throw e
    /\ includes (slice 0 20 (text overloaded)) (message Sample.sample_engine e) = true.
Proof.
  eexists. split; [vm_compute; reflexivity|].
  apply (extractInvoice_error_shows_answer Sample.sample_engine unit encode_const
           decode_small decode_fails (lit "Extract the invoice")
           (fun _ _ => ret overloaded) png_without_type
           {| App.base64 := lit "AAAA"; App.mediaType := lit "image/jpeg" |}
           overloaded).
  - vm_compute. reflexivity.
  - intros b tr. reflexivity.
  - vm_compute. discriminate.
  - vm_compute. reflexivity.
Defined.

(* ================================================================== *)
(** * The first version of the proxy *)

Section FirstProxy.

Variable E : engine.
Variable fetch : provider_request -> result http_response.
Variable ev : env.
Variable req : request.

(** X18.  A POST without a body, with the Anthropic key configured: the
    first version of the proxy reads the members off the missing body and
    throws a [TypeError] before anything is answered, where the later
    versions read them off an empty object and answer 400.  None of them
    calls a provider. *)
Theorem request_without_body :
  method req = lit "POST" ->
  missing (ANTHROPIC_API_KEY ev) = false ->
  body req = None ->
  run_M (ApiExtractFirst.handler E fetch ev req) = (Throw JsTypeError, [])
  /\ run_M (ApiExtract.handler E fetch ev req)
     = (Ok {| code := 400;
              value := error_body
                         (lit "Missing fields: imageBase64, mediaType, prompt") |}, [])
  /\ run_M (Extract.handler E fetch ev req)
     = (Ok {| code := 400;
              value := error_body
                         (lit "Missing fields: imageBase64, mediaType, prompt") |}, []).
Proof.
  intros Hpost Hkey Hbody.
  unfold ApiExtractFirst.handler, ApiExtract.handler, Extract.handler.
  rewrite Hpost, str_eqb_refl, Hkey, Hbody. cbn [negb andb].
  repeat split; reflexivity.
Qed.

(** X19.  A request that passes the checks of the first version is
    always answered, with one call to Anthropic: the answer is
    Anthropic's own, status and parsed body unchanged, whatever the
    status is; when the call fails or the body is not JSON, it is 502
    with the message of the error after [Upstream request failed:]. *)
Theorem ApiExtractFirst_forwards_upstream (b : req_body) :
  method req = lit "POST" ->
  missing (ANTHROPIC_API_KEY ev) = false ->
  body req = Some b ->
  missing (body_imageBase64 b) || missing (body_mediaType b)
    || missing (body_prompt b) = false ->
  ApiExtractFirst.too_large (key_text (body_imageBase64 b)) = false ->
  let rq := anthropic_request (lit "claude-sonnet-4-20250514")
              (key_text (ANTHROPIC_API_KEY ev)) (key_text (body_imageBase64 b))
              (key_text (body_mediaType b)) (key_text (body_prompt b)) in
  outcome (ApiExtractFirst.handler E fetch ev req)
  = Ok match bind (fetch rq) (fun up =>
               bind (JSON_parse (text up)) (fun data =>
                 Ok {| code := status up; value := data |})) with
       | Ok r => r
       | Throw err =>
           {| code := 502;
              value := error_body (lit "Upstream request failed: "
                                     ++ message E err) |}
       end
  /\ provider_calls (snd (run_M (ApiExtractFirst.handler E fetch ev req)))
     = [anthropic_url].
Proof.
  intros Hpost Hkey Hbody Hfields Hsize rq.
  unfold outcome, ApiExtractFirst.handler.
  rewrite Hpost, str_eqb_refl, Hkey, Hbody, Hfields, Hsize. cbn [negb].
  fold rq. cbv [run_M mbind try_catch emit ret throw lift].
  destruct (fetch rq) as [up|err]; cbn [bind]; [|split; reflexivity].
  destruct (JSON_parse (text up)) as [data|err]; cbn [bind]; split; reflexivity.
Qed.

End FirstProxy.

Lemma request_without_body_witness :
  run_M (ApiExtractFirst.handler Sample.sample_engine net_down both_keys
           {| method := lit "POST"; body := None |})
  = (Throw JsTypeError, []).
Proof.
  apply (request_without_body Sample.sample_engine net_down both_keys
           {| method := lit "POST"; body := None |});
    reflexivity.
Defined.

Lemma ApiExtractFirst_forwards_upstream_witness :
  outcome (ApiExtractFirst.handler Sample.sample_engine net_down both_keys post)
  = Ok {| code := 529;
          value := JObj [(lit "error", JObj [(lit "message", JStr (lit "Overloaded"))])] |}.
Proof.
  apply (proj1 (ApiExtractFirst_forwards_upstream Sample.sample_engine net_down
                  both_keys post small_body eq_refl eq_refl eq_refl eq_refl eq_refl)).
Defined.

(* ================================================================== *)
(** * The review screen: sheet names, line items, the queue *)

Lemma obj_get_set_same (k : str) (v : json) (m : list (str * json)) :
  obj_get k (obj_set k v m) = Some v.
Proof.
  induction m as [|[k' v'] m IH]; cbn [obj_set obj_get].
  - now rewrite str_eqb_refl.
  - destruct (str_eqb k k') eqn:Hk; cbn [obj_get].
    + now rewrite str_eqb_refl.
    + now rewrite Hk.
Qed.

Lemma obj_get_set_other (k k' : str) (v : json) (m : list (str * json)) :
  k' <> k -> obj_get k' (obj_set k v m) = obj_get k' m.
Proof.
  intros Hne. induction m as [|[k0 v0] m IH]; cbn [obj_set obj_get].
  - destruct (str_eqb k' k) eqn:Hk; [|reflexivity].
    apply str_eqb_eq in Hk. congruence.
  - destruct (str_eqb k k0) eqn:Hk; cbn [obj_get].
    + apply str_eqb_eq in Hk. subst k0.
      destruct (str_eqb k' k) eqn:Hk'; [|reflexivity].
      apply str_eqb_eq in Hk'. congruence.
    + destruct (str_eqb k' k0); [reflexivity | exact IH].
Qed.

Lemma obj_set_keys (k : str) (v : json) (m : list (str * json)) :
  map fst (obj_set k v m)
  = if existsb (str_eqb k) (map fst m) then map fst m else map fst m ++ [k].
Proof.
  induction m as [|[k' v'] m IH]; cbn [obj_set map fst existsb]; [reflexivity|].
  destruct (str_eqb k k') eqn:Hk; cbn [orb map fst].
  - apply str_eqb_eq in Hk. now subst.
  - rewrite IH. destruct (existsb (str_eqb k) (map fst m)); reflexivity.
Qed.

Lemma nth_error_mapi_from {A B} (f : nat -> A -> B) (l : list A) :
  forall i j, nth_error (Ui.mapi_from i f l) j = option_map (f (i + j)) (nth_error l j).
Proof.
  induction l as [|x l IH]; intros i j; cbn [Ui.mapi_from].
  - destruct j; reflexivity.
  - destruct j as [|j]; cbn [nth_error option_map].
    + now rewrite Nat.add_0_r.
    + rewrite IH. now rewrite Nat.add_succ_r.
Qed.

Lemma nth_error_mapi {A B} (f : nat -> A -> B) (l : list A) (j : nat) :
  nth_error (Ui.mapi f l) j = option_map (f j) (nth_error l j).
Proof. unfold Ui.mapi. now rewrite nth_error_mapi_from. Qed.

Lemma length_mapi_from {A B} (f : nat -> A -> B) (l : list A) :
  forall i, length (Ui.mapi_from i f l) = length l.
Proof. induction l as [|x l IH]; intros i; cbn; [reflexivity | now rewrite IH]. Qed.

(** Filtering one index out: nothing is dropped once the index is
    passed. *)
Lemma filteri_from_past {A} (idx : nat) (l : list A) :
  forall i, idx < i ->
    Ui.filteri_from i (fun j _ => negb (Nat.eqb j idx)) l = l.
Proof.
  induction l as [|x l IH]; intros i Hi; cbn [Ui.filteri_from]; [reflexivity|].
  assert (H : Nat.eqb i idx = false) by (apply Nat.eqb_neq; lia).
  rewrite H. cbn [negb]. f_equal. apply IH. lia.
Qed.

Lemma nth_error_filteri_from {A} (idx : nat) (l : list A) :
  forall i j,
    nth_error (Ui.filteri_from i (fun j _ => negb (Nat.eqb j idx)) l) j
    = nth_error l (if (i + j <? idx) then j
                   else if (i <=? idx) then S j else j).
Proof.
  induction l as [|x l IH]; intros i j; cbn [Ui.filteri_from].
  - destruct (i + j <? idx), (i <=? idx), j; reflexivity.
  - destruct (Nat.eqb_spec i idx) as [->|Hne]; cbn [negb].
    + rewrite filteri_from_past by lia.
      assert (H1 : (idx + j <? idx) = false) by (apply Nat.ltb_ge; lia).
      rewrite H1, Nat.leb_refl. reflexivity.
    + destruct j as [|j].
      * rewrite Nat.add_0_r.
        destruct (Nat.ltb_spec i idx); [reflexivity|].
        assert (H1 : (i <=? idx) = false) by (apply Nat.leb_gt; lia).
        now rewrite H1.
      * cbn [nth_error]. rewrite IH.
        replace (S i + j) with (i + S j) by lia.
        destruct (Nat.ltb_spec (i + S j) idx); [reflexivity|].
        destruct (Nat.leb_spec (S i) idx), (Nat.leb_spec i idx);
          try reflexivity; lia.
Qed.

Lemma nth_error_filteri {A} (idx : nat) (l : list A) (j : nat) :
  nth_error (Ui.filteri (fun j _ => negb (Nat.eqb j idx)) l) j
  = nth_error l (if j <? idx then j else S j).
Proof. unfold Ui.filteri. now rewrite nth_error_filteri_from. Qed.

(** ** Sheet names *)

Lemma underscore_allowed (c : char) :
  existsb (N.eqb (Ui.underscore c)) Ui.forbidden_in_sheet = false.
Proof.
  unfold Ui.underscore.
  destruct (existsb (N.eqb c) Ui.forbidden_in_sheet) eqn:Hc; [reflexivity | exact Hc].
Qed.

(** X20.  The name [slugSheet] gives a sheet is fit for a workbook: it
    is not empty, is at most 28 characters long and holds none of the
    seven characters a sheet name may not hold (colon, backslash, slash,
    question mark, asterisk and the two square brackets). *)
Theorem slugSheet_valid (name : json) (idx : nat) (s : str) :
  Ui.slugSheet name idx = Ok s ->
  s <> []
  /\ length s <= 28
  /\ Forall (fun c => ~ In c Ui.forbidden_in_sheet) s.
Proof.
  unfold Ui.slugSheet.
  set (chosen := if truthy name then name else _).
  assert (Hchosen : forall t, chosen = JStr t -> t <> []).
  { unfold chosen. destruct (truthy name) eqn:Ht.
    - intros t ->. cbn in Ht. destruct t; [discriminate | discriminate].
    - intros t H. injection H as <-. discriminate. }
  destruct chosen as [| | |t| |]; try discriminate.
  specialize (Hchosen t eq_refl).
  intros H. injection H as <-. unfold slice. cbn [skipn Nat.sub].
  split; [|split].
  - destruct t as [|c t]; [congruence|]. discriminate.
  - rewrite length_firstn. lia.
  - apply Forall_forall. intros c Hin.
    assert (Hin' : In c (map Ui.underscore t)).
    { rewrite <- (firstn_skipn 28 (map Ui.underscore t)).
      apply in_or_app. now left. }
    apply in_map_iff in Hin' as [c0 [<- _]].
    intros Hbad. pose proof (underscore_allowed c0) as Hok.
    assert (Hex : existsb (N.eqb (Ui.underscore c0)) Ui.forbidden_in_sheet = true).
    { apply existsb_exists. exists (Ui.underscore c0).
      split; [exact Hbad | apply N.eqb_refl]. }
    congruence.
Qed.

Lemma slugSheet_valid_witness :
  lit "INV_2024_001" <> []
  /\ length (lit "INV_2024_001") <= 28
  /\ Forall (fun c => ~ In c Ui.forbidden_in_sheet) (lit "INV_2024_001").
Proof.
  apply (slugSheet_valid (JStr (lit "INV/2024:001")) 0).
  vm_compute. reflexivity.
Defined.

(** [slugSheet] throws exactly on a name that is truthy and not a
    string: such a value has no [replace].  A falsy name of any type is
    replaced by the default before [replace] is called. *)
Lemma slugSheet_throws_iff (name : json) (idx : nat) :
  (exists e, Ui.slugSheet name idx = Throw e)
  <-> truthy name = true /\ forall s, name <> JStr s.
Proof.
  unfold Ui.slugSheet. split.
  - intros [e He]. destruct (truthy name) eqn:Ht; [|discriminate].
    destruct name; try discriminate;
      (split; [reflexivity | intros s0; discriminate]).
  - intros [Ht Hs]. rewrite Ht. exists JsTypeError.
    destruct name; try reflexivity. now elim (Hs s).
Qed.

(** X21.  An invoice number the model gave as a number goes through the
    coercion unchanged (it is truthy unless it is zero) and then breaks
    the export of an invoice that has line items: [exportExcel] hands
    [form.invoiceNo || form.vendorName] to [slugSheet], which throws on
    it. *)
Theorem numeric_invoice_number_breaks_export
    (m : list (str * json)) (n : number) (idx : nat) :
  obj_get (lit "invoiceNo") m = Some (JNum n) ->
  num_is_zero n = false ->
  exists inv,
    App.coerce (JObj m) = Ok inv
    /\ obj_get (lit "invoiceNo") (App.form inv) = Some (JNum n)
    /\ Ui.slugSheet (JNum n) idx = Throw JsTypeError.
Proof.
  intros Hm Hn. eexists. split; [apply coerce_object|]. cbn [App.form].
  split.
  - rewrite (obj_get_map (fun k => App.or_empty (obj_get k m)))
      by (vm_compute; tauto).
    rewrite Hm. cbn [App.or_empty truthy]. now rewrite Hn.
  - unfold Ui.slugSheet. cbn [truthy]. now rewrite Hn.
Qed.

Lemma numeric_invoice_number_breaks_export_witness :
  exists inv,
    App.coerce (JObj [(lit "invoiceNo", JNum {| neg := false; mant := 1042; exp10 := 0 |})])
    = Ok inv
    /\ obj_get (lit "invoiceNo") (App.form inv)
       = Some (JNum {| neg := false; mant := 1042; exp10 := 0 |})
    /\ Ui.slugSheet (JNum {| neg := false; mant := 1042; exp10 := 0 |}) 0
       = Throw JsTypeError.
Proof.
  apply numeric_invoice_number_breaks_export; reflexivity.
Defined.

(** ** The table of line items *)

(** X22.  Editing a cell of the table changes that cell and nothing
    else: the list keeps its length, the row edited has the new value
    under the key and its other members as before, and every other row
    is the one it was. *)
Theorem update_changes_one_cell (items : list json) (i : nat) (k v : str) (r : json) :
  nth_error items i = Some r ->
  length (Ui.update items i k v) = length items
  /\ (exists r', nth_error (Ui.update items i k v) i = Some r'
                 /\ get k r' = Some (JStr v)
                 /\ forall k', k' <> k -> get k' r' = obj_get k' (Ui.spread r))
  /\ (forall j, j <> i -> nth_error (Ui.update items i k v) j = nth_error items j).
Proof.
  intros Hr. unfold Ui.update. split; [apply length_mapi_from|]. split.
  - eexists. rewrite nth_error_mapi, Hr. cbn [option_map].
    rewrite Nat.eqb_refl. split; [reflexivity|]. cbn [get]. split.
    + apply obj_get_set_same.
    + intros k' Hk'. now apply obj_get_set_other.
  - intros j Hj. rewrite nth_error_mapi.
    assert (H : Nat.eqb j i = false) by now apply Nat.eqb_neq.
    rewrite H. now destruct (nth_error items j).
Qed.

Lemma update_changes_one_cell_witness :
  length (Ui.update [Ui.EMPTY_LINE; Ui.EMPTY_LINE] 1 (lit "qty") (lit "2")) = 2
  /\ (exists r', nth_error (Ui.update [Ui.EMPTY_LINE; Ui.EMPTY_LINE] 1
                              (lit "qty") (lit "2")) 1 = Some r'
                 /\ get (lit "qty") r' = Some (JStr (lit "2"))
                 /\ forall k', k' <> lit "qty" ->
                      get k' r' = obj_get k' (Ui.spread Ui.EMPTY_LINE))
  /\ (forall j, j <> 1 ->
        nth_error (Ui.update [Ui.EMPTY_LINE; Ui.EMPTY_LINE] 1 (lit "qty") (lit "2")) j
        = nth_error [Ui.EMPTY_LINE; Ui.EMPTY_LINE] j).
Proof.
  apply (update_changes_one_cell [Ui.EMPTY_LINE; Ui.EMPTY_LINE] 1 (lit "qty")
           (lit "2") Ui.EMPTY_LINE).
  reflexivity.
Defined.

Lemma filteri_from_app_last {A} (l : list A) (x : A) :
  forall i,
    Ui.filteri_from i (fun j _ => negb (Nat.eqb j (i + length l))) (l ++ [x]) = l.
Proof.
  induction l as [|a l IH]; intros i; cbn [app Ui.filteri_from length].
  - rewrite Nat.add_0_r, Nat.eqb_refl. reflexivity.
  - assert (H : Nat.eqb i (i + S (length l)) = false) by (apply Nat.eqb_neq; lia).
    rewrite H. cbn [negb]. f_equal.
    replace (i + S (length l)) with (S i + length l) by lia. apply IH.
Qed.

(** X23.  Deleting a row takes out the row at that position and keeps
    the others in their order (a position past the end deletes nothing);
    and a row that was just added is deleted again by deleting the last
    position, which gives the list back. *)
Theorem delRow_removes_one_row (items : list json) (i : nat) :
  (forall j, nth_error (Ui.delRow items i) j
             = nth_error items (if j <? i then j else S j))
  /\ Ui.delRow (Ui.addRow items) (length items) = items.
Proof.
  split.
  - intros j. unfold Ui.delRow. apply nth_error_filteri.
  - unfold Ui.delRow, Ui.addRow, Ui.filteri.
    apply (filteri_from_app_last items Ui.EMPTY_LINE 0).
Qed.

(** ** The queue *)

(** X24.  Removing an entry from the queue keeps the entry under review
    under review: when another entry is removed, the review index is
    moved so that it points at the same entry in the new queue; when the
    reviewed entry itself is removed, nothing is under review. *)
Theorem removeQueue_keeps_reviewed_entry (st : Ui.state) (idx r : nat) :
  Ui.reviewIdx st = Some r ->
  (r = idx -> Ui.reviewIdx (Ui.removeQueue st idx) = None)
  /\ (r <> idx ->
      exists r', Ui.reviewIdx (Ui.removeQueue st idx) = Some r'
                 /\ nth_error (Ui.queue (Ui.removeQueue st idx)) r'
                    = nth_error (Ui.queue st) r).
Proof.
  intros Hr. unfold Ui.removeQueue. cbn [Ui.with_queue Ui.reviewIdx Ui.queue].
  rewrite Hr. split.
  - intros ->. now rewrite Nat.eqb_refl.
  - intros Hne.
    assert (H : Nat.eqb r idx = false) by now apply Nat.eqb_neq.
    rewrite H.
    destruct (Nat.ltb_spec idx r) as [Hlt|Hge].
    + exists (r - 1). split; [reflexivity|]. rewrite nth_error_filteri.
      assert (H1 : (r - 1 <? idx) = false) by (apply Nat.ltb_ge; lia).
      rewrite H1. f_equal. lia.
    + exists r. split; [reflexivity|]. rewrite nth_error_filteri.
      assert (H1 : (r <? idx) = true) by (apply Nat.ltb_lt; lia).
      now rewrite H1.
Qed.

Lemma findIndex_from_spec {A} (f : nat -> A -> bool) (l : list A) :
  forall i,
    match Ui.findIndex_from i f l with
    | Some n => exists x, i <= n /\ nth_error l (n - i) = Some x /\ f n x = true
    | None => forall j x, nth_error l j = Some x -> f (i + j) x = false
    end.
Proof.
  induction l as [|a l IH]; intros i; cbn [Ui.findIndex_from].
  - intros [|j] x; discriminate.
  - destruct (f i a) eqn:Hf.
    + exists a. rewrite Nat.sub_diag. split; [lia|]. split; [reflexivity | exact Hf].
    + specialize (IH (S i)). destruct (Ui.findIndex_from (S i) f l) as [n|].
      * destruct IH as [x [Hle [Hx Hfx]]]. exists x. split; [lia|]. split; [|exact Hfx].
        replace (n - i) with (S (n - S i)) by lia. exact Hx.
      * intros [|j] x Hx.
        -- injection Hx as <-. now rewrite Nat.add_0_r.
        -- rewrite Nat.add_succ_r. now apply IH.
Qed.

(** X25.  Saving the entry under review appends exactly its form, line
    items and file name to the saved invoices, marks that entry saved and
    leaves the rest of the queue as it was; the review then moves to an
    entry of the new queue that is not saved yet, and to none only when
    every entry of the new queue is saved. *)
Theorem saveQueue_moves_to_unsaved (st : Ui.state) (e : Ui.entry) (r : nat) :
  Ui.reviewingQueue st = Some e ->
  Ui.reviewIdx st = Some r ->
  let st' := Ui.saveQueue st in
  Ui.saved st' = Ui.saved st ++ [{| Ui.saved_form := Ui.form e;
                                     Ui.saved_lineItems := Ui.lineItems e;
                                     Ui.saved_fileName := Ui.fileName e |}]
  /\ nth_error (Ui.queue st') r = Some (Ui.with_status e Ui.Saved)
  /\ (forall i, i <> r -> nth_error (Ui.queue st') i = nth_error (Ui.queue st) i)
  /\ match Ui.reviewIdx st' with
     | Some n => n <> r
                 /\ exists x, nth_error (Ui.queue st') n = Some x
                              /\ Ui.entry_status x <> Ui.Saved
     | None => forall i x, nth_error (Ui.queue st') i = Some x ->
                           Ui.entry_status x = Ui.Saved
     end.
Proof.
  intros He Hr st'. unfold st', Ui.saveQueue. rewrite He.
  cbn [Ui.saved Ui.queue Ui.reviewIdx].
  assert (Hq : nth_error (Ui.queue st) r = Some e).
  { unfold Ui.reviewingQueue in He. rewrite Hr in He.
    destruct (Ui.editSavedIdx st); [discriminate | exact He]. }
  assert (Hrev : forall i, Ui.is_reviewed st i = Nat.eqb i r)
    by (intros i; unfold Ui.is_reviewed; now rewrite Hr).
  assert (Hother : forall i, i <> r ->
            nth_error (Ui.mapi (fun i x => if Ui.is_reviewed st i
                                           then Ui.with_status x Ui.Saved else x)
                               (Ui.queue st)) i
            = nth_error (Ui.queue st) i).
  { intros i Hi. rewrite nth_error_mapi, Hrev.
    assert (H : Nat.eqb i r = false) by now apply Nat.eqb_neq.
    rewrite H. now destruct (nth_error (Ui.queue st) i). }
  split; [reflexivity|]. split; [|split; [exact Hother|]].
  - rewrite nth_error_mapi, Hq, Hrev, Nat.eqb_refl. reflexivity.
  - unfold Ui.findIndex.
    pose proof (findIndex_from_spec
                  (fun i x => negb (Ui.is_reviewed st i)
                              && negb (Ui.status_eqb (Ui.entry_status x) Ui.Saved))
                  (Ui.queue st) 0) as Hspec.
    destruct (Ui.findIndex_from 0 _ (Ui.queue st)) as [n|].
    + destruct Hspec as [x [_ [Hx Hf]]]. rewrite Nat.sub_0_r in Hx.
      apply andb_prop in Hf as [Hn Hs]. rewrite Hrev in Hn.
      assert (Hnr : n <> r).
      { intros ->. rewrite Nat.eqb_refl in Hn. discriminate. }
      split; [exact Hnr|]. exists x. rewrite (Hother n Hnr). split; [exact Hx|].
      intros Hsaved. rewrite Hsaved in Hs. discriminate.
    + intros i x Hx.
      destruct (Nat.eq_dec i r) as [->|Hi].
      * rewrite nth_error_mapi, Hq, Hrev, Nat.eqb_refl in Hx.
        injection Hx as <-. reflexivity.
      * rewrite (Hother i Hi) in Hx. specialize (Hspec i x Hx).
        cbn [Nat.add] in Hspec. rewrite Hrev in Hspec.
        assert (H : Nat.eqb i r = false) by now apply Nat.eqb_neq.
        rewrite H in Hspec. cbn [negb andb] in Hspec.
        destruct (Ui.entry_status x); try discriminate. reflexivity.
Qed.

(** X26.  The queue never takes more than it has room for: what
    [addFiles] adds is not empty, fits the free slots (the queue stays
    within [MAX_FILES]), holds only files the filter admits, and is the
    beginning of the admitted files in the order they were given.  With
    a full queue nothing is added, whatever is offered. *)
Theorem addFiles_select_fits (currentQueue : list Ui.entry) (rawFiles : list App.file) :
  match Ui.addFiles_select currentQueue rawFiles with
  | Ui.ToAdd toAdd =>
      toAdd <> []
      /\ length currentQueue + length toAdd <= Ui.MAX_FILES
      /\ Forall (fun f => Ui.allowed f = true) toAdd
      /\ exists rest, filter Ui.allowed rawFiles = toAdd ++ rest
  | Ui.QueueFull => Ui.MAX_FILES <= length currentQueue
  | Ui.NothingAllowed =>
      length currentQueue < Ui.MAX_FILES
      /\ Forall (fun f => Ui.allowed f = false) rawFiles
  end.
Proof.
  unfold Ui.addFiles_select.
  destruct (Nat.leb_spec Ui.MAX_FILES (length currentQueue)) as [Hfull|Hroom];
    [exact Hfull|].
  destruct (firstn (Ui.MAX_FILES - length currentQueue) (filter Ui.allowed rawFiles))
    as [|f0 l0] eqn:Hfirst.
  - split; [exact Hroom|].
    assert (Hnil : filter Ui.allowed rawFiles = []).
    { destruct (filter Ui.allowed rawFiles) as [|a l]; [reflexivity|].
      destruct (Ui.MAX_FILES - length currentQueue) eqn:Hs; [lia | discriminate]. }
    apply Forall_forall. intros f Hin.
    destruct (Ui.allowed f) eqn:Hf; [|reflexivity].
    assert (Hin' : In f (filter Ui.allowed rawFiles)) by (apply filter_In; now split).
    rewrite Hnil in Hin'. destruct Hin'.
  - rewrite <- Hfirst. split; [rewrite Hfirst; discriminate|]. split; [|split].
    + rewrite length_firstn. lia.
    + apply Forall_forall. intros f Hin.
      assert (Hin' : In f (filter Ui.allowed rawFiles)).
      { rewrite <- (firstn_skipn (Ui.MAX_FILES - length currentQueue)
                      (filter Ui.allowed rawFiles)).
        apply in_or_app. now left. }
      now apply filter_In in Hin'.
    + exists (skipn (Ui.MAX_FILES - length currentQueue) (filter Ui.allowed rawFiles)).
      symmetry. apply firstn_skipn.
Qed.

Lemma removeQueue_keeps_reviewed_entry_witness :
  exists r', Ui.reviewIdx (Ui.removeQueue reviewing_second 0) = Some r'
             /\ nth_error (Ui.queue (Ui.removeQueue reviewing_second 0)) r'
                = nth_error (Ui.queue reviewing_second) 1.
Proof.
  apply (proj2 (removeQueue_keeps_reviewed_entry reviewing_second 0 1 eq_refl)).
  discriminate.
Defined.

Lemma saveQueue_moves_to_unsaved_witness :
  Ui.saved (Ui.saveQueue reviewing_second)
  = [{| Ui.saved_form := [(lit "invoiceNo", JStr (lit "A1"))];
        Ui.saved_lineItems := [];
        Ui.saved_fileName := lit "b.png" |}].
Proof.
  apply (proj1 (saveQueue_moves_to_unsaved reviewing_second
                  (entry_of (lit "b.png") Ui.Ready) 1 eq_refl eq_refl)).
Defined.

(** X27.  Editing a field of the form, or the line items, touches the
    entry under review alone: that field of its form gets the value
    typed, its other fields, its status and every other entry stay as
    they were, and the saved invoices and the review index are not
    touched.  The same holds of the line items, which are replaced as a
    whole. *)
Theorem queue_edits_touch_reviewed_entry
    (st : Ui.state) (r : nat) (e : Ui.entry) (k v : str) (items : list json) :
  Ui.reviewIdx st = Some r ->
  nth_error (Ui.queue st) r = Some e ->
  (exists e',
     nth_error (Ui.queue (Ui.updateQueueForm st k v)) r = Some e'
     /\ obj_get k (Ui.form e') = Some (JStr v)
     /\ (forall k', k' <> k -> obj_get k' (Ui.form e') = obj_get k' (Ui.form e))
     /\ Ui.entry_status e' = Ui.entry_status e
     /\ Ui.lineItems e' = Ui.lineItems e)
  /\ nth_error (Ui.queue (Ui.updateQueueLines st items)) r
     = Some (Ui.with_lineItems e items)
  /\ (forall i, i <> r ->
        nth_error (Ui.queue (Ui.updateQueueForm st k v)) i = nth_error (Ui.queue st) i
        /\ nth_error (Ui.queue (Ui.updateQueueLines st items)) i
           = nth_error (Ui.queue st) i)
  /\ Ui.saved (Ui.updateQueueForm st k v) = Ui.saved st
  /\ Ui.reviewIdx (Ui.updateQueueForm st k v) = Some r.
Proof.
  intros Hr He.
  assert (Hrev : forall i, Ui.is_reviewed st i = Nat.eqb i r)
    by (intros i; unfold Ui.is_reviewed; now rewrite Hr).
  unfold Ui.updateQueueForm, Ui.updateQueueLines.
  cbn [Ui.with_queue Ui.queue Ui.saved Ui.reviewIdx].
  split; [|split; [|split; [|split; [reflexivity | exact Hr]]]].
  - eexists. rewrite nth_error_mapi, He, Hrev, Nat.eqb_refl. cbn [option_map].
    split; [reflexivity|]. cbn [Ui.with_form Ui.form Ui.entry_status Ui.lineItems].
    split; [apply obj_get_set_same|]. split; [|split; reflexivity].
    intros k' Hk'. now apply obj_get_set_other.
  - rewrite nth_error_mapi, He, Hrev, Nat.eqb_refl. reflexivity.
  - intros i Hi. rewrite !nth_error_mapi, !Hrev.
    assert (H : Nat.eqb i r = false) by now apply Nat.eqb_neq.
    rewrite H. now destruct (nth_error (Ui.queue st) i).
Qed.

Lemma queue_edits_touch_reviewed_entry_witness :
  Ui.reviewIdx (Ui.updateQueueForm reviewing_second (lit "amount") (lit "42")) = Some 1.
Proof.
  apply (queue_edits_touch_reviewed_entry reviewing_second 1
           (entry_of (lit "b.png") Ui.Ready) (lit "amount") (lit "42") []
           eq_refl eq_refl).
Defined.

(** ** The error for an answer that is not ok *)

Lemma starts_with_server_error (rest : str) :
  starts_with (lit "Unexpected") (lit "Server error " ++ rest) = false.
Proof. reflexivity. Qed.

(** The error the browser side makes of an answer whose status is not
    2xx always has a message, and never one that begins with
    [Unexpected]: a message of the JSON parser (or any other error with
    such a message, or with none) is replaced by [Server error], the
    status and the first 200 characters of the answer. *)
Lemma server_error_message (E : engine) (res : http_response) :
  let m := message E (App.server_error E res) in
  m <> [] /\ starts_with (lit "Unexpected") m = false.
Proof.
  cbv zeta. unfold App.server_error.
  set (pe := match bind (JSON_parse (text res)) _ with
             | Ok m => JsError m
             | Throw x => x
             end).
  set (sliced := JsError _).
  assert (Hs : message E sliced <> []
               /\ starts_with (lit "Unexpected") (message E sliced) = false).
  { unfold sliced. cbn [message]. split; [discriminate|].
    apply starts_with_server_error. }
  destruct (message E pe) as [|c m] eqn:Hm; [exact Hs|]. cbv beta iota.
  destruct (starts_with (lit "Unexpected") (c :: m)) eqn:Hu; cbn [negb];
    [exact Hs|].
  rewrite Hm. split; [discriminate | exact Hu].
Qed.
